(** * GitSmart: the repository intelligence engine

    A shallow embedding of [gitsmart/git_context.py] (class
    [GitContextExtractor]) and of the memory search of
    [gitsmart/storage.py] (class [KnowledgeStorage]), with the properties
    of the commit cache, of the two relevance searches, of the per-file
    history and of the repository statistics.

    Conventions of the embedding.
    - A Python [str] is a [string] (a sequence of 8-bit characters); case
      mapping and the regular-expression class [\w] are the ASCII ones
      ([A-Za-z0-9_]), other bytes are left untouched and are not word
      characters.
    - A Python [int] read from git or passed by a caller is a [Z]; a value
      produced by [len] or by adding up score components is a [nat].
    - A [datetime] built by [datetime.fromtimestamp(t, tz=utc)] is
      represented by its POSIX timestamp [t].
    - The methods of the engine run in a state and error monad: the state
      is the pair of caches of one engine instance, an error is a raised
      exception. *)

From Stdlib Require Import ZArith String Ascii List Bool Lia Permutation Sorted.
From Stdlib Require Import DecimalString.
From stdpp Require Import base option list gmap strings sorting.

#[local] Set Warnings "-register-all".

Local Open Scope string_scope.
Local Open Scope Z_scope.

(** ** Python built-ins on strings *)

Module Py.

(** [c.lower()] on one ASCII character. *)
Definition lower_ascii (c : ascii) : ascii :=
  let n := nat_of_ascii c in
  if ((65 <=? n) && (n <=? 90))%nat then ascii_of_nat (n + 32) else c.

(** [s.lower()] *)
Fixpoint lower (s : string) : string :=
  match s with
  | EmptyString => EmptyString
  | String c s' => String (lower_ascii c) (lower s')
  end.

(** The class [\w]: letters, digits and the underscore. *)
Definition is_word_char (c : ascii) : bool :=
  let n := nat_of_ascii c in
  (((48 <=? n) && (n <=? 57)) || ((65 <=? n) && (n <=? 90))
   || ((97 <=? n) && (n <=? 122)) || (n =? 95))%nat.

(** The scanner behind [re.findall(r'\w+', s)]: [cur] is the run of word
    characters read so far, in reverse. *)
Definition flush (cur : list ascii) (out : list string) : list string :=
  match cur with
  | [] => out
  | _ => string_of_list_ascii (rev cur) :: out
  end.

Fixpoint findall_scan (s : string) (cur : list ascii) : list string :=
  match s with
  | EmptyString => flush cur []
  | String c s' =>
      if is_word_char c then findall_scan s' (c :: cur)
      else flush cur (findall_scan s' [])
  end.

(** [re.findall(r'\w+', s)]: the maximal runs of word characters, in order. *)
Definition findall_words (s : string) : list string := findall_scan s [].

(** [set(re.findall(r'\w+', s))] *)
Definition word_set (s : string) : gset string := list_to_set (findall_words s).

(** [hay.startswith(needle)] *)
Fixpoint startswith (needle hay : string) : bool :=
  match needle, hay with
  | EmptyString, _ => true
  | String a n', String b h' => if Ascii.eqb a b then startswith n' h' else false
  | String _ _, EmptyString => false
  end.

(** [needle in hay] *)
Fixpoint contains (needle hay : string) : bool :=
  startswith needle hay
  || match hay with
     | EmptyString => false
     | String _ h' => contains needle h'
     end.

(** [sep.join(parts)] *)
Fixpoint join (sep : string) (parts : list string) : string :=
  match parts with
  | [] => EmptyString
  | [p] => p
  | p :: ps => p +:+ sep +:+ join sep ps
  end.

(** [s[:n]] for [n >= 0] *)
Fixpoint take_chars (n : nat) (s : string) : string :=
  match n, s with
  | S n', String c s' => String c (take_chars n' s')
  | _, _ => EmptyString
  end.

(** ASCII white space, as removed by [str.strip()]. *)
Definition is_space (c : ascii) : bool :=
  let n := nat_of_ascii c in
  (((9 <=? n) && (n <=? 13)) || ((28 <=? n) && (n <=? 32)))%nat.

Fixpoint lstrip (s : string) : string :=
  match s with
  | String c s' => if is_space c then lstrip s' else s
  | EmptyString => EmptyString
  end.

Fixpoint rstrip (s : string) : string :=
  match s with
  | EmptyString => EmptyString
  | String c s' =>
      match rstrip s' with
      | EmptyString => if is_space c then EmptyString else String c EmptyString
      | r => String c r
      end
  end.

(** [s.strip()] *)
Definition strip (s : string) : string := rstrip (lstrip s).

(** A string is falsy exactly when it is empty. *)
Definition truthy (s : string) : bool :=
  match s with EmptyString => false | _ => true end.

(** [l[:n]] for any integer [n]: a negative [n] counts from the end. *)
Definition slice_to {A} (l : list A) (n : Z) : list A :=
  if 0 <=? n then take (Z.to_nat n) l
  else take (length l - Z.to_nat (- n)) l.

(** [l.sort(key=..., reverse=True)]: Python's sort is stable, also in
    reverse, so among equal keys the earlier element stays first. *)
Section Sort.
Context {A : Type} (key : A -> nat).

(** Insert [x], which stood before every element of [l], into the
    already sorted [l]: it goes behind the strictly larger keys only. *)
Fixpoint insert_desc (x : A) (l : list A) : list A :=
  match l with
  | [] => [x]
  | y :: l' =>
      if (key x <? key y)%nat then y :: insert_desc x l'
      else x :: y :: l'
  end.

Fixpoint sort_desc (l : list A) : list A :=
  match l with
  | [] => []
  | x :: l' => insert_desc x (sort_desc l')
  end.

(** [descending l]: every element is followed by keys that are no larger. *)
Definition descending (l : list A) : Prop :=
  StronglySorted (fun a b => (key b <= key a)%nat) l.
End Sort.

(** [x] stands at an earlier position of [out] than [y]. *)
Definition ranks_above {A} (x y : A) (out : list A) : Prop :=
  exists i j, out !! i = Some x /\ out !! j = Some y /\ (i < j)%nat.

End Py.

(** ** Methods as state and error computations *)

Module Eff.

(** The exceptions met: [git.exc.GitCommandError], the built-in [ValueError],
    [TypeError] and [AttributeError], and [StorageError] of [exceptions.py]. *)
Inductive exn :=
| GitCommandError
| ValueError
| TypeError
| AttributeError
| StorageError.

(** [isinstance(e, cls)] for these classes, none a subclass of another *)
Definition exn_eqb (e cls : exn) : bool :=
  match e, cls with
  | GitCommandError, GitCommandError
  | ValueError, ValueError
  | TypeError, TypeError
  | AttributeError, AttributeError
  | StorageError, StorageError => true
  | _, _ => false
  end.

(** A method run on an object in state [St] either returns ([inr]) or
    raises ([inl]); the state it leaves behind is kept in both cases. *)
Definition M (St A : Type) : Type := St -> (exn + A) * St.

#[export] Instance M_ret {St} : MRet (M St) := fun A x s => (inr x, s).
#[export] Instance M_bind {St} : MBind (M St) := fun A B f m s =>
  match m s with
  | (inr x, s') => f x s'
  | (inl e, s') => (inl e, s')
  end.

Definition raise {St A} (e : exn) : M St A := fun s => (inl e, s).

(** [try: body / except: handler], the handler catching every exception *)
Definition try_except {St A} (body handler : M St A) : M St A := fun s =>
  match body s with
  | (inr x, s') => (inr x, s')
  | (inl _, s') => handler s'
  end.

(** [try: body / except cls: handler], the handler catching the exception
    [cls] and letting any other pass *)
Definition try_except_on {St A} (cls : exn) (body handler : M St A) : M St A :=
  fun s =>
  match body s with
  | (inr x, s') => (inr x, s')
  | (inl e, s') => if exn_eqb e cls then handler s' else (inl e, s')
  end.

(** A call that returns or raises without touching the state *)
Definition call {St A} (r : exn + A) : M St A := fun s => (r, s).

(** [[f(x) for x in l]] for a method [f] *)
Fixpoint for_each {St A B} (f : A -> M St B) (l : list A) : M St (list B) :=
  match l with
  | [] => mret []
  | x :: l' => y ← f x; ys ← for_each f l'; mret (y :: ys)
  end.

(** [steps R m]: whatever [m] returns or raises, it leaves a state related
    by [R] to the one it started in. *)
Definition steps {St A} (R : relation St) (m : M St A) : Prop :=
  forall s, R s (m s).2.

End Eff.

(** ** [git_context.py] *)

Module Git.
Import Py Eff.

(** *** The version-control collaborator (GitPython objects) *)

(** [git.Actor] *)
Record Actor := { actor_name : string; actor_email : string }.

(** [git.Stats]: [stats_files] holds the keys of the mapping
    [commit.stats.files] in its iteration order, the two counts are
    [commit.stats.total['insertions']] and [['deletions']]. *)
Record Stats := {
  stats_files : list string;
  stats_insertions : Z;
  stats_deletions : Z
}.

(** [git.Commit].  The property [commit.stats] runs a diff each time it is
    read; [c_stats = None] is a commit for which that computation raises. *)
Record Commit := {
  hexsha : string;
  c_message : string;
  c_author : Actor;
  committed_date : Z;
  c_stats : option Stats
}.

(** An entry met by [tree.traverse()], a [git.Blob] or a [git.Tree], with
    its attributes [type] and [path].  Such an object has no attribute
    [a_path], which belongs to the entries of a diff. *)
Record TreeItem := { item_type : string; item_path : string }.

(** [git.Head], the object [repo.active_branch] returns *)
Record Head := { head_name : string }.

(** A file of the working tree that [exists()] finds: [stat().st_size], and
    the lines obtained by [readlines()] ([None] when opening or reading
    raises). *)
Record DiskFile := { st_size : Z; readlines : option (list string) }.

(** [git.Repo] together with the working tree it sits in.  A field that
    stands for a call whose exception matters holds what the call returns
    ([inr]) or the exception it raises ([inl]); a [None] in a field that
    stands for a call is a call that raises, where every exception is
    handled alike.  The working tree and the repository do not change
    while the engine is in use, and the working tree can be examined:
    [exists()] and [stat()] do not raise. *)
Record Repo := {
  repo_path : string;
  (** [repo.iter_commits()], newest first.  On a repository without
      commits HEAD names a branch that does not exist yet, and the call
      raises [ValueError]; the list it returns otherwise holds at least the
      commit of HEAD. *)
  iter_commits : exn + list Commit;
  (** [repo.iter_commits(paths=p)]: [git.exc.GitCommandError] when the git
      command fails, [ValueError] on a repository without commits *)
  iter_commits_paths : string -> exn + list Commit;
  (** names of [repo.branches] *)
  branches : list string;
  (** [repo.active_branch]: the branch HEAD points to; the property raises
      [TypeError] when HEAD is detached. *)
  active_branch : exn + Head;
  (** [repo.head.commit] *)
  head_commit : option Commit;
  (** [repo.head.commit.tree.traverse()] *)
  head_tree : option (list TreeItem);
  (** [repo.index.diff(None)] and [repo.index.diff("HEAD")], as [a_path]s *)
  index_diff_worktree : option (list string);
  index_diff_head : option (list string);
  (** [Path(filepath).as_posix()] and [self.repo_path / filepath] *)
  as_posix : string -> string;
  full_path : string -> string;
  (** the file system, by full path; [None]: no such file *)
  disk : string -> option DiskFile
}.

(** *** The dataclasses *)

Record CommitInfo := {
  hash : string;
  short_hash : string;
  message : string;
  author : string;
  email : string;
  date : Z;
  files_changed : list string;
  insertions : Z;
  deletions : Z
}.

Record FileHistory := {
  filepath : string;
  exists_ : bool;
  creation_date : option Z;
  last_modified : option Z;
  total_commits : nat;
  authors : list string;
  recent_changes : list CommitInfo;
  lines_of_code : option nat;
  file_size : option Z
}.

Record RepoStats := {
  commit_count : nat;
  file_count : nat;
  contributor_count : nat;
  age_days : Z;
  primary_language : option string;
  (** language -> file count, in insertion order *)
  languages : list (string * nat);
  recent_activity : list CommitInfo;
  branch_count : nat;
  current_branch : string
}.

(** *** The engine state and its monad *)

(** The two caches of a [GitContextExtractor].  [stats_reads] is an
    instrumentation counter, not a field of the class: it counts the reads
    of the property [commit.stats]. *)
Record Engine := {
  _commit_cache : gmap string CommitInfo;
  _file_cache : gmap string FileHistory;
  stats_reads : nat
}.

(** [GitContextExtractor.__init__] on an opened repository *)
Definition init : Engine :=
  {| _commit_cache := ∅; _file_cache := ∅; stats_reads := 0 |}.

Abbreviation M := (Eff.M Engine).

Definition get_commit_cache : M (gmap string CommitInfo) :=
  fun s => (inr (_commit_cache s), s).
Definition get_file_cache : M (gmap string FileHistory) :=
  fun s => (inr (_file_cache s), s).
Definition set_commit_cache (k : string) (v : CommitInfo) : M unit := fun s =>
  (inr tt, {| _commit_cache := <[k := v]> (_commit_cache s);
              _file_cache := _file_cache s; stats_reads := stats_reads s |}).
Definition set_file_cache (k : string) (v : FileHistory) : M unit := fun s =>
  (inr tt, {| _commit_cache := _commit_cache s;
              _file_cache := <[k := v]> (_file_cache s);
              stats_reads := stats_reads s |}).

(** One read of [commit.stats] *)
Definition stats (c : Commit) : M Stats := fun s =>
  let s' := {| _commit_cache := _commit_cache s; _file_cache := _file_cache s;
               stats_reads := S (stats_reads s) |} in
  match c_stats c with
  | Some st => (inr st, s')
  | None => (inl GitCommandError, s')
  end.

(** *** [_commit_to_info] *)

Definition _commit_to_info (commit : Commit) : M CommitInfo :=
  cache ← get_commit_cache;
  match cache !! hexsha commit with
  | Some commit_info => mret commit_info
  | None =>
      '(files_changed, insertions, deletions) ←
        try_except
          (st1 ← stats commit;
           st2 ← stats commit;
           st3 ← stats commit;
           mret (stats_files st1, stats_insertions st2, stats_deletions st3))
          (mret ([], 0, 0));
      let commit_info :=
        {| hash := hexsha commit;
           short_hash := take_chars 8 (hexsha commit);
           message := strip (c_message commit);
           author := actor_name (c_author commit);
           email := actor_email (c_author commit);
           date := committed_date commit;
           files_changed := files_changed;
           insertions := insertions;
           deletions := deletions |} in
      _ ← set_commit_cache (hexsha commit) commit_info;
      mret commit_info
  end.

(** *** [search_commits] *)

(** The [for] loop of [search_commits] over the commits still to come, with
    the list [matching_commits] built so far. *)
Fixpoint search_loop (query_lower : string) (query_words : gset string)
    (max_results : Z) (commits : list Commit)
    (matching_commits : list (nat * CommitInfo)) : M (list (nat * CommitInfo)) :=
  match commits with
  | [] => mret matching_commits
  | commit :: rest =>
      if max_results <=? Z.of_nat (length matching_commits)
      then mret matching_commits
      else
        st ← stats commit;
        let score := 0%nat in
        let commit_text :=
          lower (c_message commit +:+ " " +:+ join " " (stats_files st)) in
        let commit_words := word_set commit_text in
        let score :=
          if contains query_lower commit_text then (score + 10)%nat else score in
        let word_matches := size (query_words ∩ commit_words) in
        let score := (score + word_matches * 2)%nat in
        st' ← stats commit;
        let score :=
          foldl (fun score filepath =>
                   if existsb (fun word => contains word (lower filepath))
                        (elements query_words)
                   then (score + 1)%nat else score)
                score (stats_files st') in
        if (0 <? score)%nat then
          commit_info ← _commit_to_info commit;
          search_loop query_lower query_words max_results rest
            (matching_commits ++ [(score, commit_info)])%list
        else
          search_loop query_lower query_words max_results rest matching_commits
  end.

Definition search_commits (repo : Repo) (query : string) (max_results : Z)
  : M (list CommitInfo) :=
  let query_lower := lower query in
  let query_words := word_set query_lower in
  commits ← call (iter_commits repo);
  matching_commits ←
    search_loop query_lower query_words max_results commits [];
  let matching_commits := sort_desc fst matching_commits in
  mret (snd <$> matching_commits).

(** *** [_analyze_languages] and [_is_text_file] *)

(** [PurePath.name]: the last component of a path *)
Fixpoint path_name_from (s name : string) : string :=
  match s with
  | EmptyString => name
  | String c s' =>
      if Ascii.eqb c "/" then path_name_from s' EmptyString
      else path_name_from s' (name +:+ String c EmptyString)
  end.

Definition path_name (s : string) : string := path_name_from s EmptyString.

(** [name[name.rfind('.'):]] when [name] has a dot *)
Fixpoint from_last_dot (name : string) : option string :=
  match name with
  | EmptyString => None
  | String c name' =>
      match from_last_dot name' with
      | Some t => Some t
      | None => if Ascii.eqb c "." then Some name else None
      end
  end.

(** [PurePath.suffix]: [name[i:]] for [i = name.rfind('.')] when
    [0 < i < len(name) - 1], and the empty string otherwise. *)
Definition suffix (path : string) : string :=
  match path_name path with
  | EmptyString => EmptyString
  | String _ rest =>
      match from_last_dot rest with
      | Some t => if (1 <? String.length t)%nat then t else EmptyString
      | None => EmptyString
      end
  end.

Definition language_map : list (string * string) :=
  [ (".py", "Python"); (".js", "JavaScript"); (".ts", "TypeScript");
    (".java", "Java"); (".cpp", "C++"); (".cc", "C++"); (".cxx", "C++");
    (".c", "C"); (".h", "C/C++"); (".go", "Go"); (".rs", "Rust");
    (".php", "PHP"); (".rb", "Ruby"); (".swift", "Swift"); (".kt", "Kotlin");
    (".scala", "Scala"); (".cs", "C#"); (".html", "HTML"); (".css", "CSS");
    (".scss", "SCSS"); (".vue", "Vue"); (".jsx", "React");
    (".tsx", "React/TypeScript"); (".sql", "SQL"); (".sh", "Shell");
    (".yml", "YAML"); (".yaml", "YAML"); (".json", "JSON"); (".xml", "XML");
    (".md", "Markdown"); (".dockerfile", "Docker") ].

(** [d.get(k, default)] on a mapping written as a list of items *)
Fixpoint dict_get {V} (d : list (string * V)) (k : string) (default : V) : V :=
  match d with
  | [] => default
  | (k', v) :: d' => if String.eqb k k' then v else dict_get d' k default
  end.

(** [d[k] += 1] on a [defaultdict(int)]: a new key goes to the end. *)
Fixpoint dict_incr (d : list (string * nat)) (k : string) : list (string * nat) :=
  match d with
  | [] => [(k, 1%nat)]
  | (k', n) :: d' =>
      if String.eqb k k' then (k', S n) :: d' else (k', n) :: dict_incr d' k
  end.

Definition _analyze_languages (filepaths : list string) : list (string * nat) :=
  foldl (fun languages filepath =>
           let ext := lower (suffix filepath) in
           let language := dict_get language_map ext "Other" in
           dict_incr languages language)
        [] filepaths.

(** [max(d.keys(), key=d.get)]: the first key with the largest value *)
Fixpoint max_key (d : list (string * nat)) : option (string * nat) :=
  match d with
  | [] => None
  | (k, n) :: d' =>
      match max_key d' with
      | Some (k', n') => if (n <? n')%nat then Some (k', n') else Some (k, n)
      | None => Some (k, n)
      end
  end.

Definition text_extensions : list string :=
  [ ".py"; ".js"; ".ts"; ".java"; ".cpp"; ".c"; ".h"; ".go"; ".rs";
    ".php"; ".rb"; ".swift"; ".kt"; ".scala"; ".cs"; ".html"; ".css";
    ".scss"; ".vue"; ".jsx"; ".tsx"; ".sql"; ".sh"; ".yml"; ".yaml";
    ".json"; ".xml"; ".md"; ".txt"; ".conf"; ".cfg"; ".ini" ].

Definition _is_text_file (path : string) : bool :=
  existsb (String.eqb (lower (suffix path))) text_extensions.

(** *** [get_repo_stats] *)

(** [bool(head)] for a [git.Head]: the class defines neither [__bool__]
    nor [__len__], so the object is truthy. *)
Definition head_truthy (head : Head) : bool := true.

(** [self.repo.active_branch.name if self.repo.active_branch else "unknown"]:
    the condition reads the property first, the chosen branch reads it
    again; each read raises on a detached HEAD. *)
Definition current_branch_or_unknown (repo : Repo) : M string :=
  head ← call (active_branch repo);
  if head_truthy head
  then head' ← call (active_branch repo); mret (head_name head')
  else mret "unknown".

(** [item.a_path] on an entry of a tree: there is no such attribute. *)
Definition a_path (item : TreeItem) : M string := raise AttributeError.

(** [repo.head.commit.tree.traverse()]; which exception a failing traversal
    raises does not matter, its one caller handles them all. *)
Definition traverse_head_tree (repo : Repo) : M (list TreeItem) :=
  match head_tree repo with
  | Some items => mret items
  | None => raise GitCommandError
  end.

Definition get_repo_stats (repo : Repo) : M RepoStats :=
  commits ← call (iter_commits repo);
  match commits with
  | [] =>
      current_branch ← current_branch_or_unknown repo;
      mret {| commit_count := 0; file_count := 0; contributor_count := 0;
              age_days := 0; primary_language := None; languages := [];
              recent_activity := [];
              branch_count := length (branches repo);
              current_branch := current_branch |}
  | newest_commit :: _ =>
      let commit_count := length commits in
      let contributors : gset string :=
        list_to_set ((fun commit => actor_email (c_author commit)) <$> commits) in
      let contributor_count := size contributors in
      let oldest_commit := default newest_commit (last commits) in
      let age_days :=
        (committed_date newest_commit - committed_date oldest_commit) / 86400 in
      '(file_count, languages, primary_language) ←
        try_except
          (items ← traverse_head_tree repo;
           tracked_files ←
             for_each a_path (filter (fun item => item_type item = "blob") items);
           let file_count := length tracked_files in
           let languages := _analyze_languages tracked_files in
           let primary_language := fst <$> max_key languages in
           mret (file_count, languages, primary_language))
          (mret (0%nat, [], None));
      recent_activity ← for_each _commit_to_info (take 20 commits);
      current_branch ← current_branch_or_unknown repo;
      mret {| commit_count := commit_count; file_count := file_count;
              contributor_count := contributor_count; age_days := age_days;
              primary_language := primary_language; languages := languages;
              recent_activity := recent_activity;
              branch_count := length (branches repo);
              current_branch := current_branch |}
  end.

(** *** [get_file_history] *)

Definition get_file_history (repo : Repo) (filepath : string) : M FileHistory :=
  file_cache ← get_file_cache;
  match file_cache !! filepath with
  | Some history => mret history
  | None =>
      let full := full_path repo filepath in
      let rel_path := as_posix repo filepath in
      let exists_ := bool_decide (is_Some (disk repo full)) in
      let file_size := st_size <$> disk repo full in
      commits ←
        try_except_on GitCommandError
          (call (iter_commits_paths repo rel_path))
          (mret []);
      history ←
        match commits with
        | [] =>
            mret {| filepath := filepath; exists_ := exists_;
                    creation_date := None; last_modified := None;
                    total_commits := 0; authors := []; recent_changes := [];
                    lines_of_code := None; file_size := file_size |}
        | newest :: _ =>
            let creation_date := committed_date (default newest (last commits)) in
            let last_modified := committed_date newest in
            let authors :=
              elements (list_to_set ((fun commit => actor_email (c_author commit))
                                       <$> commits) : gset string) in
            recent_changes ← for_each _commit_to_info (take 10 commits);
            let lines_of_code :=
              match disk repo full with
              | Some f =>
                  if _is_text_file full then length <$> readlines f else None
              | None => None
              end in
            mret {| filepath := filepath; exists_ := exists_;
                    creation_date := Some creation_date;
                    last_modified := Some last_modified;
                    total_commits := length commits; authors := authors;
                    recent_changes := recent_changes;
                    lines_of_code := lines_of_code; file_size := file_size |}
        end;
      _ ← set_file_cache filepath history;
      mret history
  end.

(** *** [get_recent_commits] and [get_current_context] *)

Definition get_recent_commits (repo : Repo) (count : Z) : M (list CommitInfo) :=
  all_commits ← call (iter_commits repo);
  let commits := slice_to all_commits count in
  for_each _commit_to_info commits.

(** The mapping returned by [get_current_context], by key *)
Record CurrentContext := {
  ctx_branch : string;
  ctx_current_commit : option CommitInfo;
  ctx_modified_files : list string;
  ctx_staged_files : list string;
  ctx_repo_path : string
}.

Definition get_current_context (repo : Repo) : M CurrentContext :=
  current_branch ←
    try_except
      (head ← call (active_branch repo); mret (head_name head))
      (mret "detached");
  current_commit_info ←
    try_except
      (match head_commit repo with
       | Some current_commit =>
           info ← _commit_to_info current_commit; mret (Some info)
       | None => raise GitCommandError
       end)
      (mret None);
  let '(modified_files, staged_files) :=
    match index_diff_worktree repo, index_diff_head repo with
    | Some modified, Some staged => (modified, staged)
    | _, _ => ([], [])
    end in
  mret {| ctx_branch := current_branch;
          ctx_current_commit := current_commit_info;
          ctx_modified_files := modified_files;
          ctx_staged_files := staged_files;
          ctx_repo_path := repo_path repo |}.

(** *** The methods of the engine that read or write its caches *)

Inductive op :=
| GetRepoStats
| SearchCommits (query : string) (max_results : Z)
| GetFileHistory (filepath : string)
| GetRecentCommits (count : Z)
| GetCurrentContext
| CommitToInfo (commit : Commit).

(** Run a method for its effect on the engine; the flag tells whether it
    returned ([true]) or raised ([false]). *)
Definition run (repo : Repo) (o : op) (s : Engine) : bool * Engine :=
  let ok {A} (r : (exn + A) * Engine) : bool * Engine :=
    (match r.1 with inr _ => true | inl _ => false end, r.2) in
  match o with
  | GetRepoStats => ok (get_repo_stats repo s)
  | SearchCommits query max_results => ok (search_commits repo query max_results s)
  | GetFileHistory filepath => ok (get_file_history repo filepath s)
  | GetRecentCommits count => ok (get_recent_commits repo count s)
  | GetCurrentContext => ok (get_current_context repo s)
  | CommitToInfo commit => ok (_commit_to_info commit s)
  end.

(** The engine states a sequence of method calls on [repo] can produce *)
Inductive reachable (repo : Repo) : Engine -> Prop :=
| reach_init : reachable repo init
| reach_step s o : reachable repo s -> reachable repo (run repo o s).2.

(** *** Vocabulary of the statements about the engine *)

(** The statistics [_commit_to_info] records for a commit: those of the
    commit, or the fallback when they cannot be computed. *)
Definition stats_or_fallback (commit : Commit) : Stats :=
  default {| stats_files := []; stats_insertions := 0; stats_deletions := 0 |}
          (c_stats commit).

(** The record [_commit_to_info] derives from a commit it has not cached. *)
Definition commit_record (commit : Commit) : CommitInfo :=
  {| hash := hexsha commit;
     short_hash := take_chars 8 (hexsha commit);
     message := strip (c_message commit);
     author := actor_name (c_author commit);
     email := actor_email (c_author commit);
     date := committed_date commit;
     files_changed := stats_files (stats_or_fallback commit);
     insertions := stats_insertions (stats_or_fallback commit);
     deletions := stats_deletions (stats_or_fallback commit) |}.

(** The relevance score the loop of [search_commits] gives to a commit with
    message [msg] and changed files [files]. *)
Definition relevance (query msg : string) (files : list string) : nat :=
  let query_lower := lower query in
  let query_words := word_set query_lower in
  let commit_text := lower (msg +:+ " " +:+ join " " files) in
  ((if contains query_lower commit_text then 10 else 0)
   + size (query_words ∩ word_set commit_text) * 2
   + length (filter (fun filepath =>
                       existsb (fun word => contains word (lower filepath))
                               (elements query_words) = true) files))%nat.

(** The score of a commit, and the scored candidate the loop makes of it *)
Definition score_of (query : string) (commit : Commit) : nat :=
  relevance query (c_message commit) (stats_files (stats_or_fallback commit)).

Definition scored (query : string) (commit : Commit) : nat * CommitInfo :=
  (score_of query commit, commit_record commit).

(** The positively scored candidates of a log, in the order of the log *)
Definition candidates (query : string) (log : list Commit) : list (nat * CommitInfo) :=
  filter (fun sc => (0 < sc.1)%nat) (scored query <$> log).

(** Commit Relevance Search as specified: score the whole log, drop the
    scores of 0, sort by score, then truncate to [max_results]. *)
Definition full_scan_search (query : string) (max_results : Z) (log : list Commit)
  : list CommitInfo :=
  snd <$> take (Z.to_nat max_results) (sort_desc fst (candidates query log)).

(** What the loop does: truncate the candidates to the first [max_results]
    of them, then sort those. *)
Definition first_matches_search (query : string) (max_results : Z)
    (log : list Commit) : list CommitInfo :=
  snd <$> sort_desc fst (take (Z.to_nat max_results) (candidates query log)).

(** Every key of the commit cache is the hash of its record. *)
Definition cache_keyed (s : Engine) : Prop :=
  map_Forall (fun k info => hash info = k /\ short_hash info = take_chars 8 k)
             (_commit_cache s).

(** The commit cache holds, for the commits of [log], the records derived
    from them. *)
Definition cache_agrees (log : list Commit) (s : Engine) : Prop :=
  forall commit info, commit ∈ log ->
    _commit_cache s !! hexsha commit = Some info -> info = commit_record commit.

(** The commit cache only grows, and its keys stay the hashes of their
    records. *)
Definition cache_grows (s s' : Engine) : Prop :=
  _commit_cache s ⊆ _commit_cache s' /\ (cache_keyed s -> cache_keyed s').

(** A step that, besides, leaves the file cache alone *)
Definition quiet (s s' : Engine) : Prop :=
  cache_grows s s' /\ _file_cache s' = _file_cache s.

(** Run a sequence of methods, whatever they return or raise. *)
Definition run_all (repo : Repo) (os : list op) (s : Engine) : Engine :=
  foldl (fun s o => (run repo o s).2) s os.

(** The history [get_file_history] builds for a path without commits *)
Definition empty_history (repo : Repo) (path : string) : FileHistory :=
  {| filepath := path;
     exists_ := bool_decide (is_Some (disk repo (full_path repo path)));
     creation_date := None; last_modified := None; total_commits := 0;
     authors := []; recent_changes := []; lines_of_code := None;
     file_size := st_size <$> disk repo (full_path repo path) |}.

(** The log of a path, a failing query counted as no commits *)
Definition path_log (repo : Repo) (path : string) : list Commit :=
  match iter_commits_paths repo (as_posix repo path) with
  | inr commits => commits
  | inl _ => []
  end.

(** The log query of a path returns, or raises the one exception that
    [get_file_history] handles. *)
Definition path_query_handled (repo : Repo) (path : string) : Prop :=
  match iter_commits_paths repo (as_posix repo path) with
  | inr _ => True
  | inl e => e = GitCommandError
  end.

(** A history that tells of the log of its path what [get_file_history]
    reads from it. *)
Definition history_ok (repo : Repo) (path : string) (h : FileHistory) : Prop :=
  let log := path_log repo path in
  filepath h = path
  /\ total_commits h = length log
  /\ creation_date h = committed_date <$> last log
  /\ last_modified h = committed_date <$> head log
  /\ authors h
     = elements (list_to_set ((fun commit => actor_email (c_author commit))
                                <$> log) : gset string)
  /\ length (recent_changes h) = length (take 10 log).

Definition file_cache_sound (repo : Repo) (s : Engine) : Prop :=
  map_Forall (history_ok repo) (_file_cache s).

(** Newest first: the committed timestamps never increase along a log. *)
Definition newest_first (log : list Commit) : Prop :=
  StronglySorted (fun c1 c2 => committed_date c2 <= committed_date c1) log.

End Git.

(** ** [storage.py]: the memory search *)

Module Storage.
Import Py Eff.

(** *** Values read from JSON, and their rendering by [str] *)

(** What [json.load] produces, floats left out; a mapping is the list of its
    items in order. *)
Inductive value :=
| VNone
| VBool (b : bool)
| VInt (z : Z)
| VStr (s : string)
| VList (l : list value)
| VDict (d : list (string * value)).

Definition squote : ascii := ascii_of_nat 39.
Definition dquote : ascii := ascii_of_nat 34.
Definition backslash : ascii := ascii_of_nat 92.

Fixpoint has_char (c : ascii) (s : string) : bool :=
  match s with
  | EmptyString => false
  | String c' s' => Ascii.eqb c c' || has_char c s'
  end.

Definition hex_digit (n : nat) : ascii :=
  if (n <? 10)%nat then ascii_of_nat (48 + n) else ascii_of_nat (87 + n).

(** One character inside [repr] of a string delimited by [quote]; bytes
    above 127 belong to printable characters and are kept. *)
Definition repr_char (quote c : ascii) : string :=
  let n := nat_of_ascii c in
  if Ascii.eqb c quote || Ascii.eqb c backslash
  then String backslash (String c EmptyString)
  else if (n =? 9)%nat then String backslash "t"
  else if (n =? 10)%nat then String backslash "n"
  else if (n =? 13)%nat then String backslash "r"
  else if ((n <? 32) || (n =? 127))%nat
  then String backslash
         (String "x" (String (hex_digit (n / 16)) (String (hex_digit (n mod 16))
                                                     EmptyString)))
  else String c EmptyString.

Fixpoint repr_chars (quote : ascii) (s : string) : string :=
  match s with
  | EmptyString => EmptyString
  | String c s' => repr_char quote c +:+ repr_chars quote s'
  end.

(** [repr(s)] for a string: single quotes, unless [s] has a single quote
    and no double quote. *)
Definition repr_str (s : string) : string :=
  let quote := if has_char squote s && negb (has_char dquote s)
               then dquote else squote in
  String quote (repr_chars quote s +:+ String quote EmptyString).

(** [repr(v)], which is also [str(v)] for a mapping or a list *)
Fixpoint repr (v : value) : string :=
  match v with
  | VNone => "None"
  | VBool true => "True"
  | VBool false => "False"
  | VInt z => NilZero.string_of_int (Z.to_int z)
  | VStr s => repr_str s
  | VList l => "[" +:+ join ", " (map repr l) +:+ "]"
  | VDict d =>
      "{" +:+ join ", " (map (fun kv => repr_str kv.1 +:+ ": " +:+ repr kv.2) d)
          +:+ "}"
  end.

(** *** The dataclass [Memory] *)

Record Memory := {
  id : string;
  content : string;
  enhanced_content : option string;
  memory_type : string;
  context : list (string * value);
  tags : list string;
  created_at : string
}.

(** [Memory.to_dict], that is [dataclasses.asdict] *)
Definition to_dict (m : Memory) : value :=
  VDict [ ("id", VStr (id m));
          ("content", VStr (content m));
          ("enhanced_content", from_option VStr VNone (enhanced_content m));
          ("memory_type", VStr (memory_type m));
          ("context", VDict (context m));
          ("tags", VList (VStr <$> tags m));
          ("created_at", VStr (created_at m)) ].

(** *** The store *)

(** The file [memories.json]: absent, present but failing to load, or
    holding a list of memories. *)
Inductive file_state :=
| Missing
| Corrupt
| Holds (memories : list Memory).

Record Store := {
  memories_file : file_state;
  _memories_cache : option (list Memory)
}.

Definition set_memories_cache (l : list Memory) : M Store unit := fun st =>
  (inr tt, {| memories_file := memories_file st; _memories_cache := Some l |}).

Definition get_store : M Store Store := fun st => (inr st, st).

Definition _load_memories : M Store (list Memory) :=
  st ← get_store;
  match _memories_cache st with
  | Some memories => mret memories
  | None =>
      match memories_file st with
      | Missing => _ ← set_memories_cache []; mret []
      | Holds memories => _ ← set_memories_cache memories; mret memories
      | Corrupt => raise StorageError
      end
  end.

(** *** [search_memories] *)

(** The body of the [for] loop: the score of one memory *)
Definition memory_score (query_lower : string) (memory : Memory) : nat :=
  let score := 0%nat in
  let score :=
    if contains query_lower (lower (content memory))
    then (score + 5)%nat else score in
  let score :=
    if match enhanced_content memory with
       | Some enhanced => truthy enhanced && contains query_lower (lower enhanced)
       | None => false
       end
    then (score + 3)%nat else score in
  let score :=
    foldl (fun score tag =>
             if contains query_lower (lower tag) then (score + 2)%nat else score)
          score (tags memory) in
  let context_text := lower (repr (VDict (context memory))) in
  let score :=
    if contains query_lower context_text then (score + 1)%nat else score in
  score.

Definition search_memories (query : string) (limit : Z) : M Store (list value) :=
  memories ← _load_memories;
  let query_lower := lower query in
  let scored_memories :=
    foldl (fun scored_memories memory =>
             let score := memory_score query_lower memory in
             if (0 <? score)%nat then (scored_memories ++ [(score, memory)])%list
             else scored_memories)
          [] memories in
  let scored_memories := sort_desc fst scored_memories in
  mret ((fun sm => to_dict sm.2) <$> slice_to scored_memories limit).

(** *** Vocabulary of the statements about the memory search *)

(** The scored memories the loop collects: those of a positive score, in
    the order of the store. *)
Definition scored_memories_of (query : string) (memories : list Memory)
  : list (nat * Memory) :=
  filter (fun sm => (0 < sm.1)%nat)
         ((fun memory => (memory_score (lower query) memory, memory)) <$> memories).

(** Neither the enhanced content, nor a tag, nor the rendered context of
    the memory contains [word]. *)
Definition silent_outside_content (word : string) (memory : Memory) : Prop :=
  match enhanced_content memory with
  | Some enhanced => contains word (lower enhanced) = false
  | None => True
  end
  /\ Forall (fun tag => contains word (lower tag) = false) (tags memory)
  /\ contains word (lower (repr (VDict (context memory)))) = false.

(** No field of the memory that the search reads contains [word]. *)
Definition silent_on (word : string) (memory : Memory) : Prop :=
  contains word (lower (content memory)) = false
  /\ silent_outside_content word memory.

End Storage.

(** ** Sample data *)

Module Sample.
Import Eff Git Storage.

Definition alice : Actor := {| actor_name := "Alice"; actor_email := "alice@example.org" |}.

Definition commit_A : Commit :=
  {| hexsha := "a3f1c2d4e5b60718293a4b5c6d7e8f9012345678";
     c_message := "fix redis timeout";
     c_author := alice;
     committed_date := 1700086400;
     c_stats := Some {| stats_files := ["src/timeout.py"];
                        stats_insertions := 4; stats_deletions := 1 |} |}.

Definition commit_B : Commit :=
  {| hexsha := "b7e2d3c4f5a60718293a4b5c6d7e8f9012345678";
     c_message := "update docs";
     c_author := alice;
     committed_date := 1700000000;
     c_stats := Some {| stats_files := ["redis/config.py"];
                        stats_insertions := 7; stats_deletions := 0 |} |}.

Definition commit_C : Commit :=
  {| hexsha := "d1c0b9a8f7e60718293a4b5c6d7e8f9012345678";
     c_message := "add timeout module";
     c_author := alice;
     committed_date := 1699000000;
     c_stats := Some {| stats_files := ["src/timeout.py"; "README.md"];
                        stats_insertions := 120; stats_deletions := 0 |} |}.

(** A commit whose statistics cannot be computed *)
Definition commit_nostats : Commit :=
  {| hexsha := "c9d8e7f6a5b40718293a4b5c6d7e8f9012345678";
     c_message := "fix redis timeout";
     c_author := alice;
     committed_date := 1690000000;
     c_stats := None |}.

(** A repository with the given log and nothing on disk; the log of a
    path is made of the commits that changed it. *)
Definition repo_of (log : list Commit) : Repo :=
  {| repo_path := "/srv/project";
     iter_commits := inr log;
     iter_commits_paths := fun path =>
       inr (filter (fun commit => path ∈ stats_files (stats_or_fallback commit))
                   log);
     branches := ["main"];
     active_branch := inr {| head_name := "main" |};
     head_commit := head log;
     head_tree := Some [];
     index_diff_worktree := Some [];
     index_diff_head := Some [];
     as_posix := fun path => path;
     full_path := fun path => "/srv/project/" +:+ path;
     disk := fun _ => None |}.

(** A repository just initialised, without a commit: HEAD names a branch
    that does not exist yet, so every enumeration of commits raises
    [ValueError]; there is no head commit and no branch. *)
Definition unborn_repo : Repo :=
  {| repo_path := "/srv/project";
     iter_commits := inl ValueError;
     iter_commits_paths := fun _ => inl ValueError;
     branches := [];
     active_branch := inr {| head_name := "main" |};
     head_commit := None;
     head_tree := None;
     index_diff_worktree := Some [];
     index_diff_head := None;
     as_posix := fun path => path;
     full_path := fun path => "/srv/project/" +:+ path;
     disk := fun _ => None |}.

(** The repository [repo_of log] on which the git command behind the log
    query of a path fails *)
Definition failing_query_repo (log : list Commit) : Repo :=
  {| repo_path := repo_path (repo_of log);
     iter_commits := iter_commits (repo_of log);
     iter_commits_paths := fun _ => inl GitCommandError;
     branches := branches (repo_of log);
     active_branch := active_branch (repo_of log);
     head_commit := head_commit (repo_of log);
     head_tree := head_tree (repo_of log);
     index_diff_worktree := index_diff_worktree (repo_of log);
     index_diff_head := index_diff_head (repo_of log);
     as_posix := as_posix (repo_of log);
     full_path := full_path (repo_of log);
     disk := disk (repo_of log) |}.

(** The repository [repo_of log] with a commit checked out by its id: HEAD
    is detached. *)
Definition detached_repo (log : list Commit) : Repo :=
  {| repo_path := repo_path (repo_of log);
     iter_commits := iter_commits (repo_of log);
     iter_commits_paths := iter_commits_paths (repo_of log);
     branches := branches (repo_of log);
     active_branch := inl TypeError;
     head_commit := head_commit (repo_of log);
     head_tree := head_tree (repo_of log);
     index_diff_worktree := index_diff_worktree (repo_of log);
     index_diff_head := index_diff_head (repo_of log);
     as_posix := as_posix (repo_of log);
     full_path := full_path (repo_of log);
     disk := disk (repo_of log) |}.

Definition memory_tagged : Memory :=
  {| id := "m-1"; content := EmptyString; enhanced_content := None;
     memory_type := "note"; context := []; tags := ["redis"];
     created_at := "2024-01-01T00:00:00+00:00" |}.

(** A memory with nothing but two tags, each containing "redis" *)
Definition memory_two_tags : Memory :=
  {| id := "m-4"; content := EmptyString; enhanced_content := None;
     memory_type := "note"; context := []; tags := ["redis"; "redis-cluster"];
     created_at := "2024-01-04T00:00:00+00:00" |}.

(** A store whose file [memories.json] cannot be loaded *)
Definition corrupt_store : Store :=
  {| memories_file := Corrupt; _memories_cache := None |}.

Definition memory_content : Memory :=
  {| id := "m-2"; content := "Use Redis for the session cache";
     enhanced_content := None; memory_type := "decision"; context := [];
     tags := ["cache"]; created_at := "2024-01-02T00:00:00+00:00" |}.

Definition memory_other : Memory :=
  {| id := "m-3"; content := "Switch the linter"; enhanced_content := None;
     memory_type := "note"; context := [("branch", VStr "main")];
     tags := ["tooling"]; created_at := "2024-01-03T00:00:00+00:00" |}.

Definition store_of (memories : list Memory) : Store :=
  {| memories_file := Holds memories; _memories_cache := None |}.

End Sample.

(** ** [git_context.py]: related files and file churn *)

Module GitRest.
Import Py Eff Git.

(** An entry met by [tree.traverse()] in [find_related_files]: its [type],
    its [path], and the text [data_stream.read().decode('utf-8',
    errors='ignore')] ([None] when reading raises). *)
Record TreeEntry := {
  entry_type : string;
  entry_path : string;
  entry_data : option string
}.

(** [PurePath.stem]: the name without its suffix *)
Definition stem (path : string) : string :=
  let name := path_name path in
  take_chars (String.length name - String.length (suffix path)) name.

(** One round of the loop of [find_related_files] *)
Definition related_step (file_stem : string) (limit : Z)
    (related : list (string * string)) (item : TreeEntry)
  : list (string * string) :=
  if negb (String.eqb (entry_type item) "blob")
     || (limit <=? Z.of_nat (length related))
  then related
  else
    match entry_data item with
    | Some content =>
        if contains file_stem content then
          if contains ("import " +:+ file_stem) content
             || contains ("from " +:+ file_stem) content
          then (related ++ [(entry_path item, "imports")])%list
          else if contains file_stem content
               then (related ++ [(entry_path item, "references")])%list
               else related
        else related
    | None => related
    end.

(** [find_related_files]; [tree] is the traversal of the tree of the head
    commit, [None] when it raises before its first entry (a traversal that
    raises later behaves as the traversal of the entries it gave, since the
    handler returns what was collected). *)
Definition find_related_files (tree : option (list TreeEntry))
    (filepath : string) (limit : Z) : list (string * string) :=
  match tree with
  | Some items =>
      let file_stem := stem filepath in
      foldl (related_step file_stem limit) [] items
  | None => []
  end.

(** The loop of [_calculate_file_churn] with the mapping [file_changes]
    built so far; a commit whose statistics raise is skipped. *)
Fixpoint churn_loop (commits : list Commit) (file_changes : list (string * nat))
  : M (list (string * nat)) :=
  match commits with
  | [] => mret file_changes
  | commit :: rest =>
      file_changes ←
        try_except
          (st ← stats commit;
           mret (foldl dict_incr file_changes (stats_files st)))
          (mret file_changes);
      churn_loop rest file_changes
  end.

Definition _calculate_file_churn (commits : list Commit)
  : M (list (string * nat)) :=
  file_changes ← churn_loop commits [];
  let sorted_files := sort_desc snd file_changes in
  mret (take 10 sorted_files).

End GitRest.

(** ** [storage.py]: storing memories, queries and explanations *)

Module StorageRest.
Import Py Eff Storage.

(** What an attempt to write [memories.json] gives: the file written, or an
    error that leaves the file in some state. *)
Inductive write_outcome :=
| Written
| WriteFailed (remains : file_state).

(** [_save_memories] *)
Definition _save_memories (outcome : write_outcome) (memories : list Memory)
  : M Store unit := fun st =>
  match outcome with
  | Written =>
      (inr tt, {| memories_file := Holds memories;
                  _memories_cache := Some memories |})
  | WriteFailed remains =>
      (inl StorageError, {| memories_file := remains;
                            _memories_cache := _memories_cache st |})
  end.

(** [memories.append(memory)] on the list [_load_memories] returned: that
    list is the object the cache holds, so the cache sees the append. *)
Definition append_to_cached (memories : list Memory) (memory : Memory)
  : M Store (list Memory) := fun st =>
  (inr (memories ++ [memory])%list,
   {| memories_file := memories_file st;
      _memories_cache := Some (memories ++ [memory])%list |}).

Definition clear_memories_cache : M Store unit := fun st =>
  (inr tt, {| memories_file := memories_file st; _memories_cache := None |}).

(** [store_memory]; [memory_id] is the value of [uuid.uuid4()], [now] that
    of [datetime.now(timezone.utc).isoformat()], [outcome] what the write
    of the file gives. *)
Definition store_memory (memory_id now : string) (outcome : write_outcome)
    (content : string) (enhanced_content : option string)
    (context : option (list (string * value))) (memory_type : string)
    (tags : option (list string)) : M Store string :=
  let memory :=
    {| id := memory_id;
       content := content;
       enhanced_content := enhanced_content;
       memory_type := memory_type;
       context := default [] context;
       tags := default [] tags;
       created_at := now |} in
  memories ← _load_memories;
  memories ← append_to_cached memories memory;
  _ ← _save_memories outcome memories;
  _ ← clear_memories_cache;
  mret memory_id.

(** [get_memories_by_type] *)
Definition get_memories_by_type (memory_type' : string) : M Store (list value) :=
  memories ← _load_memories;
  mret (to_dict <$> filter (fun m => memory_type m = memory_type') memories).

(** [sorted(l, key=..., reverse=True)] for a key that is a string: strings
    compare by their characters, and the sort is stable. *)
Fixpoint insert_desc_str {A} (key : A -> string) (x : A) (l : list A) : list A :=
  match l with
  | [] => [x]
  | y :: l' =>
      if String.ltb (key x) (key y) then y :: insert_desc_str key x l'
      else x :: y :: l'
  end.

Fixpoint sorted_desc_str {A} (key : A -> string) (l : list A) : list A :=
  match l with
  | [] => []
  | x :: l' => insert_desc_str key x (sorted_desc_str key l')
  end.

(** [get_recent_memories] *)
Definition get_recent_memories (limit : Z) : M Store (list value) :=
  memories ← _load_memories;
  let sorted_memories := sorted_desc_str created_at memories in
  mret (to_dict <$> slice_to sorted_memories limit).

End StorageRest.

(** *** Queries *)

Module Queries.
Import Py Eff.

Record QueryRecord := {
  id : string;
  question : string;
  response : string;
  context : list (string * Storage.value);
  created_at : string
}.

(** The file [queries.json] *)
Inductive file_state :=
| Missing
| Corrupt
| Holds (queries : list QueryRecord).

Record Store := {
  queries_file : file_state;
  _queries_cache : option (list QueryRecord)
}.

Inductive write_outcome :=
| Written
| WriteFailed (remains : file_state).

Definition get_store : M Store Store := fun st => (inr st, st).

Definition set_queries_cache (l : option (list QueryRecord)) : M Store unit :=
  fun st => (inr tt, {| queries_file := queries_file st; _queries_cache := l |}).

Definition _load_queries : M Store (list QueryRecord) :=
  st ← get_store;
  match _queries_cache st with
  | Some queries => mret queries
  | None =>
      match queries_file st with
      | Missing => _ ← set_queries_cache (Some []); mret []
      | Holds queries => _ ← set_queries_cache (Some queries); mret queries
      | Corrupt => raise StorageError
      end
  end.

Definition _save_queries (outcome : write_outcome) (queries : list QueryRecord)
  : M Store unit := fun st =>
  match outcome with
  | Written =>
      (inr tt, {| queries_file := Holds queries; _queries_cache := Some queries |})
  | WriteFailed remains =>
      (inl StorageError, {| queries_file := remains;
                            _queries_cache := _queries_cache st |})
  end.

(** [queries[-n:]] for [n > 0] *)
Definition last_n {A} (n : nat) (l : list A) : list A := drop (length l - n) l.

(** [store_query]; the appended list is the object the cache holds. *)
Definition store_query (query_id now : string) (outcome : write_outcome)
    (question response : string) (context : list (string * Storage.value))
  : M Store string :=
  let query_record :=
    {| id := query_id; question := question; response := response;
       context := context; created_at := now |} in
  queries ← _load_queries;
  _ ← set_queries_cache (Some (queries ++ [query_record])%list);
  let queries := (queries ++ [query_record])%list in
  let queries :=
    if (1000 <? length queries)%nat then last_n 1000 queries else queries in
  _ ← _save_queries outcome queries;
  _ ← set_queries_cache None;
  mret query_id.

End Queries.

(** *** Explanations *)

Module Explanations.
Import Py Eff.

(** The value stored for a path *)
Record Explanation := {
  explanation : string;
  context : list (string * Storage.value);
  created_at : string
}.

(** The file [explanations.json], a mapping from paths *)
Inductive file_state :=
| Missing
| Corrupt
| Holds (explanations : gmap string Explanation).

Inductive write_outcome :=
| Written
| WriteFailed (remains : file_state).

(** The state is the file alone: explanations are not cached. *)
Definition _load_explanations : M file_state (gmap string Explanation) :=
  fun file =>
  match file with
  | Missing => (inr ∅, file)
  | Holds explanations => (inr explanations, file)
  | Corrupt => (inl StorageError, file)
  end.

Definition _save_explanations (outcome : write_outcome)
    (explanations : gmap string Explanation) : M file_state unit := fun file =>
  match outcome with
  | Written => (inr tt, Holds explanations)
  | WriteFailed remains => (inl StorageError, remains)
  end.

Definition store_explanation (now : string) (outcome : write_outcome)
    (filepath explanation' : string) (context' : list (string * Storage.value))
  : M file_state unit :=
  explanations ← _load_explanations;
  let explanations :=
    <[filepath := {| explanation := explanation'; context := context';
                     created_at := now |}]> explanations in
  _save_explanations outcome explanations.

Definition get_explanation (filepath : string)
  : M file_state (option Explanation) :=
  explanations ← _load_explanations;
  mret (explanations !! filepath).

End Explanations.

(** ** Vocabulary of the further statements about the engine *)

Module GitFacts.
Import Py Eff Git GitRest.

(** What the loop of [search_commits] may hold: positively scored records
    of commits of [log]. *)
Definition from_log (query : string) (log : list Commit)
    (acc : list (nat * CommitInfo)) : Prop :=
  Forall (fun sc => exists c, c ∈ log /\ hash sc.2 = hexsha c
                              /\ sc.1 = score_of query c /\ (0 < sc.1)%nat) acc.

(** The score the loop of [search_commits] computes, for any lower-cased
    query and any set of query words *)
Definition loop_score (query_lower : string) (query_words : gset string)
    (msg : string) (files : list string) : nat :=
  let score := 0%nat in
  let commit_text := lower (msg +:+ " " +:+ join " " files) in
  let commit_words := word_set commit_text in
  let score :=
    if contains query_lower commit_text then (score + 10)%nat else score in
  let word_matches := size (query_words ∩ commit_words) in
  let score := (score + word_matches * 2)%nat in
  foldl (fun score filepath =>
           if existsb (fun word => contains word (lower filepath))
                (elements query_words)
           then (score + 1)%nat else score)
        score files.

(** The language [_analyze_languages] files a path under: a label of the
    table, or "Other". *)
Definition language_of (filepath : string) : string :=
  dict_get language_map (lower (suffix filepath)) "Other".

(** How often [k] occurs in [l] *)
Definition occurrences (k : string) (l : list string) : nat :=
  length (filter (fun x => x = k) l).






(** The file cache only grows. *)
Definition file_cache_grows (s s' : Engine) : Prop :=
  _file_cache s ⊆ _file_cache s'.

(** What [find_related_files] makes of one entry of the tree: nothing for
    an entry that is no blob, cannot be read or does not contain the stem,
    and otherwise the path with the kind of the relation. *)
Definition relation_of (file_stem : string) (item : TreeEntry)
  : option (string * string) :=
  if String.eqb (entry_type item) "blob" then
    match entry_data item with
    | Some content =>
        if contains file_stem content then
          Some (entry_path item,
                if contains ("import " +:+ file_stem) content
                   || contains ("from " +:+ file_stem) content
                then "imports" else "references")
        else None
    | None => None
    end
  else None.

(** The paths changed by the commits whose statistics can be computed, one
    entry for each change *)
Definition changed_paths (commits : list Commit) : list string :=
  commits ≫= (fun commit => stats_files (stats_or_fallback commit)).

End GitFacts.

(** ** Further sample data *)

Module SampleMore.
Import Git GitRest.

Definition tree : list TreeItem :=
  [ {| item_type := "tree"; item_path := "src" |};
    {| item_type := "blob"; item_path := "src/app.py" |};
    {| item_type := "blob"; item_path := "src/util.py" |};
    {| item_type := "blob"; item_path := "web/index.JS" |};
    {| item_type := "blob"; item_path := "web/site.js" |};
    {| item_type := "blob"; item_path := "Makefile" |} ].

(** The same kind of tree with the text of its blobs; one blob cannot be
    read. *)
Definition entries : list TreeEntry :=
  [ {| entry_type := "tree"; entry_path := "src"; entry_data := None |};
    {| entry_type := "blob"; entry_path := "src/app.py";
       entry_data := Some "from timeout import LIMIT" |};
    {| entry_type := "blob"; entry_path := "logo.bin"; entry_data := None |};
    {| entry_type := "blob"; entry_path := "README.md";
       entry_data := Some "The timeout is set in src/timeout.py" |};
    {| entry_type := "blob"; entry_path := "Makefile";
       entry_data := Some "all: build" |} ].

(** The repository [Sample.repo_of log] with a tree and files on disk *)
Definition repo_with (log : list Commit) (items : option (list TreeItem))
    (files : string -> option DiskFile) : Repo :=
  {| repo_path := repo_path (Sample.repo_of log);
     iter_commits := iter_commits (Sample.repo_of log);
     iter_commits_paths := iter_commits_paths (Sample.repo_of log);
     branches := branches (Sample.repo_of log);
     active_branch := active_branch (Sample.repo_of log);
     head_commit := head_commit (Sample.repo_of log);
     head_tree := items;
     index_diff_worktree := index_diff_worktree (Sample.repo_of log);
     index_diff_head := index_diff_head (Sample.repo_of log);
     as_posix := as_posix (Sample.repo_of log);
     full_path := full_path (Sample.repo_of log);
     disk := files |}.

(** A working tree with one text file and one binary file *)
Definition files (path : string) : option DiskFile :=
  if String.eqb path "/srv/project/src/timeout.py"
  then Some {| st_size := 57;
               readlines := Some ["import time"; ""; "LIMIT = 30"] |}
  else if String.eqb path "/srv/project/logo.bin"
  then Some {| st_size := 2048; readlines := Some ["binary"] |}
  else None.

Definition old_query : Queries.QueryRecord :=
  {| Queries.id := "q-0"; Queries.question := "what changed?";
     Queries.response := "the timeout"; Queries.context := [];
     Queries.created_at := "2024-01-01T00:00:00+00:00" |}.

Definition log3 : list Commit :=
  [Sample.commit_A; Sample.commit_B; Sample.commit_C].

End SampleMore.

(** * Properties *)

Import Py Eff Git.

Local Open Scope list_scope.

(** ** The stable descending sort *)

Section SortFacts.
Context {A : Type} (key : A -> nat).

Lemma insert_desc_perm (x : A) (l : list A) : insert_desc key x l ≡ₚ x :: l.
Proof.
  induction l as [|y l IH]; simpl; [done|].
  destruct (key x <? key y)%nat; [|done].
  rewrite IH. apply Permutation_swap.
Qed.

Lemma sort_desc_perm (l : list A) : sort_desc key l ≡ₚ l.
Proof.
  induction l as [|x l IH]; simpl; [done|].
  by rewrite insert_desc_perm, IH.
Qed.

Lemma sort_desc_length (l : list A) : length (sort_desc key l) = length l.
Proof. by rewrite sort_desc_perm. Qed.

Lemma elem_of_sort_desc (x : A) (l : list A) : x ∈ sort_desc key l ↔ x ∈ l.
Proof. by rewrite sort_desc_perm. Qed.

Lemma insert_desc_descending (x : A) (l : list A) :
  descending key l -> descending key (insert_desc key x l).
Proof.
  unfold descending. induction 1 as [|y l Hl IH Hy]; simpl.
  - repeat constructor.
  - destruct (key x <? key y)%nat eqn:E.
    + apply Nat.ltb_lt in E. constructor; [done|].
      rewrite insert_desc_perm. constructor; [lia|done].
    + apply Nat.ltb_ge in E. constructor; [by constructor|].
      constructor; [done|].
      eapply Forall_impl; [exact Hy|]. simpl. intros; lia.
Qed.

Lemma sort_desc_descending (l : list A) : descending key (sort_desc key l).
Proof.
  induction l; simpl; [constructor|]. by apply insert_desc_descending.
Qed.

(** Stability: the elements of any one key keep their relative order. *)
Lemma insert_desc_stable (k : nat) (x : A) (l : list A) :
  descending key l ->
  filter (fun a => key a = k) (insert_desc key x l)
  = filter (fun a => key a = k) (x :: l).
Proof.
  unfold descending. induction 1 as [|y l Hl IH Hy]; simpl; [done|].
  destruct (key x <? key y)%nat eqn:E; [|done].
  apply Nat.ltb_lt in E.
  rewrite !filter_cons in *.
  destruct (decide (key y = k)), (decide (key x = k)); try lia;
    rewrite IH; done.
Qed.

Lemma sort_desc_stable (k : nat) (l : list A) :
  filter (fun a => key a = k) (sort_desc key l) = filter (fun a => key a = k) l.
Proof.
  induction l as [|x l IH]; simpl; [done|].
  rewrite insert_desc_stable by apply sort_desc_descending.
  by rewrite !filter_cons, IH.
Qed.

(** Sorting a list that is already descending changes nothing. *)
Lemma sort_desc_id (l : list A) : descending key l -> sort_desc key l = l.
Proof.
  unfold descending. induction 1 as [|x l Hl IH Hx]; simpl; [done|].
  rewrite IH. destruct l as [|y l]; simpl; [done|].
  apply Forall_cons in Hx as [Hy _].
  destruct (key x <? key y)%nat eqn:E; [|done].
  apply Nat.ltb_lt in E. lia.
Qed.

End SortFacts.

(** ** Exceptions *)

#[local] Instance exn_eq_dec : EqDecision exn.
Proof. solve_decision. Defined.

Lemma exn_eqb_eq (e cls : exn) : exn_eqb e cls = true <-> e = cls.
Proof. destruct e, cls; simpl; split; (done || discriminate). Qed.

(** ** Computations that move the state along a preorder *)

Section Steps.
Context {St : Type} (R : relation St) `{!PreOrder R}.

Lemma steps_ret {A} (x : A) : steps R (mret x).
Proof. intros s. simpl. reflexivity. Qed.

Lemma steps_raise {A} (e : exn) : steps R (raise e : Eff.M St A).
Proof. intros s. simpl. reflexivity. Qed.

Lemma steps_bind {A B} (m : Eff.M St A) (k : A -> Eff.M St B) :
  steps R m -> (forall x, steps R (k x)) -> steps R (m ≫= k).
Proof.
  intros Hm Hk s. unfold mbind, M_bind.
  specialize (Hm s). destruct (m s) as [[e|x] s']; simpl in *; [done|].
  etransitivity; [exact Hm|apply Hk].
Qed.

Lemma steps_try_except {A} (body handler : Eff.M St A) :
  steps R body -> steps R handler -> steps R (try_except body handler).
Proof.
  intros Hb Hh s. unfold try_except.
  specialize (Hb s). destruct (body s) as [[e|x] s']; simpl in *; [|done].
  etransitivity; [exact Hb|apply Hh].
Qed.

Lemma steps_call {A} (r : exn + A) : steps R (call r : Eff.M St A).
Proof. intros s. simpl. reflexivity. Qed.

Lemma steps_try_except_on {A} (cls : exn) (body handler : Eff.M St A) :
  steps R body -> steps R handler -> steps R (try_except_on cls body handler).
Proof.
  intros Hb Hh s. unfold try_except_on.
  specialize (Hb s). destruct (body s) as [[e|x] s']; simpl in *; [|done].
  destruct (exn_eqb e cls); simpl; [|done].
  etransitivity; [exact Hb|apply Hh].
Qed.

Lemma steps_for_each {A B} (f : A -> Eff.M St B) (l : list A) :
  (forall x, steps R (f x)) -> steps R (for_each f l).
Proof.
  intros Hf. induction l as [|x l IH]; simpl.
  - apply steps_ret.
  - apply steps_bind; [apply Hf|]. intros y.
    apply steps_bind; [apply IH|]. intros ys. apply steps_ret.
Qed.

End Steps.

(** ** [_commit_to_info] *)

Lemma commit_to_info_hit (commit : Commit) (s : Engine) (info : CommitInfo) :
  _commit_cache s !! hexsha commit = Some info ->
  _commit_to_info commit s = (inr info, s).
Proof.
  intros H. unfold _commit_to_info, mbind, M_bind, get_commit_cache. simpl.
  by rewrite H.
Qed.

Lemma commit_to_info_miss (commit : Commit) (s : Engine) :
  _commit_cache s !! hexsha commit = None ->
  _commit_to_info commit s
  = (inr (commit_record commit),
     {| _commit_cache := <[hexsha commit := commit_record commit]> (_commit_cache s);
        _file_cache := _file_cache s;
        stats_reads := match c_stats commit with Some _ => 3 | None => 1 end
                       + stats_reads s |}).
Proof.
  intros H. unfold _commit_to_info, mbind, M_bind, get_commit_cache. simpl.
  rewrite H. unfold try_except, stats, commit_record, stats_or_fallback.
  destruct (c_stats commit); reflexivity.
Qed.

(** [_commit_to_info] always returns, and what it returns is afterwards the
    cache entry of the commit. *)
Lemma commit_to_info_returns (commit : Commit) (s : Engine) :
  exists info s',
    _commit_to_info commit s = (inr info, s')
    /\ _commit_cache s' !! hexsha commit = Some info.
Proof.
  destruct (_commit_cache s !! hexsha commit) as [info|] eqn:E.
  - exists info, s. split; [by apply commit_to_info_hit|done].
  - eexists _, _. split; [by apply commit_to_info_miss|].
    simpl. apply lookup_insert_eq.
Qed.

#[local] Instance cache_grows_preorder : PreOrder cache_grows.
Proof.
  split.
  - intros s. split; [done|tauto].
  - intros s1 s2 s3 [H1 K1] [H2 K2]. split; [by etransitivity|tauto].
Qed.

#[local] Instance quiet_preorder : PreOrder quiet.
Proof.
  split.
  - intros s. split; [reflexivity|done].
  - intros s1 s2 s3 [H1 K1] [H2 K2]. split; [by etransitivity|congruence].
Qed.

Lemma steps_weaken {St A} (R R' : relation St) (m : Eff.M St A) :
  (forall s s', R s s' -> R' s s') -> steps R m -> steps R' m.
Proof. intros HR Hm s. apply HR, Hm. Qed.

Lemma commit_to_info_quiet (commit : Commit) : steps quiet (_commit_to_info commit).
Proof.
  intros s. destruct (_commit_cache s !! hexsha commit) as [info|] eqn:E.
  - rewrite (commit_to_info_hit _ _ _ E). reflexivity.
  - rewrite (commit_to_info_miss _ _ E). simpl. split; [split|done]; simpl.
    + by apply insert_subseteq.
    + unfold cache_keyed. simpl. intros K.
      apply map_Forall_insert_2; [done|exact K].
Qed.

Lemma stats_quiet (commit : Commit) : steps quiet (stats commit).
Proof.
  intros s. unfold stats. destruct (c_stats commit); simpl; (split; [split|]); done.
Qed.

Lemma for_each_commit_to_info_quiet (l : list Commit) :
  steps quiet (for_each _commit_to_info l).
Proof. apply steps_for_each; [apply _|apply commit_to_info_quiet]. Qed.

Lemma search_loop_quiet ql qw m (log : list Commit) acc :
  steps quiet (search_loop ql qw m log acc).
Proof.
  revert acc. induction log as [|c log IH]; intros acc; simpl.
  - apply steps_ret; apply _.
  - destruct (m <=? _); [apply steps_ret; apply _|].
    apply steps_bind; [apply _|apply stats_quiet|]. intros st.
    apply steps_bind; [apply _|apply stats_quiet|]. intros st'.
    destruct (0 <? _)%nat; [|apply IH].
    apply steps_bind; [apply _|apply commit_to_info_quiet|]. intros info.
    apply IH.
Qed.

Lemma search_commits_quiet repo query m : steps quiet (search_commits repo query m).
Proof.
  unfold search_commits.
  apply steps_bind; [apply _|apply steps_call; apply _|]. intros commits.
  apply steps_bind; [apply _|apply search_loop_quiet|].
  intros acc. apply steps_ret; apply _.
Qed.

Lemma current_branch_quiet repo : steps quiet (current_branch_or_unknown repo).
Proof.
  unfold current_branch_or_unknown.
  apply steps_bind; [apply _|apply steps_call; apply _|]. intros head.
  destruct (head_truthy head); [|apply steps_ret; apply _].
  apply steps_bind; [apply _|apply steps_call; apply _|]. intros head'.
  apply steps_ret; apply _.
Qed.

Lemma census_quiet repo :
  steps quiet
    (try_except
       (items ← traverse_head_tree repo;
        tracked_files ←
          for_each a_path (filter (fun item => item_type item = "blob") items);
        mret (length tracked_files, _analyze_languages tracked_files,
              fst <$> max_key (_analyze_languages tracked_files)))
       (mret (0%nat, [], None))).
Proof.
  apply steps_try_except; [apply _| |apply steps_ret; apply _].
  apply steps_bind; [apply _| |intros items].
  { unfold traverse_head_tree.
    destruct (head_tree repo); [apply steps_ret|apply steps_raise]; apply _. }
  apply steps_bind; [apply _| |intros files; apply steps_ret; apply _].
  apply steps_for_each; [apply _|]. intros item. apply steps_raise; apply _.
Qed.

Lemma get_repo_stats_quiet repo : steps quiet (get_repo_stats repo).
Proof.
  unfold get_repo_stats.
  apply steps_bind; [apply _|apply steps_call; apply _|]. intros [|c log].
  - apply steps_bind; [apply _|apply current_branch_quiet|]. intros branch.
    apply steps_ret; apply _.
  - apply steps_bind; [apply _|apply census_quiet|]. intros [[fc ls] pl].
    apply steps_bind; [apply _|apply for_each_commit_to_info_quiet|].
    intros infos.
    apply steps_bind; [apply _|apply current_branch_quiet|]. intros branch.
    apply steps_ret; apply _.
Qed.

Lemma get_recent_commits_quiet repo count :
  steps quiet (get_recent_commits repo count).
Proof.
  unfold get_recent_commits.
  apply steps_bind; [apply _|apply steps_call; apply _|]. intros commits.
  apply for_each_commit_to_info_quiet.
Qed.

Lemma get_current_context_quiet repo : steps quiet (get_current_context repo).
Proof.
  unfold get_current_context.
  apply steps_bind; [apply _| |intros branch].
  { apply steps_try_except; [apply _| |apply steps_ret; apply _].
    apply steps_bind; [apply _|apply steps_call; apply _|]. intros head.
    apply steps_ret; apply _. }
  apply steps_bind; [apply _| |intros info].
  { apply steps_try_except; [apply _| |apply steps_ret; apply _].
    destruct (head_commit repo) as [c|]; [|apply steps_raise; apply _].
    apply steps_bind; [apply _|apply commit_to_info_quiet|].
    intros i. apply steps_ret; apply _. }
  destruct (match index_diff_worktree repo with Some _ => _ | None => _ end).
  apply steps_ret; apply _.
Qed.

Lemma quiet_grows s s' : quiet s s' -> cache_grows s s'.
Proof. by intros [H _]. Qed.

Lemma get_file_history_grows repo path :
  steps cache_grows (get_file_history repo path).
Proof.
  unfold get_file_history.
  apply steps_bind; [apply _|intros s; reflexivity|]. intros fc.
  destruct (fc !! path); [apply steps_ret; apply _|].
  apply steps_bind; [apply _| |intros commits].
  { apply steps_try_except_on; [apply _| |apply steps_ret; apply _].
    apply steps_call; apply _. }
  apply steps_bind; [apply _| |intros h].
  { destruct commits as [|c log]; [apply steps_ret; apply _|].
    apply steps_bind; [apply _| |intros infos; apply steps_ret; apply _].
    eapply steps_weaken; [apply quiet_grows|apply for_each_commit_to_info_quiet]. }
  apply steps_bind; [apply _| |intros u; apply steps_ret; apply _].
  intros s. split; done.
Qed.

(** Every method grows the commit cache. *)
Lemma run_grows repo (o : op) (s : Engine) : cache_grows s (run repo o s).2.
Proof.
  destruct o; simpl.
  - apply quiet_grows, get_repo_stats_quiet.
  - apply quiet_grows, search_commits_quiet.
  - apply get_file_history_grows.
  - apply quiet_grows, get_recent_commits_quiet.
  - apply quiet_grows, get_current_context_quiet.
  - apply quiet_grows, commit_to_info_quiet.
Qed.

Lemma run_all_grows repo (os : list op) (s : Engine) :
  cache_grows s (run_all repo os s).
Proof.
  revert s. induction os as [|o os IH]; intros s; simpl; [reflexivity|].
  etransitivity; [apply run_grows|apply IH].
Qed.



(** C10: every method of the engine preserves the invariant that each key
    of the commit cache maps to a record whose [hash] is the key and whose
    [short_hash] is the first 8 characters of the key, and it leaves every
    entry that is already in the cache as it is. *)
Theorem commit_cache_invariant (repo : Repo) (o : op) (s : Engine) :
  cache_keyed s ->
  cache_keyed (run repo o s).2
  /\ (forall k info, _commit_cache s !! k = Some info ->
        hash info = k /\ short_hash info = take_chars 8 k
        /\ _commit_cache (run repo o s).2 !! k = Some info).
Proof.
  intros K. destruct (run_grows repo o s) as [Hsub HK].
  split; [by apply HK|]. intros k info Hk.
  destruct (K k info Hk) as [-> ->].
  repeat split. by eapply lookup_weaken.
Qed.

Lemma commit_cache_invariant_witness :
  let repo := Sample.repo_of [Sample.commit_A; Sample.commit_B] in
  let s := (run repo (SearchCommits "redis" 5) init).2 in
  cache_keyed (run repo (GetFileHistory "src/timeout.py") s).2
  /\ (forall k info, _commit_cache s !! k = Some info ->
        hash info = k /\ short_hash info = take_chars 8 k
        /\ _commit_cache (run repo (GetFileHistory "src/timeout.py") s).2 !! k
           = Some info).
Proof.
  apply (commit_cache_invariant
           (Sample.repo_of [Sample.commit_A; Sample.commit_B])
           (GetFileHistory "src/timeout.py")).
  apply (bool_decide_unpack _). vm_compute. reflexivity.
Defined.

(** C8: converting a commit returns a record, converting the same commit
    again returns the same record and leaves the engine as it is, the
    counter of statistics reads included; this stays so after any further
    method calls on the engine. *)
Theorem commit_to_info_idempotent (repo : Repo) (commit : Commit) (s : Engine)
    (os : list op) :
  exists info s1,
    _commit_to_info commit s = (inr info, s1)
    /\ _commit_to_info commit s1 = (inr info, s1)
    /\ _commit_to_info commit (run_all repo os s1)
       = (inr info, run_all repo os s1).
Proof.
  destruct (commit_to_info_returns commit s) as (info & s1 & Hrun & Hin).
  exists info, s1. split; [done|]. split.
  - by apply commit_to_info_hit.
  - apply commit_to_info_hit.
    eapply lookup_weaken; [exact Hin|]. apply run_all_grows.
Qed.

(** C5: a repository without commits is one whose enumeration of the log
    raises; [get_repo_stats] enumerates the log before its test
    [if not commits] and outside any handler, so it raises the same
    exception and returns no statistics, leaving the engine as it is. *)
Theorem get_repo_stats_no_commits (repo : Repo) (e : exn) (s : Engine) :
  iter_commits repo = inl e ->
  get_repo_stats repo s = (inl e, s).
Proof.
  intros H. unfold get_repo_stats, mbind, M_bind, call. by rewrite H.
Qed.

Lemma get_repo_stats_no_commits_witness :
  get_repo_stats Sample.unborn_repo init = (inl ValueError, init).
Proof.
  apply (get_repo_stats_no_commits Sample.unborn_repo ValueError init).
  reflexivity.
Defined.

(** ** [get_file_history] *)

Lemma for_each_commit_to_info_returns (l : list Commit) (s : Engine) :
  exists infos s',
    for_each _commit_to_info l s = (inr infos, s') /\ length infos = length l.
Proof.
  revert s. induction l as [|c l IH]; intros s; simpl.
  - by exists [], s.
  - unfold mbind, M_bind.
    destruct (commit_to_info_returns c s) as (info & s1 & -> & _).
    destruct (IH s1) as (infos & s2 & -> & Hlen).
    exists (info :: infos), s2. simpl. by rewrite Hlen.
Qed.

Lemma get_file_history_hit repo path (s : Engine) (h : FileHistory) :
  _file_cache s !! path = Some h -> get_file_history repo path s = (inr h, s).
Proof.
  intros H. unfold get_file_history, mbind, M_bind, get_file_cache. simpl.
  by rewrite H.
Qed.

Lemma path_query_handled_log repo path :
  path_query_handled repo path ->
  try_except_on GitCommandError
    (call (iter_commits_paths repo (as_posix repo path))) (mret [])
  = (mret (path_log repo path) : M (list Commit)).
Proof.
  unfold path_query_handled, path_log, try_except_on, call. intros H.
  destruct (iter_commits_paths repo (as_posix repo path)) as [e|log]; [|done].
  by rewrite H.
Qed.

(** On a path it has not cached, and whose log query returns or raises the
    handled exception, [get_file_history] returns a history read off the
    log of the path and caches it. *)
Lemma get_file_history_miss repo path (s : Engine) :
  _file_cache s !! path = None ->
  path_query_handled repo path ->
  exists h s',
    get_file_history repo path s = (inr h, s')
    /\ history_ok repo path h
    /\ (path_log repo path = [] -> h = empty_history repo path)
    /\ _file_cache s' = <[path := h]> (_file_cache s).
Proof.
  intros H Hq. unfold get_file_history.
  rewrite (path_query_handled_log _ _ Hq).
  unfold mbind, M_bind, get_file_cache. simpl.
  rewrite H. simpl. unfold history_ok.
  destruct (path_log repo path) as [|c log] eqn:E.
  - simpl. eexists _, _. split; [reflexivity|]. simpl.
    repeat split; try done.
  - destruct (for_each_commit_to_info_returns (take 10 (c :: log)) s)
      as (infos & s1 & Hrun & Hlen).
    pose proof (for_each_commit_to_info_quiet (take 10 (c :: log)) s) as [_ Hfc].
    rewrite Hrun in *. simpl in Hfc.
    eexists _, _. split; [reflexivity|]. simpl.
    repeat split; try done.
    + f_equal. destruct (last_is_Some (c :: log)) as [_ [x Hx]]; [done|].
      by rewrite Hx.
    + by rewrite Hfc.
Qed.

(** On a path it has not cached, and whose log query raises another
    exception, [get_file_history] raises that exception and caches
    nothing. *)
Lemma get_file_history_raises repo path (s : Engine) (e : exn) :
  _file_cache s !! path = None ->
  iter_commits_paths repo (as_posix repo path) = inl e ->
  e <> GitCommandError ->
  get_file_history repo path s = (inl e, s).
Proof.
  intros H He Hne. unfold get_file_history, mbind, M_bind, get_file_cache. simpl.
  rewrite H. unfold try_except_on, call. rewrite He.
  by destruct e.
Qed.

(** The three ways a call of [get_file_history] can go *)
Lemma get_file_history_cases repo path (s : Engine) :
  (exists h, _file_cache s !! path = Some h
             /\ get_file_history repo path s = (inr h, s))
  \/ (_file_cache s !! path = None /\ path_query_handled repo path
      /\ exists h s',
           get_file_history repo path s = (inr h, s')
           /\ history_ok repo path h
           /\ (path_log repo path = [] -> h = empty_history repo path)
           /\ _file_cache s' = <[path := h]> (_file_cache s))
  \/ (_file_cache s !! path = None /\ ~ path_query_handled repo path
      /\ exists e, iter_commits_paths repo (as_posix repo path) = inl e
                   /\ get_file_history repo path s = (inl e, s)).
Proof.
  destruct (_file_cache s !! path) as [h|] eqn:E.
  - left. exists h. split; [done|]. by apply get_file_history_hit.
  - right.
    destruct (iter_commits_paths repo (as_posix repo path)) as [e|log] eqn:Eq.
    + destruct (decide (e = GitCommandError)) as [->|Hne].
      * left. split; [done|]. assert (path_query_handled repo path) as Hq.
        { unfold path_query_handled. by rewrite Eq. }
        split; [done|]. by apply get_file_history_miss.
      * right. split; [done|]. split.
        { unfold path_query_handled. by rewrite Eq. }
        exists e. split; [done|]. by apply get_file_history_raises.
    + left. split; [done|]. assert (path_query_handled repo path) as Hq.
      { unfold path_query_handled. by rewrite Eq. }
      split; [done|]. by apply get_file_history_miss.
Qed.

(** A history [get_file_history] returns on a sound file cache is read off
    the log of its path, and the file cache stays sound, whatever the
    outcome of the call. *)
Lemma get_file_history_sound repo path (s : Engine) :
  file_cache_sound repo s ->
  file_cache_sound repo (get_file_history repo path s).2
  /\ (forall h s', get_file_history repo path s = (inr h, s') ->
        history_ok repo path h)
  /\ (path_query_handled repo path ->
      exists h s', get_file_history repo path s = (inr h, s')).
Proof.
  intros Hs.
  destruct (get_file_history_cases repo path s)
    as [(h & E & Hrun)|[(E & Hq & h & s' & Hrun & Hok & _ & Hfc)
                       |(E & Hq & e & He & Hrun)]]; rewrite Hrun.
  - split; [done|]. split; [|by eauto].
    intros h' s' [= <- <-]. by apply (Hs path).
  - split; [|split; [|by eauto]].
    + unfold file_cache_sound. simpl. rewrite Hfc. by apply map_Forall_insert_2.
    + by intros h' s'' [= <- <-].
  - split; [done|]. split; [done|]. intros Hq'. by destruct Hq.
Qed.

Lemma run_file_cache_sound repo (o : op) (s : Engine) :
  file_cache_sound repo s -> file_cache_sound repo (run repo o s).2.
Proof.
  intros Hs. unfold file_cache_sound.
  destruct o as [|query m|fp|count| |commit]; simpl;
    try (match goal with
         | |- context [ (?m s).2 ] =>
             let H := fresh in
             assert (quiet s (m s).2) as [_ H];
             [ first [ apply get_repo_stats_quiet | apply search_commits_quiet
                     | apply get_recent_commits_quiet
                     | apply get_current_context_quiet
                     | apply commit_to_info_quiet ]
             | by rewrite H ]
         end).
  by apply get_file_history_sound.
Qed.

Lemma reachable_file_cache_sound repo (s : Engine) :
  reachable repo s -> file_cache_sound repo s.
Proof.
  induction 1 as [|s o _ IH]; [apply map_Forall_empty|].
  by apply run_file_cache_sound.
Qed.

(** Along a log that is newest first, the last commit is no younger than
    the first. *)
Lemma newest_first_last_head (log : list Commit) (c m : Z) :
  newest_first log ->
  committed_date <$> last log = Some c ->
  committed_date <$> head log = Some m ->
  c <= m.
Proof.
  intros Hs Hc Hm. destruct log as [|x log]; [done|].
  simpl in Hm. injection Hm as <-.
  apply StronglySorted_inv in Hs as [_ Hx].
  destruct (last (x :: log)) as [y|] eqn:E; [|done].
  simpl in Hc. injection Hc as <-.
  apply last_Some_elem_of in E. apply elem_of_cons in E as [->|E]; [lia|].
  rewrite Forall_forall in Hx. by apply Hx.
Qed.

(** C7: on an engine reached by method calls on the repository, and for a
    path whose log is newest first, every history that [get_file_history]
    returns has a creation timestamp that is, when both are present, at
    most the last-modified timestamp; and the method does return a history
    whenever the log query of the path returns or raises the exception the
    method handles. *)
Theorem file_history_creation_before_modification repo path (s : Engine) :
  reachable repo s ->
  newest_first (path_log repo path) ->
  (forall h s', get_file_history repo path s = (inr h, s') ->
     forall c m, creation_date h = Some c -> last_modified h = Some m ->
       c <= m)
  /\ (path_query_handled repo path ->
      exists h s', get_file_history repo path s = (inr h, s')).
Proof.
  intros Hr Hn.
  destruct (get_file_history_sound repo path s (reachable_file_cache_sound _ _ Hr))
    as (_ & Hok & Hex).
  split; [|exact Hex]. intros h s' Hrun c m Hc Hm.
  destruct (Hok h s' Hrun) as (_ & _ & Hc' & Hm' & _).
  rewrite Hc' in Hc. rewrite Hm' in Hm.
  by eapply newest_first_last_head.
Qed.


Lemma file_history_creation_before_modification_witness :
  exists h s',
    get_file_history (Sample.repo_of [Sample.commit_A; Sample.commit_B; Sample.commit_C])
      "src/timeout.py" init = (inr h, s')
    /\ (forall c m, creation_date h = Some c -> last_modified h = Some m ->
          c <= m).
Proof.
  destruct (file_history_creation_before_modification
              (Sample.repo_of [Sample.commit_A; Sample.commit_B; Sample.commit_C])
              "src/timeout.py" init) as [Hle Hex].
  - apply reach_init.
  - unfold newest_first. vm_compute path_log.
    repeat constructor. simpl. lia.
  - destruct Hex as (h & s' & Hrun); [exact I|].
    exists h, s'. split; [exact Hrun|]. exact (Hle h s' Hrun).
Defined.


(** A log query that fails with the error of the git command is taken for
    a path without commits. *)
Lemma file_history_git_error_sample :
  let repo := Sample.failing_query_repo [Sample.commit_A; Sample.commit_B] in
  iter_commits_paths repo (as_posix repo "docs/none.md") = inl GitCommandError
  /\ (get_file_history repo "docs/none.md" init).1
     = inr (empty_history repo "docs/none.md").
Proof. split; reflexivity. Qed.


(** ** [search_commits] *)

(** [search_commits] first enumerates the log: it raises what the
    enumeration raises, and runs its loop on the log otherwise. *)
Lemma search_commits_enum_raises repo query m (s : Engine) (e : exn) :
  iter_commits repo = inl e -> search_commits repo query m s = (inl e, s).
Proof.
  intros H. unfold search_commits, mbind, M_bind, call. by rewrite H.
Qed.

Lemma search_commits_on_log repo query m (s : Engine) log :
  iter_commits repo = inr log ->
  search_commits repo query m s
  = (matching_commits ←
       search_loop (lower query) (word_set (lower query)) m log [];
     mret (snd <$> sort_desc fst matching_commits)) s.
Proof.
  intros H. unfold search_commits, call.
  unfold mbind at 1, M_bind at 1. by rewrite H.
Qed.

Lemma search_commits_zero repo query (s : Engine) log :
  iter_commits repo = inr log ->
  search_commits repo query 0 s = (inr [], s).
Proof.
  intros H. rewrite (search_commits_on_log _ _ _ _ _ H).
  unfold mbind, M_bind. by destruct log.
Qed.

(** The search raises when it meets a commit without statistics. *)
Lemma search_commits_nostats_raises :
  (search_commits (Sample.repo_of [Sample.commit_nostats]) "redis" 50 init).1
  = inl GitCommandError.
Proof. reflexivity. Qed.

(** The path component of the score counts the matching paths. *)
Lemma foldl_count {A} (P : A -> bool) (l : list A) (n : nat) :
  foldl (fun score x => if P x then (score + 1)%nat else score) n l
  = (n + length (filter (fun x => P x = true) l))%nat.
Proof.
  revert n. induction l as [|x l IH]; intros n; simpl; [lia|].
  rewrite filter_cons. destruct (P x) eqn:E.
  - rewrite IH. rewrite decide_True by done. simpl. lia.
  - rewrite IH. rewrite decide_False by done. done.
Qed.

(** One round of the loop on a commit whose statistics can be computed. *)
Lemma search_loop_cons query m (c : Commit) log acc (s : Engine) st :
  c_stats c = Some st ->
  (Z.of_nat (length acc) < m) ->
  search_loop (lower query) (word_set (lower query)) m (c :: log) acc s
  = let s2 := {| _commit_cache := _commit_cache s; _file_cache := _file_cache s;
                 stats_reads := S (S (stats_reads s)) |} in
    if (0 <? score_of query c)%nat then
      (_commit_to_info c ≫= fun info =>
         search_loop (lower query) (word_set (lower query)) m log
           (acc ++ [(score_of query c, info)])) s2
    else search_loop (lower query) (word_set (lower query)) m log acc s2.
Proof.
  intros Hst Hlt. simpl.
  destruct (m <=? Z.of_nat (length acc)) eqn:E; [apply Z.leb_le in E; lia|].
  unfold mbind at 1, M_bind at 1. unfold stats at 1. rewrite Hst.
  unfold mbind at 1, M_bind at 1. unfold stats at 1. rewrite Hst.
  cbv zeta.
  replace (score_of query c) with
    (foldl (fun score filepath =>
              if existsb (fun word => contains word (lower filepath))
                   (elements (word_set (lower query)))
              then (score + 1)%nat else score)
       ((if contains (lower query)
              (lower (c_message c +:+ " " +:+ join " " (stats_files st)))
         then (0 + 10)%nat else 0%nat)
        + size (word_set (lower query)
                ∩ word_set (lower (c_message c +:+ " " +:+ join " " (stats_files st))))
          * 2)%nat
       (stats_files st));
    [cbn [_commit_cache _file_cache stats_reads];
     by destruct (0 <? _)%nat|].
  rewrite foldl_count. unfold score_of, relevance, stats_or_fallback.
  rewrite Hst. simpl. done.
Qed.

Lemma candidates_cons query (c : Commit) log :
  candidates query (c :: log)
  = if (0 <? score_of query c)%nat then scored query c :: candidates query log
    else candidates query log.
Proof.
  unfold candidates. rewrite fmap_cons, filter_cons. simpl.
  destruct (0 <? score_of query c)%nat eqn:E.
  - apply Nat.ltb_lt in E. by rewrite decide_True.
  - apply Nat.ltb_ge in E. rewrite decide_False; [done|lia].
Qed.

(** The loop returns the candidates it has, followed by as many candidates
    of the remaining log as are missing to [max_results]. *)
Lemma search_loop_first_matches query m log acc (s : Engine) :
  Forall (fun c => is_Some (c_stats c)) log ->
  NoDup (hexsha <$> log) ->
  cache_agrees log s ->
  (search_loop (lower query) (word_set (lower query)) m log acc s).1
  = inr (acc ++ take (Z.to_nat m - length acc) (candidates query log)).
Proof.
  revert acc s. induction log as [|c log IH]; intros acc s Hst Hnd Hag.
  - unfold candidates. rewrite fmap_nil, filter_nil, take_nil, app_nil_r. done.
  - destruct (decide (Z.of_nat (length acc) < m)) as [Hlt|Hge].
    2:{ simpl. destruct (m <=? Z.of_nat (length acc)) eqn:E;
          [|apply Z.leb_gt in E; lia].
        simpl. replace (Z.to_nat m - length acc)%nat with 0%nat by lia.
        by rewrite take_0, app_nil_r. }
    apply Forall_cons in Hst as [[st Hc] Hst].
    rewrite fmap_cons in Hnd. apply NoDup_cons in Hnd as [Hnotin Hnd].
    rewrite (search_loop_cons _ _ _ _ _ _ _ Hc Hlt). cbv zeta.
    rewrite candidates_cons.
    assert (forall s', _commit_cache s' = _commit_cache s ->
                       cache_agrees (c :: log) s') as Hag'.
    { intros s' Hs' c' info. rewrite Hs'. apply Hag. }
    destruct (0 <? score_of query c)%nat.
    + set (s2 := Build_Engine _ _ _). unfold mbind, M_bind.
      assert (cache_agrees (c :: log) s2) as Hag2 by by apply Hag'.
      destruct (_commit_cache s2 !! hexsha c) as [info|] eqn:E.
      * rewrite (commit_to_info_hit _ _ _ E).
        rewrite (Hag2 c info) by (done || apply list_elem_of_here).
        rewrite IH; [|done|done|].
        -- rewrite length_app. simpl. f_equal. rewrite <- app_assoc. simpl.
           f_equal. replace (Z.to_nat m - length acc)%nat
             with (S (Z.to_nat m - (length acc + 1)))%nat by lia.
           done.
        -- intros c' i' Hin. apply Hag2. by apply list_elem_of_further.
      * rewrite (commit_to_info_miss _ _ E).
        rewrite IH; [|done|done|].
        -- rewrite length_app. simpl. f_equal. rewrite <- app_assoc. simpl.
           f_equal. replace (Z.to_nat m - length acc)%nat
             with (S (Z.to_nat m - (length acc + 1)))%nat by lia.
           done.
        -- intros c' i' Hin. simpl. rewrite lookup_insert_ne.
           ++ apply Hag2. by apply list_elem_of_further.
           ++ intros Heq. apply Hnotin. rewrite Heq.
              by apply list_elem_of_fmap_2.
    + apply IH; [done|done|].
      intros c' i' Hin. apply (Hag' _ eq_refl). by apply list_elem_of_further.
Qed.

(** The closed form of [search_commits] on a log it can score throughout *)
Lemma search_commits_closed_form repo query m (s : Engine) log :
  iter_commits repo = inr log ->
  Forall (fun c => is_Some (c_stats c)) log ->
  NoDup (hexsha <$> log) ->
  cache_agrees log s ->
  (search_commits repo query m s).1
  = inr (first_matches_search query m log).
Proof.
  intros Hlog Hst Hnd Hag. rewrite (search_commits_on_log _ _ _ _ _ Hlog).
  unfold mbind, M_bind.
  pose proof (search_loop_first_matches query m _ [] s Hst Hnd Hag) as H.
  destruct (search_loop _ _ _ _ _ _) as [[e|acc] s']; simpl in H; [done|].
  injection H as ->. simpl. by rewrite Nat.sub_0_r.
Qed.

(** C1, as the code has it: on a log (what the enumeration of the commits
    returns) whose statistics can all be computed and whose commits have
    distinct hashes, and with a commit cache that agrees with the log,
    [search_commits] returns the first [max_results] positively scored
    commits of the newest-first log, stable-sorted by score descending; the
    scan stops once [max_results] candidates are found. *)
Theorem search_commits_first_matches repo query m (s : Engine) log :
  iter_commits repo = inr log ->
  Forall (fun c => is_Some (c_stats c)) log ->
  NoDup (hexsha <$> log) ->
  cache_agrees log s ->
  (search_commits repo query m s).1
  = inr (snd <$> sort_desc fst (take (Z.to_nat m) (candidates query log))).
Proof.
  intros Hlog Hst Hnd Hag. rewrite (search_commits_on_log _ _ _ _ _ Hlog).
  unfold mbind, M_bind.
  pose proof (search_loop_first_matches query m _ [] s Hst Hnd Hag) as Hloop.
  destruct (search_loop _ _ _ _ _ _) as [[e|acc] s']; simpl in Hloop;
    [discriminate Hloop|].
  injection Hloop as ->. simpl. by rewrite Nat.sub_0_r.
Qed.

Lemma cache_agrees_init log : cache_agrees log init.
Proof. intros c info _ H. simpl in H. by rewrite lookup_empty in H. Qed.

Lemma search_commits_first_matches_witness :
  (search_commits (Sample.repo_of [Sample.commit_A; Sample.commit_B])
     "redis" 1 init).1
  = inr [commit_record Sample.commit_A].
Proof.
  apply (search_commits_first_matches
           (Sample.repo_of [Sample.commit_A; Sample.commit_B]) "redis" 1 init
           [Sample.commit_A; Sample.commit_B]).
  - reflexivity.
  - repeat constructor; by eexists.
  - apply (bool_decide_unpack _). vm_compute. reflexivity.
  - intros c info _ H. simpl in H. by rewrite lookup_empty in H.
Defined.

(** The log [commit_A; commit_B], newest first, searched for "redis" with a
    maximum of 1: the older commit B scores 13, more than the 12 of commit
    A, and a search of the whole log returns B; the loop stops after A and
    returns A. *)
Lemma search_commits_stops_early :
  let log := [Sample.commit_A; Sample.commit_B] in
  let repo := Sample.repo_of log in
  iter_commits repo = inr log
  /\ score_of "redis" Sample.commit_A = 12%nat
  /\ score_of "redis" Sample.commit_B = 13%nat
  /\ full_scan_search "redis" 1 log = [commit_record Sample.commit_B]
  /\ (search_commits repo "redis" 1 init).1
     = inr [commit_record Sample.commit_A]
  /\ (search_commits repo "redis" 1 init).1
     <> inr (full_scan_search "redis" 1 log).
Proof.
  vm_compute. repeat split; try reflexivity. intros H. discriminate H.
Qed.

(** ** Strings: lower-casing, containment and tokens under concatenation *)

Lemma lower_app (a b : string) : lower (a +:+ b) = lower a +:+ lower b.
Proof. induction a as [|c a IH]; simpl; [done|]. by rewrite IH. Qed.

Lemma startswith_app (w a b : string) :
  startswith w a = true -> startswith w (a +:+ b) = true.
Proof.
  revert a. induction w as [|x w IH]; intros [|y a]; simpl; try done.
  destruct (Ascii.eqb x y); [apply IH|done].
Qed.

Lemma contains_app_l (w a b : string) :
  contains w a = true -> contains w (a +:+ b) = true.
Proof.
  induction a as [|c a IH]; simpl.
  - rewrite orb_false_r. intros H. destruct w; [|done].
    by destruct b.
  - intros [H|H]%orb_true_iff.
    + apply orb_true_iff. left.
      by apply (startswith_app w (String c a) b).
    + apply orb_true_iff. right. by apply IH.
Qed.

Lemma contains_app_r (w a b : string) :
  contains w b = true -> contains w (a +:+ b) = true.
Proof.
  intros H. induction a as [|c a IH]; simpl; [done|].
  apply orb_true_iff. by right.
Qed.

Lemma flush_app cur (l1 l2 : list string) :
  flush cur (l1 ++ l2) = flush cur l1 ++ l2.
Proof. by destruct cur. Qed.

(** A character outside [\w] ends the token being read. *)
Lemma findall_scan_app_sep (a b : string) (c : ascii) cur :
  is_word_char c = false ->
  findall_scan (a +:+ String c b) cur = findall_scan a cur ++ findall_words b.
Proof.
  intros Hc. revert cur. induction a as [|x a IH]; intros cur; simpl.
  - rewrite Hc. by rewrite <- flush_app.
  - destruct (is_word_char x); [apply IH|].
    by rewrite IH, flush_app.
Qed.

Lemma findall_words_app_sep (a b : string) (c : ascii) :
  is_word_char c = false ->
  findall_words (a +:+ String c b) = findall_words a ++ findall_words b.
Proof. apply findall_scan_app_sep. Qed.

Lemma join_cons (sep p : string) (ps : list string) :
  ps <> [] -> join sep (p :: ps) = p +:+ sep +:+ join sep ps.
Proof. by destruct ps. Qed.

(** What one path contains, the space-joined paths contain. *)
Lemma contains_lower_join (w f : string) (files : list string) :
  f ∈ files -> contains w (lower f) = true ->
  contains w (lower (join " " files)) = true.
Proof.
  intros Hin Hw. induction files as [|p ps IH]; [by apply elem_of_nil in Hin|].
  destruct ps as [|q ps].
  - apply list_elem_of_singleton in Hin as ->. done.
  - rewrite join_cons by done. rewrite lower_app.
    apply elem_of_cons in Hin as [->|Hin].
    + by apply contains_app_l.
    + apply contains_app_r. rewrite lower_app. apply contains_app_r. by apply IH.
Qed.

(** The tokens of one path are tokens of the space-joined paths. *)
Lemma findall_words_lower_join (w f : string) (files : list string) :
  f ∈ files -> w ∈ findall_words (lower f) ->
  w ∈ findall_words (lower (join " " files)).
Proof.
  intros Hin Hw. induction files as [|p ps IH]; [by apply elem_of_nil in Hin|].
  destruct ps as [|q ps].
  - apply list_elem_of_singleton in Hin as ->. done.
  - rewrite join_cons by done. rewrite lower_app.
    change (lower (" " +:+ join " " (q :: ps)))
      with (String " " (lower (join " " (q :: ps)))).
    rewrite findall_words_app_sep by done.
    apply elem_of_app. apply elem_of_cons in Hin as [->|Hin]; [by left|].
    right. by apply IH.
Qed.

(** The haystack of a commit: message, a space, the joined paths. *)
Lemma haystack_contains_message (w msg : string) (files : list string) :
  contains w (lower msg) = true ->
  contains w (lower (msg +:+ " " +:+ join " " files)) = true.
Proof. intros H. rewrite lower_app. by apply contains_app_l. Qed.

Lemma haystack_contains_path (w msg f : string) (files : list string) :
  f ∈ files -> contains w (lower f) = true ->
  contains w (lower (msg +:+ " " +:+ join " " files)) = true.
Proof.
  intros Hin H. rewrite !lower_app. do 2 apply contains_app_r.
  by eapply contains_lower_join.
Qed.

Lemma haystack_words (msg : string) (files : list string) :
  findall_words (lower (msg +:+ " " +:+ join " " files))
  = findall_words (lower msg) ++ findall_words (lower (join " " files)).
Proof.
  rewrite lower_app.
  change (lower (" " +:+ join " " files))
    with (String " " (lower (join " " files))).
  by apply findall_words_app_sep.
Qed.

(** The token component for a query of one word that is a token of the
    haystack *)
Lemma single_word_overlap (w : string) (X : gset string) :
  w ∈ X -> size (({[ w ]} : gset string) ∩ X) = 1%nat.
Proof.
  intros H. assert (({[ w ]} : gset string) ∩ X = {[ w ]}) as ->.
  { apply set_eq. intros x. rewrite elem_of_intersection, elem_of_singleton.
    split; [by intros [-> _]|by intros ->]. }
  apply size_singleton.
Qed.

Lemma redis_query_words : word_set (lower "redis") = {[ "redis" ]}.
Proof. unfold word_set. simpl. set_solver. Qed.

Lemma relevance_redis (msg : string) (files : list string) :
  "redis" ∈ findall_words (lower (msg +:+ " " +:+ join " " files)) ->
  contains "redis" (lower (msg +:+ " " +:+ join " " files)) = true ->
  relevance "redis" msg files
  = (12 + length (filter (fun f => contains "redis" (lower f) = true) files))%nat.
Proof.
  intros Htok Hsub. unfold relevance. cbv zeta.
  rewrite redis_query_words. change (lower "redis") with "redis".
  rewrite Hsub, single_word_overlap by (unfold word_set; set_solver).
  rewrite elements_singleton. simpl.
  repeat f_equal. apply list_filter_iff. intros f. by rewrite orb_false_r.
Qed.

(** ** The ranking of a message match against a path match *)

Lemma filter_no_match {X} (P : X -> bool) (l : list X) :
  Forall (fun x => P x = false) l -> filter (fun x => P x = true) l = [].
Proof.
  induction 1 as [|x l Hx _ IH]; [done|].
  rewrite filter_cons, IH. rewrite decide_False; [done|]. by rewrite Hx.
Qed.

Section RedisRanking.
Context (A B : Commit) (stA stB : Stats).
Hypothesis A_message : c_message A = "fix redis timeout".
Hypothesis A_stats : c_stats A = Some stA.
Hypothesis A_files :
  Forall (fun f => contains "redis" (lower f) = false) (stats_files stA).
Hypothesis B_message : c_message B = "update docs".
Hypothesis B_stats : c_stats B = Some stB.
Hypothesis B_files : "redis/config.py" ∈ stats_files stB.

Lemma score_A : score_of "redis" A = 12%nat.
Proof using A_message A_stats A_files.
  unfold score_of, stats_or_fallback. rewrite A_message, A_stats. simpl default.
  rewrite relevance_redis.
  - by rewrite (filter_no_match (fun f => contains "redis" (lower f))).
  - rewrite haystack_words. apply elem_of_app. left.
    vm_compute. apply list_elem_of_further, list_elem_of_here.
  - by apply haystack_contains_message.
Qed.

Lemma score_B : (13 <= score_of "redis" B)%nat.
Proof using B_message B_stats B_files.
  unfold score_of, stats_or_fallback. rewrite B_message, B_stats. simpl default.
  rewrite relevance_redis.
  - assert ("redis/config.py"
            ∈ filter (fun f => contains "redis" (lower f) = true) (stats_files stB))
      as Hin by (by apply list_elem_of_filter).
    destruct (filter _ (stats_files stB)); [by apply elem_of_nil in Hin|].
    simpl. lia.
  - rewrite haystack_words. apply elem_of_app. right.
    eapply findall_words_lower_join; [exact B_files|].
    vm_compute. apply list_elem_of_here.
  - by eapply haystack_contains_path.
Qed.

Lemma candidates_A_B :
  candidates "redis" [A; B] = [scored "redis" A; scored "redis" B].
Proof using All.
  rewrite !candidates_cons. pose proof score_B as HB.
  rewrite score_A. simpl.
  destruct (0 <? score_of "redis" B)%nat eqn:E; [done|].
  apply Nat.ltb_ge in E. lia.
Qed.

Lemma candidates_B_A :
  candidates "redis" [B; A] = [scored "redis" B; scored "redis" A].
Proof using All.
  rewrite !candidates_cons. pose proof score_B as HB.
  rewrite score_A. simpl.
  destruct (0 <? score_of "redis" B)%nat eqn:E; [done|].
  apply Nat.ltb_ge in E. lia.
Qed.

Lemma first_matches_A_B (m : Z) (log : list Commit) :
  2 <= m -> log = [A; B] \/ log = [B; A] ->
  first_matches_search "redis" m log = [commit_record B; commit_record A].
Proof using All.
  intros Hm Hlog. unfold first_matches_search.
  assert (exists n, Z.to_nat m = S (S n)) as [n ->] by (exists (Z.to_nat m - 2)%nat; lia).
  pose proof score_B as HB. pose proof score_A as HA.
  destruct Hlog as [-> | ->].
  - rewrite candidates_A_B. simpl. rewrite take_nil. unfold scored. simpl.
    rewrite HA. destruct (12 <? score_of "redis" B)%nat eqn:E; [done|].
    apply Nat.ltb_ge in E. lia.
  - rewrite candidates_B_A. simpl. rewrite take_nil. unfold scored. simpl.
    rewrite HA. destruct (score_of "redis" B <? 12)%nat eqn:E; [|done].
    apply Nat.ltb_lt in E. lia.
Qed.

End RedisRanking.

(** C2, as the code has it: for the query "redis", a commit A with message
    "fix redis timeout" none of whose changed paths contains "redis" scores
    exactly 12; a commit B with message "update docs" that touches
    "redis/config.py" scores at least 13, because the path is part of the
    haystack: 10 for the substring, 2 for the token and 1 for the path; and
    on a log of the two, in either order, with a maximum of at least 2,
    [search_commits] returns B first and A second. *)
Theorem redis_ranking (A B : Commit) (stA stB : Stats) (repo : Repo) (m : Z)
    (s : Engine) :
  c_message A = "fix redis timeout" ->
  c_stats A = Some stA ->
  Forall (fun f => contains "redis" (lower f) = false) (stats_files stA) ->
  c_message B = "update docs" ->
  c_stats B = Some stB ->
  "redis/config.py" ∈ stats_files stB ->
  hexsha A <> hexsha B ->
  2 <= m ->
  iter_commits repo = inr [A; B] \/ iter_commits repo = inr [B; A] ->
  cache_agrees [A; B] s ->
  score_of "redis" A = 12%nat
  /\ (13 <= score_of "redis" B)%nat
  /\ (search_commits repo "redis" m s).1
     = inr [commit_record B; commit_record A]
  /\ ranks_above (commit_record B) (commit_record A)
       [commit_record B; commit_record A].
Proof.
  intros HA1 HA2 HA3 HB1 HB2 HB3 Hne Hm Hlog Hag.
  split; [by eapply score_A|]. split; [by eapply score_B|]. split.
  - assert (exists log, iter_commits repo = inr log
                         /\ (log = [A; B] \/ log = [B; A])) as (log & Hrepo & Hl).
    { destruct Hlog as [H|H]; eexists; (split; [exact H|]); [by left|by right]. }
    rewrite (search_commits_closed_form _ _ _ _ log Hrepo).
    + f_equal. by eapply first_matches_A_B.
    + destruct Hl as [-> | ->]; repeat constructor; by eexists.
    + destruct Hl as [-> | ->]; simpl; repeat constructor;
        rewrite ?list_elem_of_singleton; try apply not_elem_of_nil; congruence.
    + intros c info Hc. apply Hag.
      destruct Hl as [-> | ->]; [done|].
      apply elem_of_cons in Hc as [->|Hc];
        [apply list_elem_of_further, list_elem_of_here|].
      apply list_elem_of_singleton in Hc as ->. apply list_elem_of_here.
  - exists 0%nat, 1%nat. repeat split. lia.
Qed.

Lemma redis_ranking_witness :
  score_of "redis" Sample.commit_A = 12%nat
  /\ (13 <= score_of "redis" Sample.commit_B)%nat
  /\ (search_commits (Sample.repo_of [Sample.commit_A; Sample.commit_B])
        "redis" 50 init).1
     = inr [commit_record Sample.commit_B; commit_record Sample.commit_A]
  /\ ranks_above (commit_record Sample.commit_B) (commit_record Sample.commit_A)
       [commit_record Sample.commit_B; commit_record Sample.commit_A].
Proof.
  eapply (redis_ranking Sample.commit_A Sample.commit_B _ _
            (Sample.repo_of [Sample.commit_A; Sample.commit_B]) 50 init).
  - reflexivity.
  - reflexivity.
  - repeat constructor.
  - reflexivity.
  - reflexivity.
  - simpl. apply list_elem_of_here.
  - discriminate.
  - lia.
  - left. reflexivity.
  - intros c info _ H. simpl in H. by rewrite lookup_empty in H.
Defined.

(** Commit A of the claim, newest, and commit B: B scores 13 against the
    12 of A and is returned first, so A does not rank above B. *)
Lemma redis_ranking_A_not_above_B :
  let repo := Sample.repo_of [Sample.commit_A; Sample.commit_B] in
  let rA := commit_record Sample.commit_A in
  let rB := commit_record Sample.commit_B in
  score_of "redis" Sample.commit_A = 12%nat
  /\ score_of "redis" Sample.commit_B = 13%nat
  /\ (search_commits repo "redis" 2 init).1 = inr [rB; rA]
  /\ ~ ranks_above rA rB [rB; rA].
Proof.
  repeat split; try (vm_compute; reflexivity).
  intros (i & j & Hi & Hj & Hlt).
  destruct i as [|[|i]]; try discriminate Hi;
    destruct j as [|[|j]]; try discriminate Hj; lia.
Qed.

(** ** Statistics that cannot be computed *)

(** [_commit_to_info] records the fallback for such a commit. *)
Lemma commit_record_fallback (commit : Commit) :
  c_stats commit = None ->
  files_changed (commit_record commit) = []
  /\ insertions (commit_record commit) = 0
  /\ deletions (commit_record commit) = 0.
Proof. intros H. unfold commit_record, stats_or_fallback. by rewrite H. Qed.

(** The census of the tracked files never gives more than its fallback:
    reading [a_path] raises on the first blob, and without a blob there is
    nothing to count. *)
Lemma census_fallback repo (s : Engine) :
  try_except
    (items ← traverse_head_tree repo;
     tracked_files ←
       for_each a_path (filter (fun item => item_type item = "blob") items);
     let file_count := length tracked_files in
     let languages := _analyze_languages tracked_files in
     let primary_language := fst <$> max_key languages in
     mret (file_count, languages, primary_language))
    (mret (0%nat, [], None)) s
  = (inr (0%nat, [], None), s).
Proof.
  unfold try_except, traverse_head_tree, mbind, M_bind.
  destruct (head_tree repo) as [items|]; [|done]. simpl.
  by destruct (filter _ items).
Qed.

(** [get_repo_stats] on a log that is not empty: the records of the newest
    20 commits, then the name of the current branch. *)
Lemma get_repo_stats_on_log repo (s : Engine) c log :
  iter_commits repo = inr (c :: log) ->
  get_repo_stats repo s
  = (recent_activity ← for_each _commit_to_info (take 20 (c :: log));
     current_branch ← current_branch_or_unknown repo;
     mret {| commit_count := length (c :: log); file_count := 0;
             contributor_count :=
               size (list_to_set ((fun commit => actor_email (c_author commit))
                                    <$> c :: log) : gset string);
             age_days :=
               (committed_date c
                - committed_date (default c (last (c :: log)))) / 86400;
             primary_language := None; languages := [];
             recent_activity := recent_activity;
             branch_count := length (branches repo);
             current_branch := current_branch |}) s.
Proof.
  intros H. unfold get_repo_stats, call.
  unfold mbind at 1, M_bind at 1. rewrite H.
  unfold mbind at 1, M_bind at 1. by rewrite census_fallback.
Qed.

Lemma current_branch_attached repo (s : Engine) head :
  active_branch repo = inr head ->
  current_branch_or_unknown repo s = (inr (head_name head), s).
Proof.
  intros H. unfold current_branch_or_unknown, call, mbind, M_bind.
  by rewrite H.
Qed.

Lemma current_branch_raises repo (s : Engine) e :
  active_branch repo = inl e ->
  current_branch_or_unknown repo s = (inl e, s).
Proof.
  intros H. unfold current_branch_or_unknown, call, mbind, M_bind.
  by rewrite H.
Qed.

(** [search_commits] raises as soon as its scan meets such a commit. *)
Lemma search_commits_raises repo query m (s : Engine) (c : Commit) log :
  iter_commits repo = inr (c :: log) -> c_stats c = None -> 0 < m ->
  (search_commits repo query m s).1 = inl GitCommandError.
Proof.
  intros Hlog Hc Hm. rewrite (search_commits_on_log _ _ _ _ _ Hlog).
  unfold mbind, M_bind.
  cbn [search_loop length].
  replace (m <=? Z.of_nat 0) with false by (symmetry; apply Z.leb_gt; lia).
  unfold mbind, M_bind, stats. rewrite Hc. reflexivity.
Qed.

(** C3 fails for the search: on a log of one commit whose statistics cannot
    be computed, [_commit_to_info] and [get_repo_stats] return with the
    fallback of no changed files and zero insertions and deletions, but
    [search_commits] raises the error of the statistics. *)
Theorem search_commits_propagates_stats_error :
  let commit := Sample.commit_nostats in
  let repo := Sample.repo_of [commit] in
  c_stats commit = None
  /\ (_commit_to_info commit init).1 = inr (commit_record commit)
  /\ files_changed (commit_record commit) = []
  /\ insertions (commit_record commit) = 0
  /\ deletions (commit_record commit) = 0
  /\ match (get_repo_stats repo init).1 with
     | inr st => recent_activity st = [commit_record commit]
     | inl _ => False
     end
  /\ (search_commits repo "redis" 50 init).1 = inl GitCommandError.
Proof. vm_compute. by repeat split. Qed.

(** ** [search_memories] *)

Section MemorySearch.
Import Storage.

Lemma scored_memories_foldl (query_lower : string) (memories : list Memory)
    (acc : list (nat * Memory)) :
  foldl (fun scored_memories memory =>
           let score := memory_score query_lower memory in
           if (0 <? score)%nat then scored_memories ++ [(score, memory)]
           else scored_memories)
        acc memories
  = acc ++ filter (fun sm => (0 < sm.1)%nat)
             ((fun memory => (memory_score query_lower memory, memory))
                <$> memories).
Proof.
  revert acc. induction memories as [|m l IH]; intros acc; simpl.
  - by rewrite app_nil_r.
  - rewrite IH, filter_cons. simpl.
    destruct (0 <? memory_score query_lower m)%nat eqn:E.
    + apply Nat.ltb_lt in E. rewrite decide_True by done.
      by rewrite <- app_assoc.
    + apply Nat.ltb_ge in E. rewrite decide_False by lia. done.
Qed.

(** Once the store is loaded, the search returns the scored memories,
    sorted and cut to the limit. *)
Lemma search_memories_loaded query limit (st st' : Store) memories :
  _load_memories st = (inr memories, st') ->
  search_memories query limit st
  = (inr ((fun sm => to_dict sm.2)
            <$> slice_to (sort_desc fst (scored_memories_of query memories)) limit),
     st').
Proof.
  intros H. unfold search_memories, mbind, M_bind. rewrite H.
  by rewrite scored_memories_foldl.
Qed.

Lemma load_memories_error (st : Store) :
  (exists memories st', _load_memories st = (inr memories, st'))
  \/ (_load_memories st = (inl StorageError, st)).
Proof.
  unfold _load_memories, mbind, M_bind, get_store.
  destruct (_memories_cache st) as [l|]; [left; by eexists _, _|].
  destruct (memories_file st);
    [left; by eexists _, _|by right|left; by eexists _, _].
Qed.

Lemma to_dict_inj (m m' : Memory) : to_dict m = to_dict m' -> m = m'.
Proof.
  destruct m as [i c e t x g a], m' as [i' c' e' t' x' g' a'].
  unfold to_dict. simpl. intros H. injection H as -> -> He -> -> Hg ->.
  f_equal.
  - destruct e, e'; simpl in He; congruence.
  - revert g' Hg. induction g as [|y g IH]; intros [|y' g'] Hg; try done.
    rewrite !fmap_cons in Hg. injection Hg as -> Hg. f_equal. by apply IH.
Qed.

(** In a descending list a later element has no larger a key. *)
Lemma descending_lookup {X} (key : X -> nat) (l : list X) (i j : nat) (x y : X) :
  descending key l -> l !! i = Some x -> l !! j = Some y -> (i < j)%nat ->
  (key y <= key x)%nat.
Proof.
  unfold descending. intros Hs. revert i j.
  induction Hs as [|z l Hl IH Hz]; intros i j Hi Hj Hlt; [done|].
  destruct j as [|j]; [lia|]. simpl in Hj.
  destruct i as [|i]; simpl in Hi.
  - injection Hi as ->. rewrite Forall_forall in Hz. apply Hz.
    by eapply list_elem_of_lookup_2.
  - apply (IH i j); [done|done|lia].
Qed.

Lemma descending_take {X} (key : X -> nat) (l : list X) (n : nat) :
  descending key l -> descending key (take n l).
Proof.
  unfold descending. intros H. rewrite <- (take_drop n l) in H.
  by apply StronglySorted_app_1_l in H.
Qed.

Lemma elem_of_take_1 {X} (x : X) (n : nat) (l : list X) : x ∈ take n l -> x ∈ l.
Proof.
  intros (i & Hi & _)%elem_of_take. by eapply list_elem_of_lookup_2.
Qed.

(** A cut [l[:n]] is a prefix of [l]. *)
Lemma slice_to_take {X} (l : list X) (n : Z) : exists k, slice_to l n = take k l.
Proof. unfold slice_to. destruct (0 <=? n); by eexists. Qed.

Lemma slice_to_all {X} (l : list X) (n : Z) :
  Z.of_nat (length l) <= n -> slice_to l n = l.
Proof.
  intros H. unfold slice_to. destruct (0 <=? n) eqn:E; [|apply Z.leb_gt in E; lia].
  apply take_ge. lia.
Qed.

Lemma elem_of_scored_memories (query : string) (memories : list Memory)
    (sm : nat * Memory) :
  sm ∈ scored_memories_of query memories
  <-> sm.1 = memory_score (lower query) sm.2 /\ (0 < sm.1)%nat /\ sm.2 ∈ memories.
Proof.
  unfold scored_memories_of. rewrite list_elem_of_filter, list_elem_of_fmap.
  split.
  - intros (Hpos & m & -> & Hin). done.
  - intros (Hs & Hpos & Hin). split; [done|]. exists sm.2. split; [|done].
    destruct sm as [n m]. simpl in *. by rewrite Hs.
Qed.

Lemma tags_score (word : string) (tags : list string) (n : nat) :
  foldl (fun score tag =>
           if contains word (lower tag) then (score + 2)%nat else score) n tags
  = (n + 2 * length (filter (fun tag => contains word (lower tag) = true) tags))%nat.
Proof.
  revert n. induction tags as [|t l IH]; intros n; simpl; [lia|].
  rewrite IH, filter_cons. destruct (contains word (lower t)).
  - rewrite decide_True by done. simpl. lia.
  - rewrite decide_False by done. done.
Qed.

Lemma memory_score_outside_content (word : string) (memory : Memory) :
  silent_outside_content word memory ->
  memory_score word memory
  = if contains word (lower (content memory)) then 5%nat else 0%nat.
Proof.
  intros (He & Ht & Hc). unfold memory_score. cbv zeta.
  rewrite Hc, tags_score.
  rewrite (filter_no_match (fun tag => contains word (lower tag))) by done.
  assert (match enhanced_content memory with
          | Some enhanced => truthy enhanced && contains word (lower enhanced)
          | None => false
          end = false) as ->.
  { destruct (enhanced_content memory); [|done]. rewrite He. apply andb_false_r. }
  destruct (contains word (lower (content memory))); simpl; lia.
Qed.

Lemma memory_score_silent (word : string) (memory : Memory) :
  silent_on word memory -> memory_score word memory = 0%nat.
Proof.
  intros [Hc Ho]. rewrite memory_score_outside_content by done. by rewrite Hc.
Qed.

(** C4, as the code has it: for the query "redis", a memory exactly one of
    whose tags contains "redis", with empty content, no enhanced content
    and an empty context, scores exactly 2 (each tag containing the query
    adds 2); a memory with "redis" in its content and in no other field
    scores exactly 5; in the result of [search_memories] the second never
    comes after the first, and comes before it when both are stored and the
    limit does not cut them; a memory without "redis" in any field is not
    in the result. *)
Theorem memory_search_redis (m1 m2 m3 : Memory) (st st' : Store)
    (memories : list Memory) (limit : Z) :
  content m1 = EmptyString -> enhanced_content m1 = None -> context m1 = [] ->
  length (filter (fun tag => contains "redis" (lower tag) = true) (tags m1))
  = 1%nat ->
  contains "redis" (lower (content m2)) = true ->
  silent_outside_content "redis" m2 ->
  silent_on "redis" m3 ->
  _load_memories st = (inr memories, st') ->
  memory_score "redis" m1 = 2%nat
  /\ memory_score "redis" m2 = 5%nat
  /\ exists out,
       search_memories "redis" limit st = (inr out, st')
       /\ (to_dict m3 ∉ out)
       /\ (forall i j, out !! i = Some (to_dict m2) ->
             out !! j = Some (to_dict m1) -> (i < j)%nat)
       /\ (m1 ∈ memories -> m2 ∈ memories ->
           Z.of_nat (length memories) <= limit ->
           ranks_above (to_dict m2) (to_dict m1) out).
Proof.
  intros Hc1 He1 Hx1 Ht1 Hc2 Ho2 H3 Hload.
  assert (memory_score "redis" m1 = 2%nat) as S1.
  { unfold memory_score. cbv zeta. rewrite Hc1, He1, Hx1, tags_score, Ht1.
    reflexivity. }
  assert (memory_score "redis" m2 = 5%nat) as S2.
  { rewrite memory_score_outside_content by done. by rewrite Hc2. }
  pose proof (memory_score_silent _ _ H3) as S3.
  split; [done|]. split; [done|].
  eexists. split; [by apply search_memories_loaded|].
  set (L := sort_desc fst (scored_memories_of "redis" memories)).
  assert (forall sm, sm ∈ L ->
            sm.1 = memory_score "redis" sm.2 /\ (0 < sm.1)%nat /\ sm.2 ∈ memories)
    as HL.
  { intros sm Hin. apply elem_of_sort_desc in Hin.
    by apply elem_of_scored_memories in Hin. }
  destruct (slice_to_take L limit) as [k Hk].
  assert (forall i m, ((fun sm => to_dict sm.2) <$> slice_to L limit) !! i
                      = Some (to_dict m) ->
            take k L !! i = Some (memory_score "redis" m, m)) as Hat.
  { intros i m Hi. rewrite Hk, list_lookup_fmap in Hi.
    destruct (take k L !! i) as [[n m']|] eqn:E; [|done].
    simpl in Hi. apply (inj Some), to_dict_inj in Hi as ->.
    apply list_elem_of_lookup_2, elem_of_take_1 in E.
    destruct (HL _ E) as [Hn _]. simpl in Hn. by rewrite Hn. }
  assert (forall i j, ((fun sm => to_dict sm.2) <$> slice_to L limit) !! i
                      = Some (to_dict m2) ->
            ((fun sm => to_dict sm.2) <$> slice_to L limit) !! j
            = Some (to_dict m1) -> (i < j)%nat) as Hord.
  { intros i j Hi%Hat Hj%Hat. rewrite S2 in Hi. rewrite S1 in Hj.
    destruct (decide (i < j)%nat) as [|Hge]; [done|].
    destruct (decide (i = j)) as [->|Hne]; [congruence|].
    assert (j < i)%nat as Hlt by lia.
    pose proof (descending_lookup fst (take k L) j i _ _
                  (descending_take _ _ _ (sort_desc_descending fst _)) Hj Hi Hlt).
    simpl in *. lia. }
  split; [|split; [exact Hord|]].
  - intros Hin. apply list_elem_of_lookup_1 in Hin as [i Hi]. apply Hat in Hi.
    apply list_elem_of_lookup_2, elem_of_take_1 in Hi.
    destruct (HL _ Hi) as (_ & Hpos & _). simpl in Hpos. lia.
  - intros Hin1 Hin2 Hlim.
    assert (slice_to L limit = L) as HLall.
    { apply slice_to_all. unfold L. rewrite sort_desc_length.
      unfold scored_memories_of.
      etransitivity; [|exact Hlim]. apply inj_le.
      etransitivity; [apply length_filter|]. by rewrite length_fmap. }
    assert (forall m, m ∈ memories -> (0 < memory_score "redis" m)%nat ->
              exists i, ((fun sm => to_dict sm.2) <$> slice_to L limit) !! i
                        = Some (to_dict m)) as Hfind.
    { intros m Hin Hpos. apply list_elem_of_lookup_1. rewrite HLall.
      apply (list_elem_of_fmap_2' _ _ (memory_score "redis" m, m)); [|done].
      apply elem_of_sort_desc, elem_of_scored_memories. done. }
    destruct (Hfind m2 Hin2) as [i Hi]; [lia|].
    destruct (Hfind m1 Hin1) as [j Hj]; [lia|].
    exists i, j. split; [done|]. split; [done|]. by apply Hord.
Qed.

Lemma memory_search_redis_witness :
  memory_score "redis" Sample.memory_tagged = 2%nat
  /\ memory_score "redis" Sample.memory_content = 5%nat
  /\ exists out,
       search_memories "redis" 10
         (Sample.store_of
            [Sample.memory_tagged; Sample.memory_content; Sample.memory_other])
       = (inr out,
          {| memories_file :=
               Holds [Sample.memory_tagged; Sample.memory_content;
                      Sample.memory_other];
             _memories_cache :=
               Some [Sample.memory_tagged; Sample.memory_content;
                     Sample.memory_other] |})
       /\ (to_dict Sample.memory_other ∉ out)
       /\ (forall i j, out !! i = Some (to_dict Sample.memory_content) ->
             out !! j = Some (to_dict Sample.memory_tagged) -> (i < j)%nat)
       /\ (Sample.memory_tagged
             ∈ [Sample.memory_tagged; Sample.memory_content; Sample.memory_other] ->
           Sample.memory_content
             ∈ [Sample.memory_tagged; Sample.memory_content; Sample.memory_other] ->
           Z.of_nat (length [Sample.memory_tagged; Sample.memory_content;
                             Sample.memory_other]) <= 10 ->
           ranks_above (to_dict Sample.memory_content)
             (to_dict Sample.memory_tagged) out).
Proof.
  apply (memory_search_redis Sample.memory_tagged Sample.memory_content
           Sample.memory_other).
  - reflexivity.
  - reflexivity.
  - reflexivity.
  - reflexivity.
  - reflexivity.
  - split; [exact I|]. split; [|reflexivity]. repeat constructor.
  - split; [reflexivity|]. split; [exact I|]. split; [|reflexivity].
    repeat constructor.
  - reflexivity.
Defined.

(** A memory with empty content, no enhanced content, an empty context and
    the tags "redis" and "redis-cluster": its tags contain "redis", and it
    scores 4, since each of the two tags adds 2. *)
Lemma memory_two_tags_score :
  let m := Sample.memory_two_tags in
  content m = EmptyString /\ enhanced_content m = None /\ context m = []
  /\ "redis" ∈ tags m
  /\ memory_score "redis" m = 4%nat
  /\ memory_score "redis" m <> 2%nat.
Proof.
  repeat split; try reflexivity; [apply list_elem_of_here|].
  vm_compute. discriminate.
Qed.

(** The sample store searched for "redis": the content match, then the tag
    match, and the third memory left out. *)
Lemma search_memories_sample :
  (search_memories "redis" 10
     (Sample.store_of
        [Sample.memory_tagged; Sample.memory_content; Sample.memory_other])).1
  = inr [to_dict Sample.memory_content; to_dict Sample.memory_tagged].
Proof. reflexivity. Qed.

(** C9, as the code has it: with a maximum result count of 0,
    [search_commits] returns the empty list on every log that the
    repository enumerates, whatever its commits and the engine, and
    [search_memories] returns the empty list on every store whose memories
    load; neither raises. *)
Theorem search_with_zero_results repo (query : string) (s : Engine)
    (log : list Commit) (st st' : Store) (memories : list Memory) :
  iter_commits repo = inr log ->
  _load_memories st = (inr memories, st') ->
  search_commits repo query 0 s = (inr [], s)
  /\ search_memories query 0 st = (inr [], st').
Proof.
  intros Hlog H. split; [by eapply search_commits_zero|].
  rewrite (search_memories_loaded _ _ _ _ _ H). unfold slice_to. simpl.
  reflexivity.
Qed.

Lemma search_with_zero_results_witness :
  search_commits (Sample.repo_of [Sample.commit_nostats; Sample.commit_A])
    "redis" 0 init = (inr [], init)
  /\ search_memories "redis" 0
       (Sample.store_of [Sample.memory_tagged; Sample.memory_content])
     = (inr [],
        {| memories_file := Holds [Sample.memory_tagged; Sample.memory_content];
           _memories_cache := Some [Sample.memory_tagged; Sample.memory_content] |}).
Proof.
  apply (search_with_zero_results
           (Sample.repo_of [Sample.commit_nostats; Sample.commit_A]) "redis" init
           [Sample.commit_nostats; Sample.commit_A]
           (Sample.store_of [Sample.memory_tagged; Sample.memory_content]) _
           [Sample.memory_tagged; Sample.memory_content]).
  - reflexivity.
  - reflexivity.
Defined.

(** With a maximum result count of 0 both searches can raise: the memory
    search on a store whose file cannot be loaded, the commit search on a
    repository without commits, whose log cannot be enumerated. *)
Lemma search_with_zero_results_raises :
  search_memories "redis" 0 Sample.corrupt_store
  = (inl StorageError, Sample.corrupt_store)
  /\ search_commits Sample.unborn_repo "redis" 0 init = (inl ValueError, init).
Proof. split; reflexivity. Qed.

End MemorySearch.

(** * Further properties of the engine *)

(** ** Conversions through the cache keep the commit ids *)

Lemma commit_to_info_hash (commit : Commit) (s : Engine) :
  cache_keyed s ->
  exists info s',
    _commit_to_info commit s = (inr info, s')
    /\ hash info = hexsha commit /\ cache_keyed s'.
Proof.
  intros K. destruct (_commit_cache s !! hexsha commit) as [info|] eqn:E.
  - exists info, s. split; [by apply commit_to_info_hit|].
    split; [|done]. by destruct (K _ _ E).
  - eexists _, _. split; [by apply commit_to_info_miss|]. split; [done|].
    apply map_Forall_insert_2; [done|exact K].
Qed.

Lemma for_each_commit_to_info_hash (l : list Commit) (s : Engine) :
  cache_keyed s ->
  exists infos s',
    for_each _commit_to_info l s = (inr infos, s')
    /\ hash <$> infos = hexsha <$> l /\ cache_keyed s'.
Proof.
  revert s. induction l as [|c l IH]; intros s K; simpl.
  - by exists [], s.
  - unfold mbind, M_bind.
    destruct (commit_to_info_hash c s K) as (info & s1 & -> & Hh & K1).
    destruct (IH s1 K1) as (infos & s2 & -> & Hhs & K2).
    exists (info :: infos), s2. split; [done|]. split; [|done].
    rewrite !fmap_cons. by rewrite Hh, Hhs.
Qed.

(** ** [search_commits]: bounds, origin of the results, repeated calls *)

Import GitFacts.

Lemma search_loop_nostats query_lower query_words m (c : Commit) log acc
    (s : Engine) :
  c_stats c = None -> Z.of_nat (length acc) < m ->
  (search_loop query_lower query_words m (c :: log) acc s).1
  = inl GitCommandError.
Proof.
  intros Hc Hlt. simpl.
  destruct (m <=? Z.of_nat (length acc)) eqn:E; [apply Z.leb_le in E; lia|].
  unfold mbind, M_bind, stats. rewrite Hc. reflexivity.
Qed.

Lemma search_loop_stop query_lower query_words m log acc (s : Engine) :
  m <= Z.of_nat (length acc) ->
  search_loop query_lower query_words m log acc s = (inr acc, s).
Proof.
  intros Hle. destruct log as [|c log]; simpl; [done|].
  destruct (m <=? Z.of_nat (length acc)) eqn:E; [done|].
  apply Z.leb_gt in E. lia.
Qed.

(** The loop never collects more than [max_results] candidates, collects
    only positively scored commits of the log, and raises only at a commit
    without statistics. *)
Lemma search_loop_bounded query m full log acc (s : Engine) :
  cache_keyed s -> log ⊆ full -> from_log query full acc ->
  match (search_loop (lower query) (word_set (lower query)) m log acc s).1 with
  | inr acc' =>
      (length acc' <= Nat.max (length acc) (Z.to_nat m))%nat
      /\ from_log query full acc'
  | inl e => e = GitCommandError /\ exists c, c ∈ log /\ c_stats c = None
  end.
Proof.
  revert acc s. induction log as [|c log IH]; intros acc s K Hsub Hacc.
  - simpl. split; [lia|done].
  - destruct (decide (Z.of_nat (length acc) < m)) as [Hlt|Hge].
    2:{ rewrite search_loop_stop by lia. simpl. split; [lia|done]. }
    assert (log ⊆ full) as Hsub'.
    { intros x Hx. apply Hsub. by apply list_elem_of_further. }
    assert (c ∈ full) as Hc by (apply Hsub, list_elem_of_here).
    destruct (c_stats c) as [st|] eqn:Est.
    2:{ rewrite search_loop_nostats by done. split; [done|].
        exists c. split; [apply list_elem_of_here|done]. }
    rewrite (search_loop_cons _ _ _ _ _ _ _ Est Hlt). cbv zeta.
    set (s2 := Build_Engine _ _ _).
    assert (cache_keyed s2) as K2 by exact K.
    destruct (0 <? score_of query c)%nat eqn:Epos.
    + apply Nat.ltb_lt in Epos. unfold mbind, M_bind.
      destruct (commit_to_info_hash c s2 K2) as (info & s3 & -> & Hh & K3).
      specialize (IH (acc ++ [(score_of query c, info)]) s3 K3 Hsub').
      destruct (search_loop _ _ _ _ _ _).1 as [e|acc'].
      * destruct IH as (-> & c' & Hin & Hn).
        { apply Forall_app. split; [done|]. apply Forall_singleton.
          by exists c. }
        split; [done|]. exists c'. split; [by apply list_elem_of_further|done].
      * destruct IH as [Hlen Hfrom].
        { apply Forall_app. split; [done|]. apply Forall_singleton.
          by exists c. }
        split; [|done]. rewrite length_app in Hlen. simpl in Hlen. lia.
    + specialize (IH acc s2 K2 Hsub' Hacc).
      destruct (search_loop _ _ _ _ _ _).1 as [e|acc'].
      * destruct IH as (-> & c' & Hin & Hn).
        split; [done|]. exists c'. split; [by apply list_elem_of_further|done].
      * done.
Qed.

(** Whenever [search_commits] returns, the log was enumerated, and the
    result holds at most [max_results] records (none when [max_results] is
    not positive), each the record of a positively scored commit of that
    log. *)
Theorem search_commits_bounded repo query m (s s' : Engine)
    (out : list CommitInfo) :
  cache_keyed s ->
  search_commits repo query m s = (inr out, s') ->
  exists log,
    iter_commits repo = inr log
    /\ Z.of_nat (length out) <= Z.max 0 m
    /\ (forall info, info ∈ out ->
          exists c, c ∈ log /\ hash info = hexsha c
                    /\ (0 < score_of query c)%nat).
Proof.
  intros K Hrun. destruct (iter_commits repo) as [e|log] eqn:Hlog.
  { by rewrite (search_commits_enum_raises _ _ _ _ _ Hlog) in Hrun. }
  exists log. split; [done|].
  rewrite (search_commits_on_log _ _ _ _ _ Hlog) in Hrun.
  unfold mbind, M_bind in Hrun.
  pose proof (search_loop_bounded query m log log
                [] s K (reflexivity _) (Forall_nil_2 _)) as H.
  destruct (search_loop _ _ _ _ _ _) as [[e|acc] s1]; simpl in *; [done|].
  injection Hrun as <- <-.
  destruct H as [Hlen Hfrom]. split.
  - rewrite length_fmap, sort_desc_length. lia.
  - intros info (sc & -> & Hin)%list_elem_of_fmap.
    apply elem_of_sort_desc in Hin.
    unfold from_log in Hfrom. rewrite Forall_forall in Hfrom.
    destruct (Hfrom _ Hin) as (c & Hc & Hh & Hs & Hpos).
    exists c. split; [done|]. split; [done|]. by rewrite <- Hs.
Qed.

Lemma search_commits_bounded_witness :
  exists log,
    iter_commits (Sample.repo_of [Sample.commit_A; Sample.commit_B]) = inr log
    /\ Z.of_nat (length [commit_record Sample.commit_A]) <= Z.max 0 1
    /\ (forall info, info ∈ [commit_record Sample.commit_A] ->
          exists c, c ∈ log /\ hash info = hexsha c
                    /\ (0 < score_of "redis" c)%nat).
Proof.
  eapply (search_commits_bounded
            (Sample.repo_of [Sample.commit_A; Sample.commit_B]) "redis" 1 init).
  - apply map_Forall_empty.
  - vm_compute. reflexivity.
Defined.

Lemma search_loop_step query_lower query_words m (c : Commit) log acc
    (s : Engine) st :
  c_stats c = Some st ->
  Z.of_nat (length acc) < m ->
  search_loop query_lower query_words m (c :: log) acc s
  = let s2 := {| _commit_cache := _commit_cache s; _file_cache := _file_cache s;
                 stats_reads := S (S (stats_reads s)) |} in
    let score := loop_score query_lower query_words (c_message c) (stats_files st) in
    if (0 <? score)%nat then
      (_commit_to_info c ≫= fun info =>
         search_loop query_lower query_words m log (acc ++ [(score, info)])) s2
    else search_loop query_lower query_words m log acc s2.
Proof.
  intros Hst Hlt. simpl.
  destruct (m <=? Z.of_nat (length acc)) eqn:E; [apply Z.leb_le in E; lia|].
  unfold mbind at 1, M_bind at 1. unfold stats at 1. rewrite Hst.
  unfold mbind at 1, M_bind at 1. unfold stats at 1. rewrite Hst.
  cbv zeta. cbn [_commit_cache _file_cache stats_reads]. unfold loop_score.
  by destruct (0 <? _)%nat.
Qed.

(** Run again on an engine whose commit cache holds what the first run left
    in it, the loop gives the same outcome. *)
Lemma search_loop_rerun query_lower query_words m log acc (s t : Engine) :
  _commit_cache (search_loop query_lower query_words m log acc s).2
    ⊆ _commit_cache t ->
  (search_loop query_lower query_words m log acc t).1
  = (search_loop query_lower query_words m log acc s).1.
Proof.
  revert acc s t. induction log as [|c log IH]; intros acc s t Hsub; [done|].
  destruct (decide (Z.of_nat (length acc) < m)) as [Hlt|Hge].
  2:{ by rewrite !search_loop_stop by lia. }
  destruct (c_stats c) as [st|] eqn:Est.
  2:{ by rewrite !search_loop_nostats. }
  rewrite (search_loop_step _ _ _ _ _ _ s _ Est Hlt) in *.
  rewrite (search_loop_step _ _ _ _ _ _ t _ Est Hlt).
  cbv zeta in *.
  set (s2 := Build_Engine (_commit_cache s) _ _) in *.
  set (t2 := Build_Engine (_commit_cache t) _ _).
  destruct (0 <? _)%nat; [|by apply IH].
  unfold mbind, M_bind in *.
  destruct (commit_to_info_returns c s2) as (info & s3 & Hrun & Hin).
  rewrite Hrun in *.
  assert (_commit_cache t2 !! hexsha c = Some info) as Hint.
  { eapply lookup_weaken; [|exact Hsub].
    eapply lookup_weaken; [exact Hin|]. apply search_loop_quiet. }
  rewrite (commit_to_info_hit _ _ _ Hint). by apply IH.
Qed.

(** [search_commits] asked again, at once or after any other method calls
    on the engine, gives the outcome it gave the first time: the same
    records in the same order, or the same error. *)
Theorem search_commits_repeatable repo query m (s : Engine) (os : list op) :
  (search_commits repo query m
     (run_all repo os (search_commits repo query m s).2)).1
  = (search_commits repo query m s).1.
Proof.
  destruct (iter_commits repo) as [e|log] eqn:Hlog.
  { by rewrite !(search_commits_enum_raises _ _ _ _ _ Hlog). }
  rewrite !(search_commits_on_log _ _ _ _ _ Hlog).
  unfold mbind, M_bind.
  pose proof (search_loop_rerun (lower query) (word_set (lower query)) m
                log [] s) as Hre.
  destruct (search_loop _ _ _ _ [] s) as [[e|acc] s1] eqn:E1; simpl in *;
    specialize (Hre (run_all repo os s1) (proj1 (run_all_grows repo os s1)));
    destruct (search_loop _ _ _ _ [] (run_all repo os s1)) as [[e'|acc'] s2];
    simpl in *; congruence.
Qed.

(** ** The empty query *)

Lemma relevance_empty (msg : string) (files : list string) :
  relevance "" msg files = 10%nat.
Proof.
  unfold relevance. cbv zeta. change (lower "") with "".
  assert (word_set "" = ∅) as -> by done.
  assert (forall t, contains "" t = true) as -> by (by intros []).
  rewrite elements_empty. simpl existsb.
  rewrite (filter_no_match (fun _ => false)) by (by apply Forall_forall).
  assert ((∅ : gset string) ∩ word_set (lower (msg +:+ " " +:+ join " " files)) = ∅)
    as -> by (apply set_eq; intros x; rewrite elem_of_intersection;
              split; [by intros [? _]|done]).
  by rewrite size_empty.
Qed.

Lemma candidates_empty_query (log : list Commit) :
  candidates "" log = (fun c => (10%nat, commit_record c)) <$> log.
Proof.
  induction log as [|c log IH]; [done|].
  rewrite candidates_cons, IH. unfold score_of, scored, score_of.
  by rewrite relevance_empty.
Qed.

Lemma descending_constant {X} (key : X -> nat) (n : nat) (l : list X) :
  Forall (fun x => key x = n) l -> descending key l.
Proof.
  unfold descending. induction 1 as [|x l Hx Hl IH]; constructor; [done|].
  eapply Forall_impl; [exact Hl|]. simpl. intros; lia.
Qed.

(** The empty query matches every commit with the same score, so
    [search_commits] returns the records of the newest [max_results]
    commits, in the order of the log. *)
Theorem search_commits_empty_query repo m (s : Engine) log :
  iter_commits repo = inr log ->
  Forall (fun c => is_Some (c_stats c)) log ->
  NoDup (hexsha <$> log) ->
  cache_agrees log s ->
  (search_commits repo "" m s).1
  = inr (commit_record <$> take (Z.to_nat m) log).
Proof.
  intros Hlog Hst Hnd Hag.
  rewrite (search_commits_closed_form _ _ _ _ log) by done.
  f_equal. unfold first_matches_search. rewrite candidates_empty_query.
  rewrite sort_desc_id.
  - rewrite <- fmap_take, <- list_fmap_compose. done.
  - apply (descending_constant _ 10%nat). rewrite <- fmap_take.
    apply Forall_fmap, Forall_forall. done.
Qed.

Lemma search_commits_empty_query_witness :
  (search_commits (Sample.repo_of [Sample.commit_A; Sample.commit_B;
                                   Sample.commit_C]) "" 2 init).1
  = inr (commit_record <$> take (Z.to_nat 2)
           [Sample.commit_A; Sample.commit_B; Sample.commit_C]).
Proof.
  apply (search_commits_empty_query
           (Sample.repo_of [Sample.commit_A; Sample.commit_B; Sample.commit_C])
           2 init).
  - reflexivity.
  - repeat constructor; by eexists.
  - apply (bool_decide_unpack _). vm_compute. reflexivity.
  - apply cache_agrees_init.
Defined.

(** ** [get_recent_commits] and [get_repo_stats] *)

(** Once the log is enumerated [get_recent_commits] does not raise; it
    returns, in order, the records of the commits in the slice
    [log[:count]]: the newest [count] commits for [count >= 0], all but the
    oldest [-count] commits for a negative [count].  When the enumeration
    of the log raises, the method raises the same exception. *)
Theorem get_recent_commits_slice repo (count : Z) (s : Engine) :
  cache_keyed s ->
  match iter_commits repo with
  | inr log =>
      exists infos s',
        get_recent_commits repo count s = (inr infos, s')
        /\ hash <$> infos
           = hexsha <$> (if 0 <=? count then take (Z.to_nat count) log
                         else take (length log - Z.to_nat (- count)) log)
        /\ (length infos <= length log)%nat
  | inl e => get_recent_commits repo count s = (inl e, s)
  end.
Proof.
  intros K. unfold get_recent_commits, call.
  unfold mbind at 1, M_bind at 1.
  destruct (iter_commits repo) as [e|log]; [done|].
  destruct (for_each_commit_to_info_hash (slice_to log count) s K)
    as (infos & s' & Hrun & Hh & _).
  exists infos, s'. split; [done|]. split.
  - rewrite Hh. unfold slice_to. by destruct (0 <=? count).
  - apply (f_equal length) in Hh. rewrite !length_fmap in Hh. rewrite Hh.
    unfold slice_to. destruct (0 <=? count); rewrite length_take; lia.
Qed.

Lemma get_recent_commits_slice_witness :
  exists infos s',
    get_recent_commits
      (Sample.repo_of [Sample.commit_A; Sample.commit_B; Sample.commit_C])
      (-1) init = (inr infos, s')
    /\ hash <$> infos
       = hexsha <$> take (3 - Z.to_nat (- -1))
                      [Sample.commit_A; Sample.commit_B; Sample.commit_C]
    /\ (length infos <= 3)%nat.
Proof.
  apply (get_recent_commits_slice
           (Sample.repo_of [Sample.commit_A; Sample.commit_B; Sample.commit_C])
           (-1) init).
  apply map_Forall_empty.
Defined.

Lemma size_list_to_set_le (l : list string) :
  (size (list_to_set l : gset string) <= length l)%nat.
Proof.
  induction l as [|x l IH]; [by rewrite list_to_set_nil, size_empty|].
  rewrite list_to_set_cons, size_union_alt, size_singleton. simpl.
  assert ((list_to_set l : gset string) ∖ {[x]} ⊆ list_to_set l) as Hs.
  { intros y Hy. by apply elem_of_difference in Hy as [? _]. }
  apply subseteq_size in Hs. lia.
Qed.

Lemma contributors_bounds (c : Commit) (log : list Commit) :
  (1 <= size (list_to_set ((fun commit => actor_email (c_author commit))
                             <$> c :: log) : gset string)
   <= length (c :: log))%nat.
Proof.
  split.
  - destruct (decide (size (list_to_set
                ((fun commit => actor_email (c_author commit)) <$> c :: log)
                : gset string) = 0%nat)) as [E|E]; [|lia].
    apply size_empty_iff in E.
    assert (actor_email (c_author c)
            ∈ (list_to_set ((fun commit => actor_email (c_author commit))
                              <$> c :: log) : gset string)) as Hin.
    { rewrite fmap_cons, list_to_set_cons. apply elem_of_union_l.
      by apply elem_of_singleton. }
    rewrite E in Hin. by apply elem_of_empty in Hin.
  - etransitivity; [apply size_list_to_set_le|]. by rewrite length_fmap.
Qed.

(** What [get_repo_stats] returns on a log that is not empty, with HEAD on
    a branch. *)
Lemma get_repo_stats_nonempty repo (s : Engine) (c : Commit) log head :
  iter_commits repo = inr (c :: log) ->
  active_branch repo = inr head ->
  exists infos s',
    for_each _commit_to_info (take 20 (c :: log)) s = (inr infos, s')
    /\ get_repo_stats repo s
       = (inr {| commit_count := S (length log);
                 file_count := 0;
                 contributor_count :=
                   size (list_to_set ((fun commit => actor_email (c_author commit))
                                        <$> c :: log) : gset string);
                 age_days :=
                   (committed_date c
                    - committed_date (default c (last (c :: log)))) / 86400;
                 primary_language := None;
                 languages := [];
                 recent_activity := infos;
                 branch_count := length (branches repo);
                 current_branch := head_name head |}, s').
Proof.
  intros Hlog Hhead.
  destruct (for_each_commit_to_info_returns (take 20 (c :: log)) s)
    as (infos & s' & Hrun & _).
  exists infos, s'. split; [done|].
  rewrite (get_repo_stats_on_log _ _ _ _ Hlog).
  unfold mbind, M_bind. rewrite Hrun.
  by rewrite (current_branch_attached _ _ _ Hhead).
Qed.

(** On a detached HEAD [get_repo_stats] raises what [repo.active_branch]
    raises, once the newest commits are converted. *)
Lemma get_repo_stats_detached repo (s : Engine) (c : Commit) log e :
  iter_commits repo = inr (c :: log) ->
  active_branch repo = inl e ->
  (get_repo_stats repo s).1 = inl e.
Proof.
  intros Hlog Hhead.
  destruct (for_each_commit_to_info_returns (take 20 (c :: log)) s)
    as (infos & s' & Hrun & _).
  rewrite (get_repo_stats_on_log _ _ _ _ Hlog).
  unfold mbind, M_bind. rewrite Hrun.
  by rewrite (current_branch_raises _ _ _ Hhead).
Qed.

(** Whenever [get_repo_stats] returns, the log was enumerated and, when it
    is not empty, HEAD is on a branch. *)
Lemma get_repo_stats_returned repo (s s' : Engine) st :
  get_repo_stats repo s = (inr st, s') ->
  exists log, iter_commits repo = inr log
              /\ (log <> [] -> exists head, active_branch repo = inr head).
Proof.
  intros Hrun. destruct (iter_commits repo) as [e|log] eqn:Hlog.
  { unfold get_repo_stats, mbind, M_bind, call in Hrun. by rewrite Hlog in Hrun. }
  exists log. split; [done|]. intros Hne.
  destruct log as [|c log]; [done|].
  destruct (active_branch repo) as [e|head] eqn:Hhead; [|by eexists].
  pose proof (get_repo_stats_detached repo s c log e Hlog Hhead) as H.
  by rewrite Hrun in H.
Qed.

(** On a log that is not empty and with HEAD on a branch [get_repo_stats]
    returns: it counts every commit of the log, between one contributor
    and as many as there are commits, reports the newest 20 commits in
    order, the number of branches and the name of the branch of HEAD.  On a
    detached HEAD, where [repo.active_branch] raises, the method raises
    the same exception. *)
Theorem get_repo_stats_commit_fields repo (s : Engine) (c : Commit) log :
  iter_commits repo = inr (c :: log) ->
  cache_keyed s ->
  match active_branch repo with
  | inr head =>
      exists st s',
        get_repo_stats repo s = (inr st, s')
        /\ commit_count st = length (c :: log)
        /\ (1 <= contributor_count st <= commit_count st)%nat
        /\ hash <$> recent_activity st = hexsha <$> take 20 (c :: log)
        /\ branch_count st = length (branches repo)
        /\ current_branch st = head_name head
  | inl e => (get_repo_stats repo s).1 = inl e
  end.
Proof.
  intros Hlog K.
  destruct (active_branch repo) as [e|head] eqn:Hhead;
    [by eapply get_repo_stats_detached|].
  destruct (get_repo_stats_nonempty repo s c log head Hlog Hhead)
    as (infos & s' & Hfor & Hrun).
  destruct (for_each_commit_to_info_hash (take 20 (c :: log)) s K)
    as (infos' & s'' & Hfor' & Hh & _).
  rewrite Hfor in Hfor'. injection Hfor' as <- <-.
  eexists _, _. split; [exact Hrun|].
  cbn [commit_count contributor_count recent_activity branch_count
       current_branch].
  split; [done|]. split; [|split; [done|split; done]].
  apply contributors_bounds.
Qed.

Lemma get_repo_stats_commit_fields_witness :
  let log := [Sample.commit_A; Sample.commit_B; Sample.commit_C] in
  let repo := Sample.repo_of log in
  (exists st s',
     get_repo_stats repo init = (inr st, s')
     /\ commit_count st = length log
     /\ (1 <= contributor_count st <= commit_count st)%nat
     /\ hash <$> recent_activity st = hexsha <$> take 20 log
     /\ branch_count st = length (branches repo)
     /\ current_branch st = "main")
  /\ (get_repo_stats (Sample.detached_repo log) init).1 = inl TypeError.
Proof.
  split.
  - apply (get_repo_stats_commit_fields
             (Sample.repo_of [Sample.commit_A; Sample.commit_B; Sample.commit_C])
             init Sample.commit_A [Sample.commit_B; Sample.commit_C]).
    + reflexivity.
    + apply map_Forall_empty.
  - apply (get_repo_stats_commit_fields
             (Sample.detached_repo
                [Sample.commit_A; Sample.commit_B; Sample.commit_C])
             init Sample.commit_A [Sample.commit_B; Sample.commit_C]).
    + reflexivity.
    + apply map_Forall_empty.
Defined.

(** The age is the whole number of days between the oldest and the newest
    commit: never negative on a log that is newest first, and 0 when the
    two are less than a day apart, as for a single commit. *)
Theorem get_repo_stats_age repo (s : Engine) (c : Commit) log head :
  iter_commits repo = inr (c :: log) ->
  active_branch repo = inr head ->
  newest_first (c :: log) ->
  exists st s',
    get_repo_stats repo s = (inr st, s')
    /\ 0 <= age_days st
    /\ (let span := committed_date c
                    - committed_date (default c (last (c :: log))) in
        86400 * age_days st <= span < 86400 * (age_days st + 1))
    /\ (log = [] -> age_days st = 0).
Proof.
  intros Hlog Hhead Hnf.
  destruct (get_repo_stats_nonempty repo s c log head Hlog Hhead)
    as (infos & s' & _ & Hrun).
  eexists _, _. split; [exact Hrun|]. simpl.
  set (oldest := default c (last (c :: log))).
  assert (committed_date oldest <= committed_date c) as Hle.
  { apply (newest_first_last_head (c :: log)); [done| |done].
    subst oldest. destruct (last (c :: log)) eqn:E; [done|].
    by apply last_None in E. }
  split; [apply Z.div_pos; lia|]. split.
  - pose proof (Z.mul_div_le (committed_date c - committed_date oldest) 86400).
    pose proof (Z.mul_succ_div_gt (committed_date c - committed_date oldest) 86400).
    lia.
  - intros ->. subst oldest. simpl. by rewrite Z.sub_diag.
Qed.

Lemma get_repo_stats_age_witness :
  exists st s',
    get_repo_stats
      (Sample.repo_of [Sample.commit_A; Sample.commit_B; Sample.commit_C]) init
    = (inr st, s')
    /\ 0 <= age_days st
    /\ (let span := committed_date Sample.commit_A
                    - committed_date
                        (default Sample.commit_A
                           (last [Sample.commit_A; Sample.commit_B;
                                  Sample.commit_C])) in
        86400 * age_days st <= span < 86400 * (age_days st + 1))
    /\ ([Sample.commit_B; Sample.commit_C] = [] -> age_days st = 0).
Proof.
  apply (get_repo_stats_age
           (Sample.repo_of [Sample.commit_A; Sample.commit_B; Sample.commit_C])
           init Sample.commit_A [Sample.commit_B; Sample.commit_C]
           {| head_name := "main" |}).
  - reflexivity.
  - reflexivity.
  - unfold newest_first. simpl. repeat constructor; simpl; lia.
Defined.

(** ** Counting with a mapping: [d[k] += 1] *)

Lemma dict_incr_keys (d : list (string * nat)) (k : string) :
  forall k', k' ∈ (dict_incr d k).*1 <-> k' = k \/ k' ∈ d.*1.
Proof.
  induction d as [|[k0 n] d IH]; intros k'; simpl.
  - rewrite list_elem_of_singleton, elem_of_nil. tauto.
  - destruct (String.eqb k k0) eqn:E; simpl.
    + apply String.eqb_eq in E as ->. rewrite elem_of_cons. tauto.
    + rewrite !elem_of_cons, IH. tauto.
Qed.

Lemma dict_incr_NoDup (d : list (string * nat)) (k : string) :
  NoDup d.*1 -> NoDup (dict_incr d k).*1.
Proof.
  induction d as [|[k0 n] d IH]; simpl; intros Hnd.
  - apply NoDup_singleton.
  - apply NoDup_cons in Hnd as [Hk0 Hnd].
    destruct (String.eqb k k0) eqn:E; simpl.
    + by apply NoDup_cons.
    + apply NoDup_cons. split; [|by apply IH].
      rewrite dict_incr_keys. intros [->|Hin]; [|done].
      by rewrite String.eqb_refl in E.
Qed.

Lemma dict_incr_sum (d : list (string * nat)) (k : string) :
  sum_list (dict_incr d k).*2 = S (sum_list d.*2).
Proof.
  induction d as [|[k0 n] d IH]; [done|]. cbn [dict_incr].
  destruct (String.eqb k k0); rewrite !fmap_cons; cbn [snd];
    change (sum_list (?x :: ?l)) with (x + sum_list l)%nat.
  - done.
  - rewrite IH. lia.
Qed.

Lemma dict_get_incr (d : list (string * nat)) (k k' : string) :
  dict_get (dict_incr d k) k' 0%nat
  = (dict_get d k' 0%nat + if decide (k' = k) then 1 else 0)%nat.
Proof.
  induction d as [|[k0 n] d IH]; simpl.
  - destruct (decide (k' = k)) as [->|Hne].
    + by rewrite String.eqb_refl.
    + apply String.eqb_neq in Hne. by rewrite Hne.
  - destruct (String.eqb k k0) eqn:E; simpl.
    + apply String.eqb_eq in E as ->.
      destruct (decide (k' = k0)) as [->|Hne].
      * rewrite String.eqb_refl. lia.
      * apply String.eqb_neq in Hne. rewrite Hne. lia.
    + destruct (String.eqb k' k0) eqn:E'; [|apply IH].
      apply String.eqb_eq in E' as ->.
      rewrite decide_False; [lia|]. intros ->. by rewrite String.eqb_refl in E.
Qed.

(** An entry of a mapping without repeated keys is what [get] returns. *)
Lemma dict_get_elem_of (d : list (string * nat)) (k : string) (n : nat) :
  NoDup d.*1 -> (k, n) ∈ d -> dict_get d k 0%nat = n.
Proof.
  induction d as [|[k0 n0] d IH]; simpl; intros Hnd Hin.
  - by apply elem_of_nil in Hin.
  - apply NoDup_cons in Hnd as [Hk0 Hnd].
    apply elem_of_cons in Hin as [Heq|Hin].
    + injection Heq as -> ->. by rewrite String.eqb_refl.
    + destruct (String.eqb k k0) eqn:E; [|by apply IH].
      apply String.eqb_eq in E as ->. exfalso. apply Hk0.
      by apply (list_elem_of_fmap_2 fst _ (k0, n)).
Qed.

Lemma dict_get_absent (d : list (string * nat)) (k : string) :
  k ∉ d.*1 -> dict_get d k 0%nat = 0%nat.
Proof.
  induction d as [|[k0 n0] d IH]; simpl; intros Hk; [done|].
  rewrite not_elem_of_cons in Hk. destruct Hk as [Hne Hk].
  apply String.eqb_neq in Hne. rewrite Hne. by apply IH.
Qed.

(** Counting the elements of a list, from a mapping [d] on *)
Section Tally.
Context {X : Type} (f : X -> string).

Lemma tally_keys (l : list X) (d : list (string * nat)) (k : string) :
  k ∈ (foldl (fun d x => dict_incr d (f x)) d l).*1
  <-> k ∈ d.*1 \/ k ∈ f <$> l.
Proof.
  revert d. induction l as [|x l IH]; intros d; simpl.
  - rewrite elem_of_nil. tauto.
  - rewrite IH, dict_incr_keys, elem_of_cons. tauto.
Qed.

Lemma tally_NoDup (l : list X) (d : list (string * nat)) :
  NoDup d.*1 -> NoDup (foldl (fun d x => dict_incr d (f x)) d l).*1.
Proof.
  revert d. induction l as [|x l IH]; intros d Hd; simpl; [done|].
  by apply IH, dict_incr_NoDup.
Qed.

Lemma tally_sum (l : list X) (d : list (string * nat)) :
  sum_list (foldl (fun d x => dict_incr d (f x)) d l).*2
  = (sum_list d.*2 + length l)%nat.
Proof.
  revert d. induction l as [|x l IH]; intros d; simpl; [lia|].
  rewrite IH, dict_incr_sum. lia.
Qed.

Lemma tally_get (l : list X) (d : list (string * nat)) (k : string) :
  dict_get (foldl (fun d x => dict_incr d (f x)) d l) k 0%nat
  = (dict_get d k 0%nat + occurrences k (f <$> l))%nat.
Proof.
  revert d. induction l as [|x l IH]; intros d.
  - unfold occurrences. simpl. lia.
  - cbn [foldl]. rewrite IH, dict_get_incr. unfold occurrences.
    rewrite fmap_cons, filter_cons.
    destruct (decide (k = f x)) as [->|Hne].
    + rewrite decide_True by done. simpl. lia.
    + rewrite decide_False by congruence. lia.
Qed.

End Tally.

Lemma occurrences_pos (k : string) (l : list string) :
  k ∈ l <-> (0 < occurrences k l)%nat.
Proof.
  unfold occurrences. split.
  - intros Hin. assert (k ∈ filter (fun x => x = k) l) as Hf
      by by apply list_elem_of_filter.
    destruct (filter _ l); [by apply elem_of_nil in Hf|simpl; lia].
  - intros Hpos. destruct (filter (fun x => x = k) l) as [|y t] eqn:E;
      [simpl in Hpos; lia|].
    assert (y ∈ filter (fun x => x = k) l) as Hy
      by (rewrite E; apply list_elem_of_here).
    by apply list_elem_of_filter in Hy as [-> ?].
Qed.

(** ** The file census: [_analyze_languages] and the primary language *)

Lemma analyze_languages_tally (filepaths : list string) :
  _analyze_languages filepaths
  = foldl (fun d x => dict_incr d (language_of x)) [] filepaths.
Proof. reflexivity. Qed.

(** [max]: the entry returned is the first one with the largest value. *)
Lemma max_key_first (d : list (string * nat)) (k : string) (n : nat) :
  max_key d = Some (k, n) ->
  exists pre post,
    d = pre ++ (k, n) :: post
    /\ Forall (fun kv => (kv.2 < n)%nat) pre
    /\ Forall (fun kv => (kv.2 <= n)%nat) post.
Proof.
  revert k n. induction d as [|[k0 n0] d IH]; intros k n; simpl; [done|].
  destruct (max_key d) as [[k1 n1]|] eqn:E.
  - destruct (n0 <? n1)%nat eqn:Elt.
    + apply Nat.ltb_lt in Elt. intros [= -> ->].
      destruct (IH _ _ eq_refl) as (pre & post & -> & Hpre & Hpost).
      exists ((k0, n0) :: pre), post. split; [done|].
      split; [by constructor|done].
    + apply Nat.ltb_ge in Elt. intros [= -> ->].
      destruct (IH _ _ eq_refl) as (pre & post & Hd & Hpre & Hpost).
      exists [], d. split; [done|]. split; [constructor|].
      rewrite Hd. apply Forall_app. split.
      * eapply Forall_impl; [exact Hpre|]. simpl. intros; lia.
      * constructor; [simpl; lia|].
        eapply Forall_impl; [exact Hpost|]. simpl. intros; lia.
  - intros [= -> ->]. destruct d as [|[k1 n1] d]; [|simpl in E].
    + exists [], []. repeat split; constructor.
    + by destruct (max_key d) as [[k2 n2]|]; [destruct (n1 <? n2)%nat|].
Qed.

Lemma max_key_None (d : list (string * nat)) : max_key d = None <-> d = [].
Proof.
  split; [|by intros ->].
  destruct d as [|[k n] d]; [done|]. simpl.
  by destruct (max_key d) as [[k1 n1]|]; [destruct (n <? n1)%nat|].
Qed.

(** [_analyze_languages] files each path under exactly one language, that
    of its lower-cased suffix or "Other": the counts of the languages add
    up to the number of paths, no language is listed twice, every path has
    its language listed, and each count is the number of paths of that
    language, never 0. *)
Theorem analyze_languages_census (filepaths : list string) :
  sum_list (_analyze_languages filepaths).*2 = length filepaths
  /\ NoDup (_analyze_languages filepaths).*1
  /\ (forall path, path ∈ filepaths ->
        language_of path ∈ (_analyze_languages filepaths).*1)
  /\ (forall lang n, (lang, n) ∈ _analyze_languages filepaths ->
        (0 < n)%nat /\ n = occurrences lang (language_of <$> filepaths)).
Proof.
  rewrite analyze_languages_tally.
  split; [by rewrite tally_sum|].
  split; [apply tally_NoDup, NoDup_nil_2|].
  split.
  - intros path Hin. apply tally_keys. right. by apply list_elem_of_fmap_2.
  - intros lang n Hin.
    pose proof (dict_get_elem_of _ _ _
                  (tally_NoDup language_of _ [] (NoDup_nil_2)) Hin) as Hget.
    rewrite tally_get in Hget. simpl in Hget. subst n. split; [|done].
    apply occurrences_pos.
    apply (list_elem_of_fmap_2 fst) in Hin. simpl in Hin.
    apply tally_keys in Hin as [Hin|Hin]; [by apply elem_of_nil in Hin|done].
Qed.

(** The paths of the sample tree's blobs: two Python and two JavaScript
    files, one of them with an upper-case extension, and a file without
    extension; Python, listed first, would win the tie. *)
Lemma analyze_languages_sample :
  let languages :=
    _analyze_languages
      (item_path <$> filter (fun item => item_type item = "blob") SampleMore.tree) in
  languages = [("Python", 2%nat); ("JavaScript", 2%nat); ("Other", 1%nat)]
  /\ fst <$> max_key languages = Some "Python".
Proof. vm_compute. by split. Qed.

(** Whatever the tree of the head commit holds, the statistics
    [get_repo_stats] returns count no file, list no language and name no
    primary language: an entry of the tree has no attribute [a_path], so
    the census raises on the first blob and the handler puts the fallback
    in its place, and a tree without a blob has nothing to count. *)
Theorem get_repo_stats_no_census repo (s s' : Engine) (st : RepoStats) :
  get_repo_stats repo s = (inr st, s') ->
  file_count st = 0%nat /\ languages st = [] /\ primary_language st = None.
Proof.
  intros Hrun.
  destruct (get_repo_stats_returned _ _ _ _ Hrun) as (log & Hlog & Hhead).
  destruct log as [|c log].
  - unfold get_repo_stats, call in Hrun.
    unfold mbind at 1, M_bind at 1 in Hrun. rewrite Hlog in Hrun.
    unfold mbind, M_bind in Hrun.
    destruct (current_branch_or_unknown repo s) as [[e|b] s1]; [done|].
    by injection Hrun as <- <-.
  - destruct Hhead as [head Hhead]; [done|].
    destruct (get_repo_stats_nonempty repo s c log head Hlog Hhead)
      as (infos & s1 & _ & Hrun').
    rewrite Hrun in Hrun'. by injection Hrun' as -> ->.
Qed.

Lemma get_repo_stats_no_census_witness :
  let repo := SampleMore.repo_with SampleMore.log3 (Some SampleMore.tree)
                (fun _ => None) in
  length (filter (fun item => item_type item = "blob") SampleMore.tree) = 5%nat
  /\ exists st s',
       get_repo_stats repo init = (inr st, s')
       /\ file_count st = 0%nat /\ languages st = []
       /\ primary_language st = None.
Proof.
  split; [reflexivity|].
  destruct (get_repo_stats_nonempty
              (SampleMore.repo_with SampleMore.log3 (Some SampleMore.tree)
                 (fun _ => None))
              init Sample.commit_A [Sample.commit_B; Sample.commit_C]
              {| head_name := "main" |} eq_refl eq_refl)
    as (infos & s' & _ & Hrun).
  eexists _, _. split; [exact Hrun|].
  exact (get_repo_stats_no_census _ _ _ _ Hrun).
Defined.

(** ** [get_file_history]: the file cache and the working tree *)


#[local] Instance file_cache_grows_preorder : PreOrder file_cache_grows.
Proof.
  split; [intros s; unfold file_cache_grows; reflexivity|].
  intros s1 s2 s3 H1 H2. unfold file_cache_grows in *. by etransitivity.
Qed.

Lemma quiet_file_cache_grows (s s' : Engine) : quiet s s' -> file_cache_grows s s'.
Proof. intros [_ H]. unfold file_cache_grows. by rewrite H. Qed.

(** Every method leaves the entries of the file cache as they are, whatever
    the repository it is run on. *)
Lemma run_file_cache_grows repo (o : op) (s : Engine) :
  file_cache_grows s (run repo o s).2.
Proof.
  destruct o as [|query m|fp|count| |commit]; simpl.
  - apply quiet_file_cache_grows, get_repo_stats_quiet.
  - apply quiet_file_cache_grows, search_commits_quiet.
  - destruct (get_file_history_cases repo fp s)
      as [(h & E & ->)|[(E & Hq & h & s' & -> & _ & _ & Hfc)
                       |(E & Hq & e & He & ->)]]; simpl.
    + reflexivity.
    + unfold file_cache_grows. rewrite Hfc. by apply insert_subseteq.
    + reflexivity.
  - apply quiet_file_cache_grows, get_recent_commits_quiet.
  - apply quiet_file_cache_grows, get_current_context_quiet.
  - apply quiet_file_cache_grows, commit_to_info_quiet.
Qed.

Lemma run_all_file_cache_grows repo (os : list op) (s : Engine) :
  file_cache_grows s (run_all repo os s).
Proof.
  revert s. induction os as [|o os IH]; intros s; simpl; [reflexivity|].
  etransitivity; [apply run_file_cache_grows|apply IH].
Qed.

(** A history that [get_file_history] returns is afterwards the entry of
    the file cache for its path. *)
Lemma get_file_history_returned repo path (s s' : Engine) (h : FileHistory) :
  get_file_history repo path s = (inr h, s') ->
  _file_cache s' !! path = Some h.
Proof.
  intros Hrun.
  destruct (get_file_history_cases repo path s)
    as [(h' & E & Hrun')|[(E & Hq & h' & s1 & Hrun' & _ & _ & Hfc)
                         |(E & Hq & e & He & Hrun')]];
    rewrite Hrun in Hrun'; [| |done].
  - by injection Hrun' as -> ->.
  - injection Hrun' as -> ->. rewrite Hfc. apply lookup_insert_eq.
Qed.

(** The history of a path is computed once: whatever [get_file_history]
    returned for a path it returns again, leaving the engine as it is,
    after any further method calls and whatever the repository has become
    in the meantime. *)
Theorem get_file_history_cached repo repo' path (s s1 : Engine)
    (h : FileHistory) (os : list op) :
  get_file_history repo path s = (inr h, s1) ->
  get_file_history repo' path (run_all repo' os s1)
  = (inr h, run_all repo' os s1).
Proof.
  intros Hrun. apply get_file_history_hit.
  eapply lookup_weaken; [by eapply get_file_history_returned|].
  apply run_all_file_cache_grows.
Qed.

Lemma get_file_history_cached_witness :
  let repo := Sample.repo_of [Sample.commit_A; Sample.commit_B; Sample.commit_C] in
  let os := [GetRepoStats; GetFileHistory "README.md"] in
  exists h s1,
    get_file_history repo "src/timeout.py" init = (inr h, s1)
    /\ total_commits h = 2%nat
    /\ get_file_history Sample.unborn_repo "src/timeout.py"
         (run_all Sample.unborn_repo os s1)
       = (inr h, run_all Sample.unborn_repo os s1).
Proof.
  eexists _, _. split; [vm_compute; reflexivity|]. split; [reflexivity|].
  apply (get_file_history_cached
           (Sample.repo_of [Sample.commit_A; Sample.commit_B; Sample.commit_C])
           Sample.unborn_repo "src/timeout.py" init).
  vm_compute. reflexivity.
Defined.









(** The sample working tree: the text file with commits gets its 3 lines
    counted, the binary file and the file without commits get none. *)
Lemma get_file_history_sample_lines :
  let repo := SampleMore.repo_with SampleMore.log3 (Some SampleMore.tree)
                SampleMore.files in
  match (get_file_history repo "src/timeout.py" init).1,
        (get_file_history repo "logo.bin" init).1 with
  | inr h, inr h' =>
      lines_of_code h = Some 3%nat /\ total_commits h = 2%nat
      /\ exists_ h' = true /\ lines_of_code h' = None
  | _, _ => False
  end.
Proof. vm_compute. by repeat split. Qed.

(** ** [get_current_context] *)

(** [get_current_context] never raises: the branch is "detached" when
    reading the active branch raises, the current commit is absent when the head commit
    cannot be read and is otherwise its record, and the modified and the
    staged files are both empty as soon as one of the two diffs fails. *)
Theorem get_current_context_fallbacks repo (s : Engine) :
  cache_keyed s ->
  exists ctx s',
    get_current_context repo s = (inr ctx, s')
    /\ ctx_branch ctx = match active_branch repo with
                        | inr head => head_name head
                        | inl _ => "detached"
                        end
    /\ ctx_repo_path ctx = repo_path repo
    /\ match head_commit repo with
       | Some c => exists info, ctx_current_commit ctx = Some info
                                /\ hash info = hexsha c
       | None => ctx_current_commit ctx = None
       end
    /\ match index_diff_worktree repo, index_diff_head repo with
       | Some modified, Some staged =>
           ctx_modified_files ctx = modified /\ ctx_staged_files ctx = staged
       | _, _ => ctx_modified_files ctx = [] /\ ctx_staged_files ctx = []
       end.
Proof.
  intros K. unfold get_current_context, mbind, M_bind, try_except, call.
  destruct (active_branch repo) as [e|b]; simpl;
    (destruct (head_commit repo) as [c|]; simpl;
     [ destruct (commit_to_info_hash c s K) as (info & s1 & -> & Hh & _); simpl
     | ]);
    destruct (index_diff_worktree repo), (index_diff_head repo); simpl;
    eexists _, _; (split; [reflexivity|]); simpl; repeat split; eauto.
Qed.

Lemma get_current_context_fallbacks_witness :
  let repo := Sample.repo_of [Sample.commit_A; Sample.commit_B] in
  exists ctx s',
    get_current_context repo init = (inr ctx, s')
    /\ ctx_branch ctx = match active_branch repo with
                        | inr head => head_name head
                        | inl _ => "detached"
                        end
    /\ ctx_repo_path ctx = repo_path repo
    /\ match head_commit repo with
       | Some c => exists info, ctx_current_commit ctx = Some info
                                /\ hash info = hexsha c
       | None => ctx_current_commit ctx = None
       end
    /\ match index_diff_worktree repo, index_diff_head repo with
       | Some modified, Some staged =>
           ctx_modified_files ctx = modified /\ ctx_staged_files ctx = staged
       | _, _ => ctx_modified_files ctx = [] /\ ctx_staged_files ctx = []
       end.
Proof.
  apply (get_current_context_fallbacks
           (Sample.repo_of [Sample.commit_A; Sample.commit_B]) init).
  apply map_Forall_empty.
Defined.

(** ** [find_related_files] *)

Import GitRest.

Lemma related_step_relation (file_stem : string) (limit : Z)
    (related : list (string * string)) (item : TreeEntry) :
  related_step file_stem limit related item
  = if limit <=? Z.of_nat (length related) then related
    else related ++ option_list (relation_of file_stem item).
Proof.
  unfold related_step, relation_of.
  destruct (String.eqb (entry_type item) "blob"); simpl.
  - destruct (limit <=? Z.of_nat (length related)); [done|].
    destruct (entry_data item) as [content|]; [|by rewrite app_nil_r].
    destruct (contains file_stem content); [|by rewrite app_nil_r].
    by destruct (contains ("import " +:+ file_stem) content
                 || contains ("from " +:+ file_stem) content).
  - destruct (limit <=? Z.of_nat (length related)); [done|].
    by rewrite app_nil_r.
Qed.

(** The loop collects the relations of the entries, in order, until it has
    [limit] of them. *)
Lemma related_loop_closed_form (file_stem : string) (limit : Z)
    (items : list TreeEntry) (related : list (string * string)) :
  foldl (related_step file_stem limit) related items
  = related ++ take (Z.to_nat limit - length related)
                 (omap (relation_of file_stem) items).
Proof.
  revert related. induction items as [|item items IH]; intros related.
  - simpl. by rewrite take_nil, app_nil_r.
  - cbn [foldl]. rewrite IH, related_step_relation.
    assert (omap (relation_of file_stem) (item :: items)
            = option_list (relation_of file_stem item)
              ++ omap (relation_of file_stem) items) as ->
      by (simpl; by destruct (relation_of file_stem item)).
    destruct (limit <=? Z.of_nat (length related)) eqn:E.
    + apply Z.leb_le in E.
      replace (Z.to_nat limit - length related)%nat with 0%nat by lia.
      by rewrite !take_0.
    + apply Z.leb_gt in E.
      destruct (relation_of file_stem item) as [r|]; simpl.
      * rewrite <- app_assoc, length_app. simpl. f_equal.
        replace (Z.to_nat limit - length related)%nat
          with (S (Z.to_nat limit - (length related + 1)))%nat by lia.
        done.
      * by rewrite app_nil_r.
Qed.

(** [find_related_files] never raises and returns at most [limit] pairs
    (none for a [limit] that is not positive, or when the tree cannot be
    traversed): the relations of the first [limit] related entries, in the
    order of the traversal. *)
Theorem find_related_files_first (tree : option (list TreeEntry))
    (filepath : string) (limit : Z) :
  Z.of_nat (length (find_related_files tree filepath limit)) <= Z.max 0 limit
  /\ find_related_files tree filepath limit
     = take (Z.to_nat limit)
         (omap (relation_of (stem filepath)) (default [] tree)).
Proof.
  assert (find_related_files tree filepath limit
          = take (Z.to_nat limit)
              (omap (relation_of (stem filepath)) (default [] tree))) as Heq.
  { destruct tree as [items|]; simpl; [|by rewrite take_nil].
    rewrite related_loop_closed_form. simpl. by rewrite Nat.sub_0_r. }
  split; [|done]. rewrite Heq, length_take. lia.
Qed.

(** Every pair [find_related_files] returns is the path of a blob of the
    tree whose text could be read and contains the stem of the file name;
    the kind is "imports" when the text contains "import" or "from"
    followed by a space and the stem, and "references" otherwise. *)
Theorem find_related_files_sound (items : list TreeEntry)
    (filepath : string) (limit : Z) (path kind : string) :
  (path, kind) ∈ find_related_files (Some items) filepath limit ->
  exists item content,
    item ∈ items
    /\ entry_type item = "blob"
    /\ entry_path item = path
    /\ entry_data item = Some content
    /\ contains (stem filepath) content = true
    /\ kind = (if contains ("import " +:+ stem filepath) content
                  || contains ("from " +:+ stem filepath) content
               then "imports" else "references").
Proof.
  unfold find_related_files. rewrite related_loop_closed_form. simpl.
  intros Hin%elem_of_take_1.
  apply list_elem_of_omap in Hin as (item & Hitem & Hrel).
  unfold relation_of in Hrel.
  destruct (String.eqb (entry_type item) "blob") eqn:Et; [|done].
  apply String.eqb_eq in Et.
  destruct (entry_data item) as [content|] eqn:Ed; [|done].
  destruct (contains (stem filepath) content) eqn:Ec; [|done].
  injection Hrel as <- <-. by exists item, content.
Qed.

Lemma find_related_files_sound_witness :
  exists item content,
    item ∈ SampleMore.entries
    /\ entry_type item = "blob"
    /\ entry_path item = "README.md"
    /\ entry_data item = Some content
    /\ contains (stem "src/timeout.py") content = true
    /\ "references"
       = (if contains ("import " +:+ stem "src/timeout.py") content
             || contains ("from " +:+ stem "src/timeout.py") content
          then "imports" else "references").
Proof.
  apply (find_related_files_sound SampleMore.entries "src/timeout.py" 10
           "README.md" "references").
  vm_compute. apply list_elem_of_further, list_elem_of_here.
Defined.

(** The sample tree searched for the relatives of src/timeout.py: the blob
    that imports it, then the one that mentions it; with a limit of 1 only
    the first. *)
Lemma find_related_files_sample :
  find_related_files (Some SampleMore.entries) "src/timeout.py" 10
  = [("src/app.py", "imports"); ("README.md", "references")]
  /\ find_related_files (Some SampleMore.entries) "src/timeout.py" 1
     = [("src/app.py", "imports")]
  /\ find_related_files None "src/timeout.py" 10 = [].
Proof. vm_compute. by repeat split. Qed.

(** ** [_calculate_file_churn] *)

Lemma changed_paths_cons (c : Commit) (commits : list Commit) :
  changed_paths (c :: commits)
  = stats_files (stats_or_fallback c) ++ changed_paths commits.
Proof. reflexivity. Qed.

(** The loop counts the changed paths of the commits whose statistics can
    be computed, and touches neither cache. *)
Lemma churn_loop_tally (commits : list Commit) (d : list (string * nat))
    (s : Engine) :
  exists s',
    churn_loop commits d s
    = (inr (foldl (fun d x => dict_incr d (id x)) d (changed_paths commits)), s')
    /\ _commit_cache s' = _commit_cache s /\ _file_cache s' = _file_cache s.
Proof.
  revert d s. induction commits as [|c commits IH]; intros d s.
  - by exists s.
  - cbn [churn_loop]. unfold mbind at 1, M_bind at 1, try_except.
    unfold mbind at 1, M_bind at 1, stats, stats_or_fallback.
    rewrite changed_paths_cons, foldl_app. unfold stats_or_fallback.
    destruct (c_stats c) as [st|]; simpl;
      match goal with |- context [churn_loop commits ?d' ?s'] =>
        destruct (IH d' s') as (s2 & -> & H1 & H2) end;
      by exists s2.
Qed.

Lemma file_churn_closed_form (commits : list Commit) (s : Engine) :
  exists s',
    _calculate_file_churn commits s
    = (inr (take 10 (sort_desc snd
                       (foldl (fun d x => dict_incr d (id x)) []
                              (changed_paths commits)))), s')
    /\ _commit_cache s' = _commit_cache s /\ _file_cache s' = _file_cache s.
Proof.
  unfold _calculate_file_churn, mbind, M_bind.
  destruct (churn_loop_tally commits [] s) as (s' & -> & H1 & H2).
  by exists s'.
Qed.

(** [_calculate_file_churn] never raises and changes neither cache; it
    returns at most 10 files, each once, in descending order of their
    counts. *)
Theorem file_churn_shape (commits : list Commit) (s : Engine) :
  exists out s',
    _calculate_file_churn commits s = (inr out, s')
    /\ _commit_cache s' = _commit_cache s
    /\ _file_cache s' = _file_cache s
    /\ (length out <= 10)%nat
    /\ descending snd out
    /\ NoDup out.*1.
Proof.
  destruct (file_churn_closed_form commits s) as (s' & Hrun & H1 & H2).
  eexists _, s'. split; [exact Hrun|]. split; [done|]. split; [done|].
  split; [rewrite length_take; lia|].
  split; [apply descending_take, sort_desc_descending|].
  rewrite fmap_take. eapply sublist_NoDup; [|apply sublist_take].
  rewrite sort_desc_perm. apply (tally_NoDup id), NoDup_nil_2.
Qed.

(** The count reported for a file is the number of times the commits with
    computable statistics changed it, commits without statistics counting
    for nothing; a changed file that is not reported is left out because
    10 files are reported, none of them changed less often. *)
Theorem file_churn_counts (commits : list Commit) (s : Engine) :
  exists out s',
    _calculate_file_churn commits s = (inr out, s')
    /\ (forall f n, (f, n) ∈ out ->
          (0 < n)%nat /\ n = occurrences f (changed_paths commits))
    /\ (forall g, g ∈ changed_paths commits -> g ∉ out.*1 ->
          length out = 10%nat
          /\ forall f n, (f, n) ∈ out ->
                (occurrences g (changed_paths commits) <= n)%nat).
Proof.
  destruct (file_churn_closed_form commits s) as (s' & Hrun & _).
  eexists _, s'. split; [exact Hrun|].
  set (d := foldl (fun d x => dict_incr d (id x)) [] (changed_paths commits)).
  assert (NoDup d.*1) as Hnd by apply (tally_NoDup id), NoDup_nil_2.
  assert (forall f n, (f, n) ∈ d ->
            (0 < n)%nat /\ n = occurrences f (changed_paths commits)) as Hd.
  { intros f n Hin.
    pose proof (dict_get_elem_of _ _ _ Hnd Hin) as Hget.
    unfold d in Hget. rewrite (tally_get id) in Hget. simpl in Hget.
    rewrite list_fmap_id in Hget. subst n. split; [|done].
    apply occurrences_pos.
    apply (list_elem_of_fmap_2 fst) in Hin. simpl in Hin.
    apply (tally_keys id) in Hin as [Hin|Hin];
      [by apply elem_of_nil in Hin|by rewrite list_fmap_id in Hin]. }
  split.
  - intros f n Hin%elem_of_take_1. apply Hd. by apply elem_of_sort_desc in Hin.
  - intros g Hg Hout.
    assert ((g, occurrences g (changed_paths commits)) ∈ sort_desc snd d) as Hin.
    { apply elem_of_sort_desc.
      assert (g ∈ d.*1) as (kv & -> & Hkv)%list_elem_of_fmap.
      { apply (tally_keys id). right. by rewrite list_fmap_id. }
      destruct kv as [g' m]. simpl. by destruct (Hd _ _ Hkv) as [_ <-]. }
    rewrite <- (take_drop 10 (sort_desc snd d)) in Hin.
    apply elem_of_app in Hin as [Hin|Hin].
    { exfalso. apply Hout. by apply (list_elem_of_fmap_2 fst) in Hin. }
    split.
    + rewrite length_take. apply Nat.min_l.
      destruct (decide (10 <= length (sort_desc snd d))%nat) as [|Hlt]; [done|].
      rewrite drop_ge in Hin by lia. by apply elem_of_nil in Hin.
    + intros f n Hfn.
      pose proof (sort_desc_descending snd d) as Hs. unfold descending in Hs.
      rewrite <- (take_drop 10 (sort_desc snd d)) in Hs.
      apply (StronglySorted_app_1_elem_of _ _ _ _ _ Hs Hfn Hin).
Qed.

(** Four commits, one of them without statistics: the file changed twice
    comes first, the others follow in the order they were first seen. *)
Lemma file_churn_sample :
  (_calculate_file_churn
     [Sample.commit_A; Sample.commit_nostats; Sample.commit_C; Sample.commit_B]
     init).1
  = inr [("src/timeout.py", 2%nat); ("README.md", 1%nat);
         ("redis/config.py", 1%nat)].
Proof. vm_compute. reflexivity. Qed.

(** * Further properties of the store *)

Section MemoryStore.
Import Storage StorageRest.

Lemma load_memories_cached (st st' : Store) (memories : list Memory) :
  _load_memories st = (inr memories, st') ->
  memories_file st' = memories_file st
  /\ _memories_cache st' = Some memories
  /\ _load_memories st' = (inr memories, st').
Proof.
  unfold _load_memories, mbind, M_bind, get_store. simpl.
  destruct st as [file [cached|]]; simpl.
  - intros [= -> <-]. by repeat split.
  - destruct file; simpl; [intros [= <- <-]|done|intros [= <- <-]]; by repeat split.
Qed.

Lemma load_memories_corrupt (st : Store) :
  _memories_cache st = None -> memories_file st = Corrupt ->
  _load_memories st = (inl StorageError, st).
Proof.
  intros Hc Hf. unfold _load_memories, mbind, M_bind, get_store. simpl.
  by rewrite Hc, Hf.
Qed.

(** The content component alone makes the score positive. *)
Lemma memory_score_content (query_lower : string) (memory : Memory) :
  contains query_lower (lower (content memory)) = true ->
  (5 <= memory_score query_lower memory)%nat.
Proof.
  intros Hc. unfold memory_score. cbv zeta. rewrite Hc, tags_score.
  repeat case_match; lia.
Qed.

(** A stored memory of positive score is found when the limit does not cut
    the result. *)
Lemma search_memories_finds (query : string) (limit : Z) (st st' : Store)
    (memories : list Memory) (memory : Memory) :
  _load_memories st = (inr memories, st') ->
  memory ∈ memories ->
  (0 < memory_score (lower query) memory)%nat ->
  Z.of_nat (length memories) <= limit ->
  exists out,
    search_memories query limit st = (inr out, st') /\ to_dict memory ∈ out.
Proof.
  intros Hload Hin Hpos Hlim. eexists. split; [by apply search_memories_loaded|].
  rewrite slice_to_all.
  - apply (list_elem_of_fmap_2' _ _ (memory_score (lower query) memory, memory));
      [|done].
    apply elem_of_sort_desc, elem_of_scored_memories. done.
  - rewrite sort_desc_length. unfold scored_memories_of.
    etransitivity; [|exact Hlim]. apply inj_le.
    etransitivity; [apply length_filter|]. by rewrite length_fmap.
Qed.

(** What [store_memory] does to a store whose memories load *)
Lemma store_memory_run (memory_id now : string) (outcome : write_outcome)
    (content' : string) (enhanced : option string)
    (context' : option (list (string * value))) (memory_type' : string)
    (tags' : option (list string)) (st st1 : Store) (old : list Memory) :
  _load_memories st = (inr old, st1) ->
  let memory :=
    {| id := memory_id; content := content'; enhanced_content := enhanced;
       memory_type := memory_type'; context := default [] context';
       tags := default [] tags'; created_at := now |} in
  store_memory memory_id now outcome content' enhanced context' memory_type' tags' st
  = match outcome with
    | Written =>
        (inr memory_id,
         {| memories_file := Holds (old ++ [memory]); _memories_cache := None |})
    | WriteFailed remains =>
        (inl StorageError,
         {| memories_file := remains;
            _memories_cache := Some (old ++ [memory]) |})
    end.
Proof.
  intros Hload. unfold store_memory, mbind, M_bind. rewrite Hload.
  unfold append_to_cached, _save_memories, clear_memories_cache.
  by destruct outcome.
Qed.

(** A successful [store_memory] returns the new id and appends the memory
    to the file: the next load returns the old memories followed by the
    new one, with the given content, type and creation time, and with an
    empty context and no tags when none were given. *)
Theorem store_memory_appends (memory_id now content' memory_type' : string)
    (enhanced : option string) (context' : option (list (string * value)))
    (tags' : option (list string)) (st st1 : Store) (old : list Memory) :
  _load_memories st = (inr old, st1) ->
  exists memory st2 st3,
    store_memory memory_id now Written content' enhanced context' memory_type'
      tags' st = (inr memory_id, st2)
    /\ _load_memories st2 = (inr (old ++ [memory]), st3)
    /\ id memory = memory_id /\ content memory = content'
    /\ enhanced_content memory = enhanced /\ memory_type memory = memory_type'
    /\ context memory = default [] context' /\ tags memory = default [] tags'
    /\ created_at memory = now.
Proof.
  intros Hload. eexists _, _, _.
  split; [exact (store_memory_run memory_id now Written content' enhanced context'
                  memory_type' tags' st st1 old Hload)|].
  split; [reflexivity|]. by repeat split.
Qed.

Lemma store_memory_appends_witness :
  exists memory st2 st3,
    store_memory "m-4" "2024-02-01T00:00:00+00:00" Written
      "Keep the redis timeout at 30 s" None None "decision" (Some ["redis"])
      (Sample.store_of [Sample.memory_tagged; Sample.memory_content])
    = (inr "m-4", st2)
    /\ _load_memories st2
       = (inr ([Sample.memory_tagged; Sample.memory_content] ++ [memory]), st3)
    /\ id memory = "m-4" /\ content memory = "Keep the redis timeout at 30 s"
    /\ enhanced_content memory = None /\ memory_type memory = "decision"
    /\ context memory = default [] None /\ tags memory = default [] (Some ["redis"])
    /\ created_at memory = "2024-02-01T00:00:00+00:00".
Proof.
  apply (store_memory_appends "m-4" "2024-02-01T00:00:00+00:00"
           "Keep the redis timeout at 30 s" "decision" None None (Some ["redis"])
           (Sample.store_of [Sample.memory_tagged; Sample.memory_content])
           {| memories_file := Holds [Sample.memory_tagged; Sample.memory_content];
              _memories_cache := Some [Sample.memory_tagged; Sample.memory_content] |}).
  reflexivity.
Defined.

(** A memory stored with a content that contains the query is found by the
    next [search_memories], whenever the limit is at least the number of
    memories then stored. *)
Theorem store_then_search (memory_id now content' memory_type' query : string)
    (enhanced : option string) (context' : option (list (string * value)))
    (tags' : option (list string)) (limit : Z) (st st1 : Store)
    (old : list Memory) :
  _load_memories st = (inr old, st1) ->
  contains (lower query) (lower content') = true ->
  Z.of_nat (length old) < limit ->
  exists st2 out st3,
    store_memory memory_id now Written content' enhanced context' memory_type'
      tags' st = (inr memory_id, st2)
    /\ search_memories query limit st2 = (inr out, st3)
    /\ exists d, d ∈ out
         /\ d = to_dict {| id := memory_id; content := content';
                           enhanced_content := enhanced;
                           memory_type := memory_type';
                           context := default [] context';
                           tags := default [] tags'; created_at := now |}.
Proof.
  intros Hload Hc Hlim.
  set (memory := Build_Memory memory_id content' enhanced memory_type'
                   (default [] context') (default [] tags') now).
  destruct (search_memories_finds query limit
              {| memories_file := Holds (old ++ [memory]); _memories_cache := None |}
              {| memories_file := Holds (old ++ [memory]);
                 _memories_cache := Some (old ++ [memory]) |}
              (old ++ [memory]) memory) as (out & Hrun & Hin).
  - reflexivity.
  - apply elem_of_app. right. apply list_elem_of_here.
  - pose proof (memory_score_content (lower query) memory Hc). lia.
  - rewrite length_app. simpl. lia.
  - eexists _, out, _.
    split; [exact (store_memory_run memory_id now Written content' enhanced
                    context' memory_type' tags' st st1 old Hload)|].
    split; [exact Hrun|]. by exists (to_dict memory).
Qed.

Lemma store_then_search_witness :
  exists st2 out st3,
    store_memory "m-4" "2024-02-01T00:00:00+00:00" Written
      "Keep the Redis timeout at 30 s" None None "decision" None
      (Sample.store_of [Sample.memory_tagged; Sample.memory_content])
    = (inr "m-4", st2)
    /\ search_memories "redis" 10 st2 = (inr out, st3)
    /\ exists d, d ∈ out
         /\ d = to_dict {| id := "m-4";
                           content := "Keep the Redis timeout at 30 s";
                           enhanced_content := None;
                           memory_type := "decision";
                           context := default [] None;
                           tags := default [] None;
                           created_at := "2024-02-01T00:00:00+00:00" |}.
Proof.
  apply (store_then_search "m-4" "2024-02-01T00:00:00+00:00"
           "Keep the Redis timeout at 30 s" "decision" "redis" None None None 10
           (Sample.store_of [Sample.memory_tagged; Sample.memory_content])
           {| memories_file := Holds [Sample.memory_tagged; Sample.memory_content];
              _memories_cache := Some [Sample.memory_tagged; Sample.memory_content] |}
           [Sample.memory_tagged; Sample.memory_content]).
  - reflexivity.
  - reflexivity.
  - simpl. lia.
Defined.

(** When the write fails, [store_memory] raises the storage error, but the
    memory has already been appended to the list the cache holds: the file
    is as the failed write left it, while loads and searches of the same
    store see the memory that was not saved. *)
Theorem store_memory_failed_write (memory_id now content' memory_type' query : string)
    (enhanced : option string) (context' : option (list (string * value)))
    (tags' : option (list string)) (remains : file_state) (limit : Z)
    (st st1 : Store) (old : list Memory) :
  _load_memories st = (inr old, st1) ->
  contains (lower query) (lower content') = true ->
  Z.of_nat (length old) < limit ->
  exists memory st2 out,
    store_memory memory_id now (WriteFailed remains) content' enhanced context'
      memory_type' tags' st = (inl StorageError, st2)
    /\ memories_file st2 = remains
    /\ id memory = memory_id /\ content memory = content'
    /\ _load_memories st2 = (inr (old ++ [memory]), st2)
    /\ search_memories query limit st2 = (inr out, st2)
    /\ to_dict memory ∈ out.
Proof.
  intros Hload Hc Hlim.
  set (memory := Build_Memory memory_id content' enhanced memory_type'
                   (default [] context') (default [] tags') now).
  set (st2 := {| memories_file := remains;
                 _memories_cache := Some (old ++ [memory]) |}).
  destruct (search_memories_finds query limit st2 st2 (old ++ [memory]) memory)
    as (out & Hrun & Hin).
  - reflexivity.
  - apply elem_of_app. right. apply list_elem_of_here.
  - pose proof (memory_score_content (lower query) memory Hc). lia.
  - rewrite length_app. simpl. lia.
  - exists memory, st2, out.
    split; [exact (store_memory_run memory_id now (WriteFailed remains) content'
                    enhanced context' memory_type' tags' st st1 old Hload)|].
    by repeat split.
Qed.

Lemma store_memory_failed_write_witness :
  exists memory st2 out,
    store_memory "m-4" "2024-02-01T00:00:00+00:00"
      (WriteFailed (Holds [Sample.memory_tagged]))
      "Keep the Redis timeout at 30 s" None None "decision" None
      (Sample.store_of [Sample.memory_tagged])
    = (inl StorageError, st2)
    /\ memories_file st2 = Holds [Sample.memory_tagged]
    /\ id memory = "m-4" /\ content memory = "Keep the Redis timeout at 30 s"
    /\ _load_memories st2 = (inr ([Sample.memory_tagged] ++ [memory]), st2)
    /\ search_memories "redis" 10 st2 = (inr out, st2)
    /\ to_dict memory ∈ out.
Proof.
  apply (store_memory_failed_write "m-4" "2024-02-01T00:00:00+00:00"
           "Keep the Redis timeout at 30 s" "decision" "redis" None None None
           (Holds [Sample.memory_tagged]) 10
           (Sample.store_of [Sample.memory_tagged])
           {| memories_file := Holds [Sample.memory_tagged];
              _memories_cache := Some [Sample.memory_tagged] |}
           [Sample.memory_tagged]).
  - reflexivity.
  - reflexivity.
  - simpl. lia.
Defined.

End MemoryStore.

Section MemorySearchMore.
Import Storage StorageRest.

Lemma search_memories_raises (query : string) (limit : Z) (st : Store) :
  _load_memories st = (inl StorageError, st) ->
  search_memories query limit st = (inl StorageError, st).
Proof. intros H. unfold search_memories, mbind, M_bind. by rewrite H. Qed.

(** A store whose file cannot be loaded: every operation on the memories
    raises the storage error and leaves the store as it is; [store_memory]
    does not get to write. *)
Theorem corrupt_store_raises (st : Store) (query memory_type' : string)
    (limit : Z) (memory_id now content' : string) (outcome : write_outcome)
    (enhanced : option string) (context' : option (list (string * value)))
    (tags' : option (list string)) :
  _memories_cache st = None ->
  memories_file st = Corrupt ->
  search_memories query limit st = (inl StorageError, st)
  /\ get_memories_by_type memory_type' st = (inl StorageError, st)
  /\ store_memory memory_id now outcome content' enhanced context' memory_type'
       tags' st = (inl StorageError, st).
Proof.
  intros Hc Hf. pose proof (load_memories_corrupt st Hc Hf) as Hload.
  split; [by apply search_memories_raises|].
  unfold get_memories_by_type, store_memory, mbind, M_bind. by rewrite Hload.
Qed.

Lemma corrupt_store_raises_witness :
  let st := {| memories_file := Corrupt; _memories_cache := None |} in
  search_memories "redis" 10 st = (inl StorageError, st)
  /\ get_memories_by_type "decision" st = (inl StorageError, st)
  /\ store_memory "m-4" "2024-02-01T00:00:00+00:00" Written "note" None None
       "note" None st = (inl StorageError, st).
Proof.
  apply (corrupt_store_raises {| memories_file := Corrupt; _memories_cache := None |}
           "redis" "decision" 10 "m-4" "2024-02-01T00:00:00+00:00" "note" Written
           None None None).
  - reflexivity.
  - reflexivity.
Defined.

Lemma descending_scored {X} (g : X -> nat) (l : list (nat * X)) :
  Forall (fun sm => sm.1 = g sm.2) l ->
  descending fst l -> descending g (snd <$> l).
Proof.
  unfold descending. intros Hl Hs.
  induction Hs as [|x l Hs IH Hx]; [constructor|].
  apply Forall_cons in Hl as [Hx1 Hl]. rewrite fmap_cons.
  constructor; [by apply IH|].
  apply Forall_fmap. rewrite Forall_forall in Hx, Hl. apply Forall_forall.
  intros y Hy. simpl. rewrite <- Hx1, <- (Hl y Hy). by apply Hx.
Qed.

Lemma scored_memories_snd (query : string) (memories : list Memory) :
  snd <$> scored_memories_of query memories
  = filter (fun m => (0 < memory_score (lower query) m)%nat) memories.
Proof.
  unfold scored_memories_of. induction memories as [|m l IH]; [done|].
  rewrite fmap_cons, !filter_cons. simpl.
  destruct (decide (0 < memory_score (lower query) m)%nat);
    [rewrite fmap_cons; simpl|]; by rewrite IH.
Qed.

Lemma filter_scored {X} (g : X -> nat) (k : nat) (l : list (nat * X)) :
  Forall (fun sm => sm.1 = g sm.2) l ->
  filter (fun x => g x = k) (snd <$> l) = snd <$> filter (fun sm => sm.1 = k) l.
Proof.
  induction 1 as [|[n x] l Hx _ IH]; [done|]. simpl in Hx. subst n.
  rewrite fmap_cons, !filter_cons. simpl.
  destruct (decide (g x = k)); [rewrite fmap_cons; simpl|]; by rewrite IH.
Qed.

(** [search_memories] on a store that loads ranks the stored memories of
    positive score, each as often as it is stored, in descending order of
    score and, among those of one score, in the order of the store; it
    returns the dictionaries of the head of this ranking: its first
    [limit] entries for a limit that is not negative, and all but its last
    [-limit] entries for a negative limit. *)
Theorem search_memories_ranked (query : string) (limit : Z) (st st' : Store)
    (memories : list Memory) :
  _load_memories st = (inr memories, st') ->
  let score := memory_score (lower query) in
  exists ranking,
    ranking ≡ₚ filter (fun m => (0 < score m)%nat) memories
    /\ descending score ranking
    /\ (forall k, filter (fun m => score m = k) ranking
                  = filter (fun m => score m = k)
                      (filter (fun m => (0 < score m)%nat) memories))
    /\ search_memories query limit st
       = (inr (to_dict <$>
                 (if 0 <=? limit then take (Z.to_nat limit) ranking
                  else take (length ranking - Z.to_nat (- limit)) ranking)),
          st').
Proof.
  intros Hload. cbv zeta.
  set (L := sort_desc fst (scored_memories_of query memories)).
  exists (snd <$> L).
  assert (forall l, Forall (fun sm => sm ∈ scored_memories_of query memories) l ->
            Forall (fun sm : nat * Memory =>
                      sm.1 = memory_score (lower query) sm.2) l) as Hsc.
  { intros l Hl. eapply Forall_impl; [exact Hl|]. intros sm Hin.
    by apply elem_of_scored_memories in Hin as [? _]. }
  assert (Forall (fun sm : nat * Memory =>
                    sm.1 = memory_score (lower query) sm.2) L) as HL.
  { apply Hsc, Forall_forall. intros sm Hin. by apply elem_of_sort_desc in Hin. }
  split; [|split; [|split]].
  - rewrite <- scored_memories_snd. apply fmap_Permutation, sort_desc_perm.
  - apply descending_scored; [exact HL|apply sort_desc_descending].
  - intros k. rewrite <- scored_memories_snd.
    rewrite (filter_scored (memory_score (lower query)) k L HL).
    rewrite (filter_scored (memory_score (lower query)) k
               (scored_memories_of query memories))
      by (apply Hsc, Forall_forall; done).
    unfold L. by rewrite sort_desc_stable.
  - rewrite (search_memories_loaded _ _ _ _ _ Hload). fold L.
    unfold slice_to. rewrite length_fmap.
    destruct (0 <=? limit); by rewrite <- fmap_take, <- list_fmap_compose.
Qed.

Lemma search_memories_ranked_witness :
  let memories :=
    [Sample.memory_tagged; Sample.memory_content; Sample.memory_other] in
  let score := memory_score (lower "redis") in
  exists ranking,
    ranking ≡ₚ filter (fun m => (0 < score m)%nat) memories
    /\ descending score ranking
    /\ (forall k, filter (fun m => score m = k) ranking
                  = filter (fun m => score m = k)
                      (filter (fun m => (0 < score m)%nat) memories))
    /\ search_memories "redis" (-1) (Sample.store_of memories)
       = (inr (to_dict <$>
                 (if 0 <=? -1 then take (Z.to_nat (-1)) ranking
                  else take (length ranking - Z.to_nat (- -1)) ranking)),
          {| memories_file := Holds memories;
             _memories_cache := Some memories |}).
Proof.
  apply (search_memories_ranked "redis" (-1)
           (Sample.store_of
              [Sample.memory_tagged; Sample.memory_content; Sample.memory_other])).
  reflexivity.
Defined.

(** The sample store with a limit of -1: of the ranking, the content match
    and then the tag match, the last entry is cut. *)
Lemma search_memories_negative_limit :
  (search_memories "redis" (-1)
     (Sample.store_of
        [Sample.memory_tagged; Sample.memory_content; Sample.memory_other])).1
  = inr [to_dict Sample.memory_content].
Proof. reflexivity. Qed.

(** [search_memories] writes nothing: it leaves the file as it is, and asked
    again it gives the same outcome, the same dictionaries or the same
    error, and the same store. *)
Theorem search_memories_repeatable (query : string) (limit : Z) (st : Store) :
  memories_file (search_memories query limit st).2 = memories_file st
  /\ search_memories query limit (search_memories query limit st).2
     = search_memories query limit st.
Proof.
  destruct (load_memories_error st) as [(memories & st' & Hload)|Hload].
  - destruct (load_memories_cached _ _ _ Hload) as (Hf & _ & Hload').
    rewrite (search_memories_loaded _ _ _ _ _ Hload). simpl.
    split; [done|]. by rewrite (search_memories_loaded _ _ _ _ _ Hload').
  - rewrite (search_memories_raises _ _ _ Hload). simpl.
    split; [done|]. by apply search_memories_raises.
Qed.

End MemorySearchMore.

(** ** Queries and explanations *)

(** A successful [store_query] keeps the newest 1000 records: the file then
    holds the new record last, preceded by the newest 999 of the records
    it held, all of them when they were fewer than 1000, and the cache is
    cleared. *)
Theorem store_query_keeps_newest (query_id now question' response' : string)
    (context' : list (string * Storage.value)) (st st1 : Queries.Store)
    (old : list Queries.QueryRecord) :
  Queries._load_queries st = (inr old, st1) ->
  exists record st2,
    Queries.store_query query_id now Queries.Written question' response'
      context' st = (inr query_id, st2)
    /\ Queries.queries_file st2
       = Queries.Holds (drop (length old - 999) old ++ [record])
    /\ Queries._queries_cache st2 = None
    /\ Queries.id record = query_id
    /\ Queries.question record = question'
    /\ Queries.response record = response'
    /\ (length (drop (length old - 999) old ++ [record]) <= 1000)%nat
    /\ ((length old < 1000)%nat -> drop (length old - 999) old = old).
Proof.
  intros Hload.
  set (record := Queries.Build_QueryRecord query_id question' response'
                   context' now).
  assert ((length old < 1000)%nat -> drop (length old - 999) old = old) as Hsmall.
  { intros Hlt. replace (length old - 999)%nat with 0%nat by lia. done. }
  exists record,
    {| Queries.queries_file :=
         Queries.Holds (drop (length old - 999) old ++ [record]);
       Queries._queries_cache := None |}.
  split.
  - unfold Queries.store_query, mbind, M_bind. rewrite Hload.
    unfold Queries.set_queries_cache, Queries._save_queries. simpl.
    rewrite length_app. simpl. fold record.
    destruct (1000 <? length old + 1)%nat eqn:E.
    + apply Nat.ltb_lt in E. unfold Queries.last_n.
      rewrite length_app. simpl.
      replace (length old + 1 - 1000)%nat with (length old - 999)%nat by lia.
      rewrite drop_app_le by lia. reflexivity.
    + apply Nat.ltb_ge in E. rewrite Hsmall by lia. reflexivity.
  - simpl. repeat split; try done.
    rewrite length_app, length_drop. simpl. lia.
Qed.

Lemma store_query_keeps_newest_witness :
  let old := replicate 1000 SampleMore.old_query in
  exists record st2,
    Queries.store_query "q-1" "2024-02-01T00:00:00+00:00" Queries.Written
      "why redis?" "for the sessions" []
      {| Queries.queries_file := Queries.Holds old;
         Queries._queries_cache := None |}
    = (inr "q-1", st2)
    /\ Queries.queries_file st2
       = Queries.Holds (drop (length old - 999) old ++ [record])
    /\ Queries._queries_cache st2 = None
    /\ Queries.id record = "q-1"
    /\ Queries.question record = "why redis?"
    /\ Queries.response record = "for the sessions"
    /\ (length (drop (length old - 999) old ++ [record]) <= 1000)%nat
    /\ ((length old < 1000)%nat -> drop (length old - 999) old = old).
Proof.
  apply (store_query_keeps_newest "q-1" "2024-02-01T00:00:00+00:00"
           "why redis?" "for the sessions" []
           {| Queries.queries_file :=
                Queries.Holds (replicate 1000 SampleMore.old_query);
              Queries._queries_cache := None |}
           {| Queries.queries_file :=
                Queries.Holds (replicate 1000 SampleMore.old_query);
              Queries._queries_cache :=
                Some (replicate 1000 SampleMore.old_query) |}
           (replicate 1000 SampleMore.old_query)).
  reflexivity.
Defined.

(** An explanation stored for a path is the one [get_explanation] then
    returns for it, replacing any earlier one, while the explanations of
    the other paths stay as they were; a missing file counts as no
    explanations, and a file that cannot be loaded makes both operations
    raise the storage error without writing. *)
Theorem explanation_round_trip (now filepath text : string)
    (context' : list (string * Storage.value)) (file : Explanations.file_state) :
  match file with
  | Explanations.Corrupt =>
      Explanations.store_explanation now Explanations.Written filepath text
        context' file = (inl StorageError, file)
      /\ Explanations.get_explanation filepath file = (inl StorageError, file)
  | _ =>
      exists file',
        Explanations.store_explanation now Explanations.Written filepath text
          context' file = (inr tt, file')
        /\ Explanations.get_explanation filepath file'
           = (inr (Some {| Explanations.explanation := text;
                           Explanations.context := context';
                           Explanations.created_at := now |}), file')
        /\ (forall other, other <> filepath ->
              (Explanations.get_explanation other file').1
              = (Explanations.get_explanation other file).1)
  end.
Proof.
  unfold Explanations.store_explanation, Explanations.get_explanation,
    mbind, M_bind.
  destruct file as [| |explanations]; simpl.
  - eexists. split; [reflexivity|]. simpl. rewrite lookup_insert_eq.
    split; [done|]. intros other Hne. by rewrite lookup_insert_ne.
  - done.
  - eexists. split; [reflexivity|]. simpl. rewrite lookup_insert_eq.
    split; [done|]. intros other Hne. by rewrite lookup_insert_ne.
Qed.

(** ** Methods of the engine in sequence *)

(** Conversions done again, on an engine whose commit cache holds what the
    first run left in it, return the same records and convert nothing. *)
Lemma for_each_commit_to_info_rerun (l : list Commit) (s t : Engine) :
  _commit_cache (for_each _commit_to_info l s).2 ⊆ _commit_cache t ->
  for_each _commit_to_info l t = ((for_each _commit_to_info l s).1, t).
Proof.
  revert s t. induction l as [|c l IH]; intros s t Hsub; [done|].
  cbn [for_each] in *. unfold mbind, M_bind in *.
  destruct (commit_to_info_returns c s) as (info & s1 & Hrun & Hin).
  rewrite Hrun in *.
  assert (_commit_cache t !! hexsha c = Some info) as Hint.
  { eapply lookup_weaken; [exact Hin|]. etransitivity; [|exact Hsub].
    pose proof (for_each_commit_to_info_quiet l s1) as [[Hg _] _].
    destruct (for_each _commit_to_info l s1) as [[e|infos] s2]; exact Hg. }
  rewrite (commit_to_info_hit _ _ _ Hint).
  destruct (for_each_commit_to_info_returns l s1) as (infos & s2 & Hl & _).
  rewrite Hl in *. simpl in Hsub. rewrite (IH s1 t); rewrite Hl; done.
Qed.

(** The newest 20 commits asked for after the statistics have been
    returned, as the builder of the repository context does, are the very
    records of the recent activity, and are answered from the commit
    cache: the engine stays as the statistics left it. *)
Theorem recent_commits_after_repo_stats repo (s s1 : Engine) (st : RepoStats) :
  get_repo_stats repo s = (inr st, s1) ->
  get_recent_commits repo 20 s1 = (inr (recent_activity st), s1).
Proof.
  intros Hrun.
  destruct (get_repo_stats_returned _ _ _ _ Hrun) as (log & Hlog & Hhead).
  unfold get_recent_commits, call. unfold mbind at 1, M_bind at 1.
  rewrite Hlog. destruct log as [|c log].
  - unfold get_repo_stats, call in Hrun.
    unfold mbind at 1, M_bind at 1 in Hrun. rewrite Hlog in Hrun.
    unfold mbind, M_bind in Hrun.
    pose proof (current_branch_quiet repo s) as Hq.
    destruct (current_branch_or_unknown repo s) as [[e|b] s2]; [done|].
    by injection Hrun as <- <-.
  - destruct Hhead as [head Hhead]; [done|].
    destruct (get_repo_stats_nonempty repo s c log head Hlog Hhead)
      as (infos & s2 & Hfor & Hrun').
    rewrite Hrun in Hrun'. injection Hrun' as -> ->.
    cbn [recent_activity].
    change (slice_to (c :: log) 20) with (take 20 (c :: log)).
    rewrite (for_each_commit_to_info_rerun _ s s2); by rewrite Hfor.
Qed.

Lemma recent_commits_after_repo_stats_witness :
  let repo := Sample.repo_of [Sample.commit_A; Sample.commit_nostats] in
  exists st s1,
    get_repo_stats repo init = (inr st, s1)
    /\ recent_activity st
       = [commit_record Sample.commit_A; commit_record Sample.commit_nostats]
    /\ get_recent_commits repo 20 s1 = (inr (recent_activity st), s1).
Proof.
  eexists _, _. split; [vm_compute; reflexivity|]. split; [reflexivity|].
  apply (recent_commits_after_repo_stats
           (Sample.repo_of [Sample.commit_A; Sample.commit_nostats]) init).
  vm_compute. reflexivity.
Defined.

(** * Further properties of the store, continued *)

Section MemoryLists.
Import Storage StorageRest.

(** [get_memories_by_type] after a successful [store_memory]: the memories
    of the type asked for as before, followed by the new memory when it is
    of that type. *)
Theorem store_then_get_by_type (memory_id now content' memory_type' asked : string)
    (enhanced : option string) (context' : option (list (string * value)))
    (tags' : option (list string)) (st st1 : Store) (old : list Memory) :
  _load_memories st = (inr old, st1) ->
  exists before st2 after st3,
    get_memories_by_type asked st = (inr before, st1)
    /\ store_memory memory_id now Written content' enhanced context' memory_type'
         tags' st = (inr memory_id, st2)
    /\ get_memories_by_type asked st2 = (inr after, st3)
    /\ after
       = before
         ++ (if decide (memory_type' = asked)
             then [to_dict {| id := memory_id; content := content';
                              enhanced_content := enhanced;
                              memory_type := memory_type';
                              context := default [] context';
                              tags := default [] tags'; created_at := now |}]
             else []).
Proof.
  intros Hload.
  eexists _, _, _, _. split; [|split; [|split]].
  - unfold get_memories_by_type, mbind, M_bind. rewrite Hload. reflexivity.
  - exact (store_memory_run memory_id now Written content' enhanced context'
             memory_type' tags' st st1 old Hload).
  - reflexivity.
  - rewrite filter_app, fmap_app. f_equal. rewrite filter_cons, filter_nil.
    simpl. by destruct (decide (memory_type' = asked)).
Qed.

Lemma store_then_get_by_type_witness :
  exists before st2 after st3,
    get_memories_by_type "note"
      (Sample.store_of [Sample.memory_tagged; Sample.memory_content])
    = (inr before,
       {| memories_file := Holds [Sample.memory_tagged; Sample.memory_content];
          _memories_cache := Some [Sample.memory_tagged; Sample.memory_content] |})
    /\ store_memory "m-4" "2024-02-01T00:00:00+00:00" Written "rotate the keys"
         None None "note" None
         (Sample.store_of [Sample.memory_tagged; Sample.memory_content])
       = (inr "m-4", st2)
    /\ get_memories_by_type "note" st2 = (inr after, st3)
    /\ after
       = before
         ++ (if decide ("note" = "note")
             then [to_dict {| id := "m-4"; content := "rotate the keys";
                              enhanced_content := None;
                              memory_type := "note";
                              context := default [] None;
                              tags := default [] None;
                              created_at := "2024-02-01T00:00:00+00:00" |}]
             else []).
Proof.
  apply (store_then_get_by_type "m-4" "2024-02-01T00:00:00+00:00"
           "rotate the keys" "note" "note" None None None
           (Sample.store_of [Sample.memory_tagged; Sample.memory_content])
           {| memories_file := Holds [Sample.memory_tagged; Sample.memory_content];
              _memories_cache := Some [Sample.memory_tagged; Sample.memory_content] |}
           [Sample.memory_tagged; Sample.memory_content]).
  reflexivity.
Defined.

Lemma insert_desc_str_perm {X} (key : X -> string) (x : X) (l : list X) :
  insert_desc_str key x l ≡ₚ x :: l.
Proof.
  induction l as [|y l IH]; simpl; [done|].
  destruct (String.ltb (key x) (key y)); [|done].
  rewrite IH. apply Permutation_swap.
Qed.

Lemma sorted_desc_str_perm {X} (key : X -> string) (l : list X) :
  sorted_desc_str key l ≡ₚ l.
Proof.
  induction l as [|x l IH]; simpl; [done|].
  by rewrite insert_desc_str_perm, IH.
Qed.

Lemma ltb_leb (a b : string) : String.ltb a b = true -> String.leb a b = true.
Proof. unfold String.ltb, String.leb. by destruct (String.compare a b). Qed.

Lemma not_ltb_leb (a b : string) : String.ltb a b = false -> String.leb b a = true.
Proof.
  unfold String.ltb, String.leb. rewrite (String.compare_antisym a b).
  by destruct (String.compare b a).
Qed.

Lemma insert_desc_str_sorted {X} (key : X -> string) (x : X) (l : list X) :
  Sorted (fun a b => String.leb (key b) (key a) = true) l ->
  Sorted (fun a b => String.leb (key b) (key a) = true) (insert_desc_str key x l).
Proof.
  induction 1 as [|y l Hl IH Hy]; simpl.
  - repeat constructor.
  - destruct (String.ltb (key x) (key y)) eqn:E.
    + constructor; [done|]. destruct l as [|z l]; simpl.
      * constructor. by apply ltb_leb.
      * destruct (String.ltb (key x) (key z)).
        -- constructor. by apply HdRel_inv in Hy.
        -- constructor. by apply ltb_leb.
    + constructor; [by constructor|]. constructor. by apply not_ltb_leb.
Qed.

Lemma sorted_desc_str_sorted {X} (key : X -> string) (l : list X) :
  Sorted (fun a b => String.leb (key b) (key a) = true) (sorted_desc_str key l).
Proof.
  induction l; simpl; [constructor|]. by apply insert_desc_str_sorted.
Qed.

Lemma Sorted_take {X} (R : X -> X -> Prop) (l : list X) (n : nat) :
  Sorted R l -> Sorted R (take n l).
Proof.
  intros Hs. revert n. induction Hs as [|x l Hl IH Hx]; intros [|n]; simpl;
    try constructor; [apply IH|].
  destruct Hx as [|y l Hxy]; destruct n; simpl; by constructor.
Qed.

(** [get_recent_memories] on a store that loads returns stored memories, each
    as often as it is stored at most, every one with a creation stamp that
    is no smaller, as a string, than the stamp of the next; for a limit
    that is not negative it returns the smaller of the limit and the number
    of stored memories. *)
Theorem get_recent_memories_sorted (limit : Z) (st st' : Store)
    (memories : list Memory) :
  _load_memories st = (inr memories, st') ->
  exists ms,
    get_recent_memories limit st = (inr (to_dict <$> ms), st')
    /\ ms ⊆+ memories
    /\ Sorted (fun a b => String.leb (created_at b) (created_at a) = true) ms
    /\ (0 <= limit -> length ms = (Z.to_nat limit `min` length memories)%nat).
Proof.
  intros Hload.
  exists (slice_to (sorted_desc_str created_at memories) limit).
  destruct (slice_to_take (sorted_desc_str created_at memories) limit) as [k Hk].
  split; [|split; [|split]].
  - unfold get_recent_memories, mbind, M_bind. by rewrite Hload.
  - rewrite Hk. etransitivity; [apply sublist_submseteq, sublist_take|].
    by rewrite sorted_desc_str_perm.
  - rewrite Hk. apply Sorted_take, sorted_desc_str_sorted.
  - intros Hpos. unfold slice_to.
    destruct (0 <=? limit) eqn:E; [|apply Z.leb_gt in E; lia].
    by rewrite length_take, sorted_desc_str_perm.
Qed.

Lemma get_recent_memories_sorted_witness :
  exists ms,
    get_recent_memories 2
      (Sample.store_of
         [Sample.memory_tagged; Sample.memory_content; Sample.memory_other])
    = (inr (to_dict <$> ms),
       {| memories_file :=
            Holds [Sample.memory_tagged; Sample.memory_content;
                   Sample.memory_other];
          _memories_cache :=
            Some [Sample.memory_tagged; Sample.memory_content;
                  Sample.memory_other] |})
    /\ ms ⊆+ [Sample.memory_tagged; Sample.memory_content; Sample.memory_other]
    /\ Sorted (fun a b => String.leb (created_at b) (created_at a) = true) ms
    /\ (0 <= 2 ->
        length ms
        = (Z.to_nat 2
           `min` length [Sample.memory_tagged; Sample.memory_content;
                         Sample.memory_other])%nat).
Proof.
  apply (get_recent_memories_sorted 2
           (Sample.store_of
              [Sample.memory_tagged; Sample.memory_content; Sample.memory_other])).
  reflexivity.
Defined.

(** The sample store: the two newest memories, newest first. *)
Lemma get_recent_memories_sample :
  (get_recent_memories 2
     (Sample.store_of
        [Sample.memory_tagged; Sample.memory_content; Sample.memory_other])).1
  = inr [to_dict Sample.memory_other; to_dict Sample.memory_content].
Proof. vm_compute. reflexivity. Qed.

End MemoryLists.
